(** * Price-freshness analytics (nodejs/analytics.js)

    A shallow embedding of the aggregation performed by [main] in
    [nodejs/analytics.js]: the pass over the fetched price list
    (lines 24-121), the per-provider derived fields (lines 124-146), the
    best/worst ranking (lines 243-261), the two global percentages
    (lines 207-211 and 276-281) and the JSON document of outdated prices
    (lines 284-307).

    It also covers the sample of five items the program prints
    (lines 148-196) and the name of the file it writes (lines 285-289).

    Modelling conventions.
    - JavaScript numbers that hold counts, cents and epoch milliseconds are
      integers of [Z] (they stay far below 2^53, where doubles are exact).
      A quotient or product the program goes on to format is a double: it
      is the rational of [Q] that [Js.double] rounds the exact result to,
      nearest with 53 significant bits, ties to even, once per operation.
      [toFixed(2)] then rounds the exact value of that double, and the
      two-decimal string is represented by its value in hundredths.
    - [Date.now()] and [new Date()] read a clock.  The clock is a function
      from the number of readings made so far to the reading returned, and
      the aggregate state carries that number; the program reads the clock
      again at every use, so does the model.
    - [providerStats] is a plain object used as a map.  Its own
      properties are an association list in insertion order, and [Js.keys]
      enumerates them the way [Object.keys] does.  Reading
      [providerStats[k]] also finds what a plain object inherits from
      [Object.prototype]: for the names of [Js.inherited] the test of
      lines 53 and 106 finds a function (or the prototype), creates no
      entry, and the updates that follow are made on the object found,
      not on [providerStats].
    - [updated_at] of a price is either [null] or a date that
      [new Date(...).getTime()] parses; it is represented by the parsed
      epoch milliseconds.  The fields [price], [updated_at] and
      [provider_key] are present in every price object (possibly [null]).
    - Of the console output the model keeps the values printed: the
      derived fields, the two global percentages, the ranking and the
      sample of five items.  [main] is the run without the sample,
      [session] the run with it.  [clock n] is the [n]-th reading among
      the readings of the modelled statements. *)

From Stdlib Require Import ZArith QArith Qround Qabs Qpower List String Ascii Bool.
From Stdlib Require Import Lia Lqa Permutation.
Import ListNotations.
Local Open Scope string_scope.
Local Open Scope list_scope.
Local Open Scope Z_scope.

(** ** The JavaScript operations the program relies on *)

Module Js.

(** Truthiness of a value that is a string or [null]
    ([&& price.provider_key], [if (bestProvider)]). *)
Definition truthy (k : option string) : bool :=
  match k with
  | Some s => negb (s =? "")%string
  | None => false
  end.

(** The property name a string-or-null value denotes in [obj[k]]. *)
Definition to_key (k : option string) : string :=
  match k with
  | Some s => s
  | None => "null"
  end.

(** The names a plain object inherits from [Object.prototype]
    (ECMAScript 20.1.3 and B.2.2): [({})[k]] is a function for each of
    them, and the prototype object for ["__proto__"], so it is truthy. *)
Definition inherited (k : string) : bool :=
  existsb (String.eqb k)
    ["constructor"; "hasOwnProperty"; "isPrototypeOf";
     "propertyIsEnumerable"; "toLocaleString"; "toString"; "valueOf";
     "__proto__"; "__defineGetter__"; "__defineSetter__";
     "__lookupGetter__"; "__lookupSetter__"].

(** The integer nearest to [x]; of two, the even one. *)
Definition round_half_even (x : Q) : Z :=
  let f := Qfloor x in
  match Qcompare (x - inject_Z f) (1 # 2) with
  | Lt => f
  | Gt => f + 1
  | Eq => if Z.even f then f else f + 1
  end.

(** The binary exponent of [x > 0]: the [e] with [2^e <= x < 2^(e+1)]. *)
Definition exponent (x : Q) : Z :=
  let d := Z.log2 (Qnum x) - Z.log2 (Zpos (Qden x)) in
  if Qle_bool (2 ^ d) x then d else d - 1.

(** The double that an arithmetic operation returns when its exact result
    is [x]: the nearest number with a significand of 53 bits, ties to
    even.  The exponent range of binary64 is left out: a quotient of two
    integers below 2^53 in magnitude is 0 or lies between 2^-53 and
    2^53, and so does not overflow or underflow. *)
Definition double (x : Q) : Q :=
  if Qeq_bool x 0 then 0%Q
  else
    let a := Qabs x in
    let e := exponent a - 52 in
    (inject_Z (Z.sgn (Qnum x) * round_half_even (a / 2 ^ e)) * 2 ^ e)%Q.

(** [a / b] and [a * b] on doubles. *)
Definition fdiv (a b : Q) : Q := double (a / b).
Definition fmul (a b : Q) : Q := double (a * b).

(** [x.toFixed(2)] as a number of hundredths: the integer [n] for which
    [n / 100] is closest to the exact value of the double [x], the larger
    magnitude on a tie, with the sign of [x]. *)
Definition toFixed2 (x : Q) : Z :=
  let d := Zpos (Qden x) in
  Z.sgn (Qnum x) * ((2 * (100 * Z.abs (Qnum x)) + d) / (2 * d)).

(** [Math.floor(a / b)] on integers. *)
Definition floor_div (a b : Z) : Z := a / b.

Definition digit (c : ascii) : option Z :=
  let n := Z.of_nat (nat_of_ascii c) in
  if (48 <=? n) && (n <=? 57) then Some (n - 48) else None.

Fixpoint digits (s : string) (acc : Z) : option Z :=
  match s with
  | EmptyString => Some acc
  | String c r =>
      match digit c with
      | Some d => digits r (10 * acc + d)
      | None => None
      end
  end.

(** A property name that is an array index: a canonical decimal numeral
    below [2^32 - 1]. *)
Definition array_index (s : string) : option Z :=
  match s with
  | EmptyString => None
  | String c r =>
      if (Ascii.eqb c "0"%char) && negb (r =? "")%string then None
      else match digits s 0 with
           | Some n => if n <=? 4294967294 then Some n else None
           | None => None
           end
  end.

Fixpoint insert_index {A : Type} (x : Z * A) (l : list (Z * A))
  : list (Z * A) :=
  match l with
  | [] => [x]
  | h :: t => if fst x <? fst h then x :: l else h :: insert_index x t
  end.

Definition index_entries {A : Type} (o : list (string * A))
  : list (Z * (string * A)) :=
  flat_map (fun e => match array_index (fst e) with
                     | Some n => [(n, e)]
                     | None => []
                     end) o.

Definition is_name (k : string) : bool :=
  match array_index k with Some _ => false | None => true end.

(** The own properties of [o] in the order of [Object.keys(o)]: array
    indices in ascending numeric order, then the other names in
    insertion order. *)
Definition entries {A : Type} (o : list (string * A)) : list (string * A) :=
  map snd (fold_right insert_index [] (index_entries o))
  ++ filter (fun e => is_name (fst e)) o.

Definition keys {A : Type} (o : list (string * A)) : list string :=
  map fst (entries o).

End Js.

Arguments Js.inherited : simpl never.

(** ** Data model *)

(** An element of [item.prices]. *)
Record Price := mkPrice {
  provider_key : option string;
  price : option Z;          (* integer cents, or null *)
  updated_at : option Z      (* parsed epoch milliseconds, or null *)
}.

(** An element of the response. [prices] is [None] when the field is
    null or absent. *)
Record Item := mkItem {
  market_hash_name : string;
  liquidity : option Z;
  trades_7d : option Z;
  prices : option (list Price)
}.

(** An element of [validPrices]: both [updated_at] and [price] are set. *)
Record ValidPrice := mkValid {
  v_provider_key : option string;
  v_price : Z;
  v_updated_at : Z
}.

(** The accumulator object of one provider (lines 54-62).  Its [avgPrice]
    field starts at 0 and is only read after line 130 overwrites it; it
    lives in [Derived] below. *)
Record Stats := mkStats {
  total : Z;
  upToDate : Z;
  oldestUpdate : Z;
  newestUpdate : Z;
  totalPrice : Z;
  skippedCount : Z
}.

(** An element of [outdatedPrices] (lines 88-96). *)
Module Outdated.
Record t := mk {
  item_name : string;
  provider : option string;
  price : Q;               (* price.price / 100: the double nearest to it *)
  updated_at : Z;
  minutes_since_update : Z
}.
End Outdated.

Definition Clock := nat -> Z.

(** The variables of lines 28-36 together with the number of clock
    readings made so far. *)
Record Agg := mkAgg {
  upToDateCount : Z;
  totalPriceCount : Z;
  skippedPriceCount : Z;
  providerStats : list (string * Stats);
  outdatedPrices : list Outdated.t;
  ticks : nat
}.

(** ** Aggregation (lines 24-121) *)

Definition new_stats (now : Z) : Stats :=
  {| total := 0; upToDate := 0; oldestUpdate := now; newestUpdate := 0;
     totalPrice := 0; skippedCount := 0 |}.

Fixpoint lookup (k : string) (o : list (string * Stats)) : option Stats :=
  match o with
  | [] => None
  | (k', s) :: r => if (k =? k')%string then Some s else lookup k r
  end.

Fixpoint modify (k : string) (f : Stats -> Stats) (o : list (string * Stats))
  : list (string * Stats) :=
  match o with
  | [] => []
  | (k', s) :: r => if (k =? k')%string then (k', f s) :: r else (k', s) :: modify k f r
  end.

Definition with_stats (f : list (string * Stats) -> list (string * Stats))
  (st : Agg) : Agg :=
  {| upToDateCount := upToDateCount st;
     totalPriceCount := totalPriceCount st;
     skippedPriceCount := skippedPriceCount st;
     providerStats := f (providerStats st);
     outdatedPrices := outdatedPrices st;
     ticks := ticks st |}.

(** [if (!providerStats[k]) providerStats[k] = {...}] (lines 53-63 and
    106-116).  [providerStats[k]] is the own entry when there is one,
    else what the object inherits under the name [k], else [undefined];
    only in the last case an entry is created, and it reads the clock for
    its [oldestUpdate]. *)
Definition ensure (clock : Clock) (k : string) (st : Agg) : Agg :=
  match lookup k (providerStats st) with
  | Some _ => st
  | None =>
      if Js.inherited k then st
      else
        {| upToDateCount := upToDateCount st;
           totalPriceCount := totalPriceCount st;
           skippedPriceCount := skippedPriceCount st;
           providerStats := providerStats st ++ [(k, new_stats (clock (ticks st)))];
           outdatedPrices := outdatedPrices st;
           ticks := S (ticks st) |}
  end.

(** Lines 65-66. *)
Definition add_price (p : Z) (s : Stats) : Stats :=
  {| total := total s + 1; upToDate := upToDate s;
     oldestUpdate := oldestUpdate s; newestUpdate := newestUpdate s;
     totalPrice := totalPrice s + p; skippedCount := skippedCount s |}.

(** Lines 72-81. *)
Definition track (ts : Z) (s : Stats) : Stats :=
  let oldest := if ts <? oldestUpdate s then ts else oldestUpdate s in
  let newest := if newestUpdate s <? ts then ts else newestUpdate s in
  {| total := total s; upToDate := upToDate s;
     oldestUpdate := oldest; newestUpdate := newest;
     totalPrice := totalPrice s; skippedCount := skippedCount s |}.

(** Line 85. *)
Definition inc_upToDate (s : Stats) : Stats :=
  {| total := total s; upToDate := upToDate s + 1;
     oldestUpdate := oldestUpdate s; newestUpdate := newestUpdate s;
     totalPrice := totalPrice s; skippedCount := skippedCount s |}.

(** Line 117. *)
Definition inc_skipped (s : Stats) : Stats :=
  {| total := total s; upToDate := upToDate s;
     oldestUpdate := oldestUpdate s; newestUpdate := newestUpdate s;
     totalPrice := totalPrice s; skippedCount := skippedCount s + 1 |}.

(** The comparison of line 83. *)
Definition is_fresh (oneHourAgo ts : Z) : bool := oneHourAgo <=? ts.

(** The body of [validPrices.forEach] (lines 51-98) for the item named
    [name].  The updates of lines 65-85 are made on [providerStats[k]]:
    on the own entry [k] when there is one ([modify] changes it), and
    otherwise on an inherited object, which leaves [providerStats] as it
    is ([modify] changes nothing). *)
Definition valid_step (clock : Clock) (oneHourAgo : Z) (name : string)
  (st : Agg) (v : ValidPrice) : Agg :=
  let k := Js.to_key (v_provider_key v) in
  let ts := v_updated_at v in
  let st1 := ensure clock k st in
  let st2 := with_stats (modify k (fun s => track ts (add_price (v_price v) s))) st1 in
  if is_fresh oneHourAgo ts then
    {| upToDateCount := upToDateCount st2 + 1;
       totalPriceCount := totalPriceCount st2;
       skippedPriceCount := skippedPriceCount st2;
       providerStats := modify k inc_upToDate (providerStats st2);
       outdatedPrices := outdatedPrices st2;
       ticks := ticks st2 |}
  else
    {| upToDateCount := upToDateCount st2;
       totalPriceCount := totalPriceCount st2;
       skippedPriceCount := skippedPriceCount st2;
       providerStats := providerStats st2;
       outdatedPrices :=
         outdatedPrices st2 ++
         [Outdated.mk name (v_provider_key v) (v_price v # 100) ts
            (Js.floor_div (clock (ticks st2) - ts) (60 * 1000))];
       ticks := S (ticks st2) |}.

(** The predicate of lines 103 and 166, and the filter of lines 41-43. *)
Definition is_invalid (p : Price) : bool :=
  match updated_at p, price p with
  | Some _, Some _ => false
  | _, _ => true
  end.

Definition valid_of (p : Price) : list ValidPrice :=
  match updated_at p, price p with
  | Some ts, Some c => [mkValid (provider_key p) c ts]
  | _, _ => []
  end.

Definition validPrices (ps : list Price) : list ValidPrice :=
  flat_map valid_of ps.

(** The body of the second [item.prices.forEach] (lines 101-119). *)
Definition skip_step (clock : Clock) (st : Agg) (p : Price) : Agg :=
  if is_invalid p && Js.truthy (provider_key p) then
    let k := Js.to_key (provider_key p) in
    with_stats (modify k inc_skipped) (ensure clock k st)
  else st.

Definition len {A : Type} (l : list A) : Z := Z.of_nat (List.length l).
Arguments len : simpl never.

(** Lines 45-49. *)
Definition count_item (ps : list Price) (st : Agg) : Agg :=
  let invalidCount := len ps - len (validPrices ps) in
  {| upToDateCount := upToDateCount st;
     totalPriceCount := totalPriceCount st + len (validPrices ps);
     skippedPriceCount := skippedPriceCount st + invalidCount;
     providerStats := providerStats st;
     outdatedPrices := outdatedPrices st;
     ticks := ticks st |}.

(** The body of [response.forEach] (lines 38-121). *)
Definition process_item (clock : Clock) (oneHourAgo : Z) (st : Agg)
  (item : Item) : Agg :=
  match prices item with
  | Some ps =>
      if 0 <? len ps then
        let st1 := count_item ps st in
        let st2 := fold_left (valid_step clock oneHourAgo (market_hash_name item))
                     (validPrices ps) st1 in
        fold_left (skip_step clock) ps st2
      else st
  | None => st
  end.

(** Lines 25-36: the first clock reading fixes the cutoff. *)
Definition hour_ms : Z := 60 * 60 * 1000.

Definition init_agg : Agg :=
  {| upToDateCount := 0; totalPriceCount := 0; skippedPriceCount := 0;
     providerStats := []; outdatedPrices := []; ticks := 1 |}.

Definition aggregate (clock : Clock) (response : list Item) : Agg :=
  fold_left (process_item clock (clock 0%nat - hour_ms)) response init_agg.

(** ** Derived fields of each provider (lines 124-146) *)

(** The fields line 126-145 add to a provider's object.  A two-decimal
    string is held as hundredths ("0.00" is 0); [None] stands for "N/A";
    an ISO instant is held as its epoch milliseconds. *)
Record Derived := mkDerived {
  upToDatePercentage : Z;
  avgPrice : Z;
  oldestUpdateTime : option Z;
  newestUpdateTime : option Z;
  oldestUpdateMinutesAgo : option Z;
  newestUpdateMinutesAgo : option Z
}.

Definition derive_stats (clock : Clock) (t : nat) (s : Stats) : Derived * nat :=
  if 0 <? total s then
    ({| upToDatePercentage :=
          Js.toFixed2
            (Js.fmul (Js.fdiv (inject_Z (upToDate s)) (inject_Z (total s))) 100);
        avgPrice :=
          Js.toFixed2
            (Js.fdiv (Js.fdiv (inject_Z (totalPrice s)) (inject_Z (total s))) 100);
        oldestUpdateTime := Some (oldestUpdate s);
        newestUpdateTime := Some (newestUpdate s);
        oldestUpdateMinutesAgo :=
          Some (Js.floor_div (clock t - oldestUpdate s) (60 * 1000));
        newestUpdateMinutesAgo :=
          Some (Js.floor_div (clock (S t) - newestUpdate s) (60 * 1000)) |},
     S (S t))
  else
    ({| upToDatePercentage := 0; avgPrice := 0;
        oldestUpdateTime := None; newestUpdateTime := None;
        oldestUpdateMinutesAgo := None; newestUpdateMinutesAgo := None |},
     t).

(** [Object.keys(providerStats).forEach] of line 124, threading the number
    of clock readings. *)
Fixpoint derive_all (clock : Clock) (es : list (string * Stats)) (t : nat)
  : list (string * Stats * Derived) * nat :=
  match es with
  | [] => ([], t)
  | (k, s) :: r =>
      let (d, t1) := derive_stats clock t s in
      let (ds, t2) := derive_all clock r t1 in
      ((k, s, d) :: ds, t2)
  end.

(** ** Ranking (lines 243-261) *)

(** Percentages are compared after [parseFloat]; here in hundredths, so
    the initial [-1] and [101] are [-100] and [10100]. *)
Record Ranking := mkRanking {
  bestProvider : string;
  worstProvider : string;
  bestPercentage : Z;
  worstPercentage : Z
}.

Definition rank_init : Ranking :=
  {| bestProvider := ""; worstProvider := "";
     bestPercentage := -100; worstPercentage := 10100 |}.

Definition rank_step (r : Ranking) (e : string * Stats * Derived) : Ranking :=
  let '(k, s, d) := e in
  if 0 <? total s then
    let pct := upToDatePercentage d in
    let r1 :=
      if bestPercentage r <? pct then
        {| bestProvider := k; worstProvider := worstProvider r;
           bestPercentage := pct; worstPercentage := worstPercentage r |}
      else r in
    if pct <? worstPercentage r1 then
      {| bestProvider := bestProvider r1; worstProvider := k;
         bestPercentage := bestPercentage r1; worstPercentage := pct |}
    else r1
  else r.

Definition rank (ds : list (string * Stats * Derived)) : Ranking :=
  fold_left rank_step ds rank_init.

(** Lines 264 and 269: a ranking line is printed when the name is truthy. *)
Definition shown (provider : string) : bool := Js.truthy (Some provider).

(** ** Global percentages (lines 207-211 and 276-281) *)

Definition percentage_upToDate (st : Agg) : Z :=
  if 0 <? totalPriceCount st then
    Js.toFixed2
      (Js.fmul (Js.fdiv (inject_Z (upToDateCount st))
                  (inject_Z (totalPriceCount st))) 100)
  else 0.

(** [None] when the quotient is not a finite number (0/0 prints "NaN"). *)
Definition data_quality (st : Agg) : option Z :=
  let d := totalPriceCount st + skippedPriceCount st in
  if d =? 0 then None
  else Some (Js.toFixed2
               (Js.fmul (Js.fdiv (inject_Z (totalPriceCount st)) (inject_Z d)) 100)).

(** ** The JSON document of outdated prices (lines 284-307) *)

Module Ledger.
Record t := mk {
  file_stamp : Z;            (* the reading of line 285, in the file name *)
  generated_at : Z;          (* the reading of line 294, as an ISO instant *)
  total_outdated_prices : Z;
  time_threshold_minutes : Z;
  prices : list Outdated.t
}.
End Ledger.

Definition save_outdated (clock : Clock) (t : nat) (out : list Outdated.t)
  : option Ledger.t * nat :=
  if 0 <? len out then
    (Some (Ledger.mk (clock t) (clock (S t)) (len out) 60 out), S (S t))
  else (None, t).

(** ** The whole run *)

Record Run := mkRun {
  agg : Agg;
  providers : list (string * Stats * Derived);
  ranking : Ranking;
  percentage : Z;
  quality : option Z;
  written : option Ledger.t;
  readings : nat
}.

Definition main (clock : Clock) (response : list Item) : Run :=
  let st := aggregate clock response in
  let (ds, t1) := derive_all clock (Js.entries (providerStats st)) (ticks st) in
  let (file, t2) := save_outdated clock t1 (outdatedPrices st) in
  {| agg := st; providers := ds; ranking := rank ds;
     percentage := percentage_upToDate st; quality := data_quality st;
     written := file; readings := t2 |}.

(** ** Examples *)

Definition minute_ms : Z := 60 * 1000.

Definition widget (now : Z) : list Item :=
  [ mkItem "Widget" None None
      (Some [ mkPrice (Some "steam") (Some 1000) (Some (now - 30 * minute_ms));
              mkPrice (Some "buff163") (Some 2000) (Some (now - 90 * minute_ms));
              mkPrice (Some "youpin") None (Some now) ]) ].

Definition t0 : Z := 1700000000000.

(** * The sample of items (lines 148-196) and the run with it *)

(** [Math.random()]: the result of the [n]-th call. *)
Definition Random := nat -> Q.

(** Which field an invalid price is reported to miss (line 169). *)
Inductive Missing := MissingTimestamp | MissingPrice.

(** A line printed for a price: lines 167-171 or lines 181-187. The price
    in dollars is a two-decimal string, held in hundredths. *)
Inductive PriceLine :=
| InvalidLine (provider : option string) (missing : Missing)
| ValidLine (provider : option string) (dollars : Z) (updated : Z)
    (minutesAgo : Z) (isUpToDate : bool).

(** What lines 158-189 print for an item; [None] stands for "N/A" and, for
    the prices, for an item without a "Prices:" block. *)
Record SampleItem := mkSample {
  shown_name : string;
  shown_liquidity : option Z;
  shown_trades : option Z;
  shown_prices : option (list PriceLine)
}.

(** [x || "N/A"] on a number or null: 0 is falsy. *)
Definition or_na (x : option Z) : option Z :=
  match x with
  | Some 0 => None
  | _ => x
  end.

(** The body of [item.prices.forEach] of line 165, threading the number of
    clock readings.  [(price.price / 100).toFixed(2)] formats the double
    nearest to the exact quotient; that double lies so close to it that
    the result is the one of the exact quotient (see [cents_as_double]),
    which is what the model formats. *)
Definition price_line (clock : Clock) (oneHourAgo : Z)
  (acc : list PriceLine * nat) (p : Price) : list PriceLine * nat :=
  let (lines, t) := acc in
  match updated_at p, price p with
  | None, _ => (lines ++ [InvalidLine (provider_key p) MissingTimestamp], t)
  | Some _, None => (lines ++ [InvalidLine (provider_key p) MissingPrice], t)
  | Some ts, Some c =>
      (lines ++ [ValidLine (provider_key p) (Js.toFixed2 (c # 100)) ts
                   (Js.floor_div (clock t - ts) (60 * 1000))
                   (is_fresh oneHourAgo ts)],
       S t)
  end.

(** Lines 158-189 for one item. *)
Definition show_item (clock : Clock) (oneHourAgo : Z) (t : nat) (item : Item)
  : SampleItem * nat :=
  match prices item with
  | Some ps =>
      if 0 <? len ps then
        let (lines, t') := fold_left (price_line clock oneHourAgo) ps ([], t) in
        (mkSample (market_hash_name item) (or_na (liquidity item))
           (or_na (trades_7d item)) (Some lines), t')
      else
        (mkSample (market_hash_name item) (or_na (liquidity item))
           (or_na (trades_7d item)) None, t)
  | None =>
      (mkSample (market_hash_name item) (or_na (liquidity item))
         (or_na (trades_7d item)) None, t)
  end.

(** [response.splice(i, 1)]. *)
Definition splice_one {A : Type} (i : nat) (l : list A) : list A :=
  firstn i l ++ skipn (S i) l.

(** The state of the loop of line 153: the response as [splice] has left
    it, the items shown so far, and the numbers of clock readings and of
    random draws made. *)
Record Sampling := mkSampling {
  remaining : list Item;
  sampled : list (Item * SampleItem);
  sample_ticks : nat;
  draws : nat
}.

(** [response[randomIndex]] for the index of line 155; [None] when the
    index is not one of the array, where line 158 throws. *)
Definition random_item (r : Q) (l : list Item) : option (nat * Item) :=
  let randomIndex := Qfloor (r * inject_Z (len l)) in
  if 0 <=? randomIndex then
    match nth_error l (Z.to_nat randomIndex) with
    | Some item => Some (Z.to_nat randomIndex, item)
    | None => None
    end
  else None.

(** One turn of the loop of line 153; [None] once an exception has been
    thrown. *)
Definition sample_step (clock : Clock) (rand : Random) (oneHourAgo : Z)
  (st : option Sampling) (i : nat) : option Sampling :=
  match st with
  | None => None
  | Some st =>
      if Z.of_nat i <? len (remaining st) then
        match random_item (rand (draws st)) (remaining st) with
        | Some (randomIndex, item) =>
            let (shown, t) := show_item clock oneHourAgo (sample_ticks st) item in
            Some {| remaining := splice_one randomIndex (remaining st);
                    sampled := sampled st ++ [(item, shown)];
                    sample_ticks := t;
                    draws := S (draws st) |}
        | None => None
        end
      else Some st
  end.

(** The loop of lines 153-196, started after [t] clock readings. *)
Definition sample (clock : Clock) (rand : Random) (oneHourAgo : Z)
  (response : list Item) (t : nat) : option Sampling :=
  fold_left (sample_step clock rand oneHourAgo) (seq 0 5)
    (Some {| remaining := response; sampled := []; sample_ticks := t; draws := 0 |}).

(** The body of [main] with the sample between the derived fields and the
    ranking, as the program has it; [None] when the [catch] of line 308
    is reached, in which case nothing is written. *)
Definition session (clock : Clock) (rand : Random) (response : list Item)
  : option (Run * Sampling) :=
  let st := aggregate clock response in
  let (ds, t1) := derive_all clock (Js.entries (providerStats st)) (ticks st) in
  match sample clock rand (clock 0%nat - hour_ms) response t1 with
  | None => None
  | Some smp =>
      let (file, t2) := save_outdated clock (sample_ticks smp) (outdatedPrices st) in
      Some ({| agg := st; providers := ds; ranking := rank ds;
               percentage := percentage_upToDate st; quality := data_quality st;
               written := file; readings := t2 |}, smp)
  end.

(** The clock that leaves out the [n] readings after the first [from]. *)
Definition skip_readings (clock : Clock) (from n : nat) : Clock :=
  fun t => if (t <? from)%nat then clock t else clock (t + n)%nat.

(** The results of [Math.random()] lie in [0, 1). *)
Definition in_unit (rand : Random) : Prop :=
  forall n, (0 <= rand n)%Q /\ (rand n < 1)%Q.

(** A response of nine numbered items without prices, and a source of
    random numbers that is always one half. *)
Definition nine_items : list Item :=
  map (fun n => mkItem (String (ascii_of_nat (48 + n)) "") None None None)
    (seq 1 9).

Definition one_half : Random := fun _ => 1 # 2.

(** * Specification vocabulary *)

(** ** Views of the response and of the state *)

(** The prices of an item; none when [item.prices] is null or absent. *)
Definition quotes (item : Item) : list Price :=
  match prices item with
  | Some ps => ps
  | None => []
  end.

(** The valid prices of the response in the order the pass meets them,
    each with the name of its item. *)
Definition all_valid (response : list Item) : list (string * ValidPrice) :=
  flat_map (fun item => map (pair (market_hash_name item))
                          (validPrices (quotes item))) response.

(** The comparison of line 83 on a valid price of [all_valid]. *)
Definition fresh_at (cut : Z) (nv : string * ValidPrice) : bool :=
  is_fresh cut (v_updated_at (snd nv)).

(** The valid price [v] is counted in the entry [k]. *)
Definition for_key (k : string) (v : ValidPrice) : bool :=
  (Js.to_key (v_provider_key v) =? k)%string.

(** The valid prices of the response that belong to the entry [k]. *)
Definition valid_for (k : string) (response : list Item) : list ValidPrice :=
  filter (for_key k) (map snd (all_valid response)).

(** The invalid prices that line 117 charges to the entry [k]. *)
Definition skipped_for (k : string) (p : Price) : bool :=
  is_invalid p && Js.truthy (provider_key p)
  && (Js.to_key (provider_key p) =? k)%string.

(** Line 104 charges an invalid price to the entry [k]: the provider key
    is truthy and names [k]. *)
Definition charged (p : Price) (k : string) : bool :=
  Js.truthy (provider_key p) && (k =? Js.to_key (provider_key p))%string.

(** The sum of a list of integers. *)
Definition sum (l : list Z) : Z := fold_right Z.add 0 l.

(** The field [m] of the entry [k], 0 when there is no entry. *)
Definition tally (m : Stats -> Z) (k : string) (st : Agg) : Z :=
  match lookup k (providerStats st) with
  | Some s => m s
  | None => 0
  end.

(** Once line 53 (or 106) has run there is an own entry [k]: there was
    one, or [k] is not a name the object inherits. *)
Definition held (k : string) (st : Agg) : bool :=
  match lookup k (providerStats st) with
  | Some _ => true
  | None => negb (Js.inherited k)
  end.

(** That entry: the one there was, or the new one. *)
Definition entry (clock : Clock) (k : string) (st : Agg) : Stats :=
  match lookup k (providerStats st) with
  | Some s => s
  | None => new_stats (clock (ticks st))
  end.

(** No entry bears a name the object inherits. *)
Definition own_names (st : Agg) : Prop :=
  forall k s, lookup k (providerStats st) = Some s -> Js.inherited k = false.

(** What line 65-86 make of the entry of a valid price. *)
Definition touched (oneHourAgo : Z) (v : ValidPrice) (s : Stats) : Stats :=
  let s1 := track (v_updated_at v) (add_price (v_price v) s) in
  if is_fresh oneHourAgo (v_updated_at v) then inc_upToDate s1 else s1.

(** The record line 88 pushes for a stale price, given the reading of
    line 94. *)
Definition stale_record (name : string) (v : ValidPrice) (now : Z) : Outdated.t :=
  Outdated.mk name (v_provider_key v) (v_price v # 100) (v_updated_at v)
    (Js.floor_div (now - v_updated_at v) (60 * 1000)).

(** The number of [outdatedPrices] records that belong to the entry [k]. *)
Definition stale_count (k : string) (out : list Outdated.t) : Z :=
  len (filter (fun r => (Js.to_key (Outdated.provider r) =? k)%string) out).

(** An outdated record without its [minutes_since_update]. *)
Definition core (r : Outdated.t)
  : string * option string * Q * Z :=
  (Outdated.item_name r, Outdated.provider r, Outdated.price r,
   Outdated.updated_at r).

(** The same fields, read off a valid price and the name of its item. *)
Definition core_of (nv : string * ValidPrice)
  : string * option string * Q * Z :=
  (fst nv, v_provider_key (snd nv), v_price (snd nv) # 100,
   v_updated_at (snd nv)).

(** ** Invariants and effects of the pass *)

(** Per provider: what has been counted fresh and what has been recorded
    as outdated add up to the entry's total; a provider without an entry
    has no record, unless its name is one the object inherits. *)
Definition balanced (st : Agg) : Prop :=
  forall k,
    match lookup k (providerStats st) with
    | Some s =>
        upToDate s + stale_count k (outdatedPrices st) = total s /\
        0 <= upToDate s
    | None => Js.inherited k = false -> stale_count k (outdatedPrices st) = 0
    end.

(** Entries of [providerStats] have distinct names. *)
Definition distinct (st : Agg) : Prop := NoDup (map fst (providerStats st)).

(** The totals are not negative, and an entry that has counted a price has
    its oldest update no later than its newest. *)
Definition ordered (st : Agg) : Prop :=
  forall k s, lookup k (providerStats st) = Some s ->
    0 <= total s /\ (0 < total s -> oldestUpdate s <= newestUpdate s).

(** No entry has seen an update later than [now]. *)
Definition bounded (now : Z) (st : Agg) : Prop :=
  forall k s, lookup k (providerStats st) = Some s -> newestUpdate s <= now.

(** The entry [k] exists and the instant [a] lies between its oldest and
    newest update. *)
Definition covers (k : string) (a : Z) (st : Agg) : Prop :=
  exists s, lookup k (providerStats st) = Some s /\
            oldestUpdate s <= a <= newestUpdate s.

(** Every outdated record is at least sixty minutes old. *)
Definition minutes_ok (st : Agg) : Prop :=
  Forall (fun r => 60 <= Outdated.minutes_since_update r) (outdatedPrices st).

(** The fields of an entry that only a valid price may change. *)
Definition same_tallies (s s' : Stats) : Prop :=
  total s' = total s /\ upToDate s' = upToDate s /\
  oldestUpdate s' = oldestUpdate s /\ newestUpdate s' = newestUpdate s /\
  totalPrice s' = totalPrice s.

(** What an invalid price [p] does: it is not among the valid prices, it
    adds one to the skipped count of its item and nothing to the valid
    count, and its turn in the loop of line 101 leaves the global counters,
    the outdated records and every tally of every entry as they are,
    adding one to [skippedCount] of the entry it is charged to.  When that
    entry is missing it is created with zero tallies, unless its name is
    one the object inherits: then there is no entry to charge, before or
    after. *)
Definition isolated (clock : Clock) (p : Price) : Prop :=
  (forall l1 l2, validPrices (l1 ++ p :: l2) = validPrices (l1 ++ l2)) /\
  (forall l1 l2 st,
     skippedPriceCount (count_item (l1 ++ p :: l2) st) =
       skippedPriceCount (count_item (l1 ++ l2) st) + 1 /\
     totalPriceCount (count_item (l1 ++ p :: l2) st) =
       totalPriceCount (count_item (l1 ++ l2) st)) /\
  (forall st,
     let st' := skip_step clock st p in
     upToDateCount st' = upToDateCount st /\
     totalPriceCount st' = totalPriceCount st /\
     skippedPriceCount st' = skippedPriceCount st /\
     outdatedPrices st' = outdatedPrices st /\
     (forall k s, lookup k (providerStats st) = Some s ->
        exists s', lookup k (providerStats st') = Some s' /\
                   same_tallies s s' /\
                   skippedCount s' =
                     skippedCount s + (if charged p k then 1 else 0)) /\
     (forall k, lookup k (providerStats st) = None ->
        lookup k (providerStats st') =
        if charged p k && negb (Js.inherited k)
        then Some {| total := 0; upToDate := 0;
                     oldestUpdate := clock (ticks st); newestUpdate := 0;
                     totalPrice := 0; skippedCount := 1 |}
        else None) /\
     (Js.truthy (provider_key p) = false -> st' = st)).

(** The counters at the end of the pass as functions of the response:
    the valid prices alone make [totalPriceCount] and every entry's
    [total], [upToDate] and [totalPrice]; the invalid prices make
    [skippedPriceCount], and those charged to [k] the [skippedCount] of the
    entry [k]. *)
Definition tallied (clock : Clock) (response : list Item) : Prop :=
  let st := aggregate clock response in
  totalPriceCount st = len (all_valid response) /\
  skippedPriceCount st = len (filter is_invalid (flat_map quotes response)) /\
  forall k s, lookup k (providerStats st) = Some s ->
    total s = len (valid_for k response) /\
    upToDate s =
      len (filter (fun v => is_fresh (clock 0%nat - hour_ms) (v_updated_at v))
             (valid_for k response)) /\
    totalPrice s = sum (map v_price (valid_for k response)) /\
    skippedCount s = len (filter (skipped_for k) (flat_map quotes response)).

(** The first [t] readings of two clocks are the same. *)
Definition agree (c1 c2 : Clock) (t : nat) : Prop :=
  forall n, (n < t)%nat -> c1 n = c2 n.

(** ** The reported entries and the ranking *)

(** The guard of line 250. *)
Definition eligible (e : string * Stats * Derived) : Prop :=
  0 < total (snd (fst e)).

(** The percentage line 251 reads, in hundredths. *)
Definition pct (e : string * Stats * Derived) : Z :=
  upToDatePercentage (snd e).

(** The provider key of a reported entry. *)
Definition name_of (e : string * Stats * Derived) : string := fst (fst e).

(** [e] is the first entry of [ds], among those with [total > 0], whose
    percentage is the greatest. *)
Definition first_max (ds : list (string * Stats * Derived))
  (e : string * Stats * Derived) : Prop :=
  exists l1 l2, ds = l1 ++ e :: l2 /\ eligible e /\
    (forall e', In e' l1 -> eligible e' -> pct e' < pct e) /\
    (forall e', In e' l2 -> eligible e' -> pct e' <= pct e).

(** [e] is the first entry of [ds], among those with [total > 0], whose
    percentage is the least. *)
Definition first_min (ds : list (string * Stats * Derived))
  (e : string * Stats * Derived) : Prop :=
  exists l1 l2, ds = l1 ++ e :: l2 /\ eligible e /\
    (forall e', In e' l1 -> eligible e' -> pct e < pct e') /\
    (forall e', In e' l2 -> eligible e' -> pct e <= pct e').

(** The percentages lie strictly between the initial values of line 245
    and 246. *)
Definition in_range (e : string * Stats * Derived) : Prop :=
  eligible e -> -100 < pct e < 10100.

(** What the loop of line 248 leaves in its four variables: the initial
    values when no entry has [total > 0]; otherwise the first entry with
    the greatest percentage and the first with the least. *)
Definition ranked (ds : list (string * Stats * Derived)) (r : Ranking) : Prop :=
  ((forall e, In e ds -> ~ eligible e) /\ r = rank_init) \/
  (exists eb ew, first_max ds eb /\ first_min ds ew /\
     r = {| bestProvider := name_of eb; worstProvider := name_of ew;
            bestPercentage := pct eb; worstPercentage := pct ew |}).

(** The number of clock readings made when the loop of line 124 reaches
    the entry that follows the entries [l1]: those of the pass, and two
    for each earlier entry with [total > 0]. *)
Definition readings_before (st : Agg) (l1 : list (string * Stats * Derived))
  : nat :=
  (ticks st +
   2 * List.length (filter (fun e => (0 <? total (snd (fst e)))%Z) l1))%nat.

(** The fields lines 126-145 derive from an entry [s] reached after [t]
    clock readings. With [total > 0]: the percentage is
    [upToDate / total * 100] and the average [totalPrice / total / 100],
    computed on doubles and formatted by [toFixed(2)]; each is a nearest
    hundredth of the exact quotient as long as the rounding of the two
    operations stays below half a unit of the quotient's denominator,
    which the bounds on [total] and [totalPrice] ensure; the oldest and
    newest update are reported as instants and as whole minutes before
    the next two clock readings, number [t] and [t + 1]. Otherwise:
    "0.00", "0.00" and four times "N/A". *)
Definition derived_from (clock : Clock) (t : nat) (s : Stats) (d : Derived)
  : Prop :=
  (0 < total s ->
     upToDatePercentage d =
       Js.toFixed2
         (Js.fmul (Js.fdiv (inject_Z (upToDate s)) (inject_Z (total s))) 100) /\
     avgPrice d =
       Js.toFixed2
         (Js.fdiv (Js.fdiv (inject_Z (totalPrice s)) (inject_Z (total s))) 100) /\
     (0 <= upToDate s <= total s -> total s < 2 ^ 32 ->
        2 * Z.abs (upToDatePercentage d * total s - 10000 * upToDate s)
          <= total s) /\
     (Z.abs (totalPrice s) < 2 ^ 50 ->
        2 * Z.abs (avgPrice d * total s - totalPrice s) <= total s) /\
     oldestUpdateTime d = Some (oldestUpdate s) /\
     newestUpdateTime d = Some (newestUpdate s) /\
     oldestUpdateMinutesAgo d =
       Some (Js.floor_div (clock t - oldestUpdate s) (60 * 1000)) /\
     newestUpdateMinutesAgo d =
       Some (Js.floor_div (clock (S t) - newestUpdate s) (60 * 1000))) /\
  (total s <= 0 ->
     d = {| upToDatePercentage := 0; avgPrice := 0;
            oldestUpdateTime := None; newestUpdateTime := None;
            oldestUpdateMinutesAgo := None; newestUpdateMinutesAgo := None |}).

(** ** Clocks and responses of the examples *)

(** A clock that advances by one millisecond at every reading. *)
Definition ticking (start : Z) : Clock := fun n => start + Z.of_nat n.

(** A clock that stops after eleven readings. *)
Definition stopping (start : Z) : Clock :=
  fun n => if (n <? 11)%nat then start + Z.of_nat n else 0.

(** A clock whose later readings are two minutes after the first. *)
Definition late (now : Z) : Clock :=
  fun n => match n with O => now | S _ => now + 2 * minute_ms end.

(** The invalid price of the example [widget]. *)
Definition youpin_invalid : Price := mkPrice (Some "youpin") None (Some t0).

(** An invalid price whose provider key is the empty string. *)
Definition unnamed_invalid : Price := mkPrice (Some "") None (Some t0).




(** A price dated one hour after every clock reading. *)
Definition from_the_future : list Item :=
  [ mkItem "Widget" None None
      (Some [ mkPrice (Some "steam") (Some 1000) (Some (t0 + hour_ms)) ]) ].

(** Two prices of one provider, 1.00 and 1.01 dollars. *)
Definition odd_cents : list Item :=
  [ mkItem "Widget" None None
      (Some [ mkPrice (Some "steam") (Some 100) (Some t0);
              mkPrice (Some "steam") (Some 101) (Some t0) ]) ].

(** An invalid price whose provider key is a name every plain object
    inherits. *)
Definition inherited_invalid : Price :=
  mkPrice (Some "constructor") None (Some t0).

(** ** Sums over the entries and the reasons for an entry *)





(** Every entry has counted at least one price, valid or invalid. *)
Definition reasoned (st : Agg) : Prop :=
  forall k s, lookup k (providerStats st) = Some s ->
    0 <= total s /\ 0 <= skippedCount s /\ 1 <= total s + skippedCount s.

(** The entry [k] exists. *)
Definition present (k : string) (st : Agg) : Prop :=
  lookup k (providerStats st) <> None.

(** ** The oldest and newest update as folds *)

(** The timestamps of the valid prices the entry [k] counts, in the order
    of the response. *)
Definition timestamps (k : string) (response : list Item) : list Z :=
  map v_updated_at (valid_for k response).

(** After the valid prices [seen]: [newestUpdate] is the greatest of 0 and
    the timestamps of the entry, [oldestUpdate] the least of them and of
    a clock reading made during the pass; a name without an entry has no
    valid price among [seen], unless the object inherits it. *)
Definition extremes (clock : Clock) (seen : list ValidPrice) (st : Agg) : Prop :=
  (1 <= ticks st)%nat /\
  forall k,
    match lookup k (providerStats st) with
    | Some s =>
        newestUpdate s =
          fold_left Z.max (map v_updated_at (filter (for_key k) seen)) 0 /\
        exists t, (1 <= t < ticks st)%nat /\
          oldestUpdate s =
            fold_left Z.min (map v_updated_at (filter (for_key k) seen)) (clock t)
    | None => Js.inherited k = false -> filter (for_key k) seen = []
    end.

(** ** The pass as a sequence of steps *)

(** One turn of the loop of line 51 or of the loop of line 101. *)
Inductive Step :=
| ValidStep (name : string) (v : ValidPrice)
| SkipStep (p : Price).

(** The turns an item gives rise to, and those of the response, in the
    order the pass makes them. *)
Definition steps_of (item : Item) : list Step :=
  map (ValidStep (market_hash_name item)) (validPrices (quotes item))
  ++ map SkipStep (quotes item).

Definition steps (response : list Item) : list Step :=
  flat_map steps_of response.

Definition step (clock : Clock) (oneHourAgo : Z) (st : Agg) (x : Step) : Agg :=
  match x with
  | ValidStep name v => valid_step clock oneHourAgo name st v
  | SkipStep p => skip_step clock st p
  end.

(** The entries, the records and the number of clock readings after the
    turns [l], from the start of the pass. *)
Definition run (clock : Clock) (l : list Step) : Agg :=
  fold_left (step clock (clock 0%nat - hour_ms)) l init_agg.

(** Two states with the same entries, records and clock readings; lines
    45-49 change none of these. *)
Definition same_store (st st' : Agg) : Prop :=
  providerStats st = providerStats st' /\
  outdatedPrices st = outdatedPrices st' /\
  ticks st = ticks st'.

(** The turn [x] concerns the entry [k]. *)
Definition touches (k : string) (x : Step) : bool :=
  match x with
  | ValidStep _ v => for_key k v
  | SkipStep p => skipped_for k p
  end.

(** The timestamps of the valid prices for the entry [k] among the turns
    [l]. *)
Definition stamps (k : string) (l : list Step) : list Z :=
  flat_map (fun x => match x with
                     | ValidStep _ v =>
                         if for_key k v then [v_updated_at v] else []
                     | SkipStep _ => []
                     end) l.

(** The clock is read once at line 25, once for each entry created and
    once for each outdated record. *)
Definition ticked (st : Agg) : Prop :=
  ticks st =
  (1 + List.length (providerStats st) + List.length (outdatedPrices st))%nat.

(** What holds of the entry [k] after the turns [l], [o] being
    [providerStats[k]] then: an entry was created at a turn [x], the
    first that concerns [k], and its [oldestUpdate] is the least of the
    clock reading made at that turn and of the timestamps counted since;
    a name without an entry is inherited or concerns no turn. *)
Definition created_at (clock : Clock) (l : list Step) (k : string)
  (o : option Stats) : Prop :=
  match o with
  | Some s =>
      exists before x after,
        l = before ++ x :: after /\
        touches k x = true /\
        Forall (fun y => touches k y = false) before /\
        lookup k (providerStats (run clock before)) = None /\
        oldestUpdate s =
          fold_left Z.min (stamps k l) (clock (ticks (run clock before)))
  | None =>
      Js.inherited k = true \/ Forall (fun y => touches k y = false) l
  end.

Definition created (clock : Clock) (l : list Step) : Prop :=
  forall k, created_at clock l k (lookup k (providerStats (run clock l))).

(** ** The outdated records in full *)

(** [r] is the record of the valid price [nv], stamped with a clock
    reading made after the first [lo] readings. *)
Definition recorded (clock : Clock) (lo : nat) (r : Outdated.t)
  (nv : string * ValidPrice) : Prop :=
  exists t, (lo <= t)%nat /\ r = stale_record (fst nv) (snd nv) (clock t).

(** The valid prices of the response that line 83 finds outdated. *)
Definition stale_prices (cut : Z) (response : list Item)
  : list (string * ValidPrice) :=
  filter (fun nv => negb (fresh_at cut nv)) (all_valid response).

(** ** Responses that differ in the order of their items *)

(** The fields of an entry that do not depend on the order of the items. *)
Definition same_counts (s s' : Stats) : Prop :=
  total s' = total s /\ upToDate s' = upToDate s /\
  totalPrice s' = totalPrice s /\ skippedCount s' = skippedCount s /\
  newestUpdate s' = newestUpdate s.

(** Two items, and the same two in the other order. *)
Definition two_items : list Item :=
  [ mkItem "Widget" None None
      (Some [ mkPrice (Some "steam") (Some 1000) (Some t0) ]);
    mkItem "Gadget" None None
      (Some [ mkPrice (Some "buff163") (Some 2000) (Some (t0 - 2 * hour_ms));
              mkPrice (Some "steam") None None ]) ].

Definition two_items_swapped : list Item :=
  [ mkItem "Gadget" None None
      (Some [ mkPrice (Some "buff163") (Some 2000) (Some (t0 - 2 * hour_ms));
              mkPrice (Some "steam") None None ]);
    mkItem "Widget" None None
      (Some [ mkPrice (Some "steam") (Some 1000) (Some t0) ]) ].

(** ** The sample *)

(** What holds of the loop of line 153 before its turn [i] on a response
    of [n] items: the items shown and the items left are the response,
    each item is shown as [show_item] prints it, one random number has
    been drawn per item shown, and the number shown is [i] or, once the
    guard of line 154 has failed, [(n + 1) / 2]. *)
Definition sampling (clock : Clock) (oneHourAgo : Z) (response : list Item)
  (start : nat) (i : nat) (st : Sampling) : Prop :=
  Permutation (map fst (sampled st) ++ remaining st) response /\
  Forall (fun e => exists t, snd e = fst (show_item clock oneHourAgo t (fst e)))
    (sampled st) /\
  draws st = List.length (sampled st) /\
  (start <= sample_ticks st)%nat /\
  len (sampled st) = Z.min (Z.of_nat i) ((len response + 1) / 2) /\
  len (remaining st) = len response - len (sampled st).

(** ** The lines of a sampled item *)

(** The mark of a line is the check mark. *)
Definition up_to_date_line (l : PriceLine) : bool :=
  match l with
  | ValidLine _ _ _ _ b => b
  | InvalidLine _ _ => false
  end.

Definition invalid_line (l : PriceLine) : bool :=
  match l with
  | InvalidLine _ _ => true
  | ValidLine _ _ _ _ _ => false
  end.

(** The line [l] is the line of the price [p]: an invalid price is
    reported to miss its timestamp when that is null and its price
    otherwise; a valid price is shown with its provider, its price to the
    cent, its timestamp and the mark of line 176. *)
Definition line_of (oneHourAgo : Z) (p : Price) (l : PriceLine) : Prop :=
  match updated_at p, price p with
  | None, _ => l = InvalidLine (provider_key p) MissingTimestamp
  | Some _, None => l = InvalidLine (provider_key p) MissingPrice
  | Some ts, Some c =>
      exists minutes,
        l = ValidLine (provider_key p) c ts minutes (is_fresh oneHourAgo ts)
  end.

(** ** The name of the written file (lines 285-289) *)

(** [s.replace(/:/g, "-")]. *)
Fixpoint colons_to_dashes (s : string) : string :=
  match s with
  | EmptyString => EmptyString
  | String c r =>
      String (if Ascii.eqb c ":" then "-"%char else c) (colons_to_dashes r)
  end.

(** The characters that [.] of a regular expression does not match, among
    the code units below 256. *)
Definition line_terminator (c : ascii) : bool :=
  Ascii.eqb c "010" || Ascii.eqb c "013".

(** The rest of [s] from its first line terminator on. *)
Fixpoint rest_of_line (s : string) : string :=
  match s with
  | EmptyString => EmptyString
  | String c r => if line_terminator c then s else rest_of_line r
  end.

(** [s.replace(/\..+/, "")]: the leftmost dot that a character other than
    a line terminator follows is removed together with the rest of its
    line. *)
Fixpoint cut_fraction (s : string) : string :=
  match s with
  | EmptyString => EmptyString
  | String c r =>
      if Ascii.eqb c "." &&
         match r with
         | String d _ => negb (line_terminator d)
         | EmptyString => false
         end
      then rest_of_line r
      else String c (cut_fraction r)
  end.

(** Lines 285-289, given the string [new Date().toISOString()] returns. *)
Definition file_name (iso : string) : string :=
  ("outdated_prices_" ++ cut_fraction (colons_to_dashes iso) ++ ".json")%string.

(** The character [c] occurs in [s]. *)
Fixpoint occurs (c : ascii) (s : string) : bool :=
  match s with
  | EmptyString => false
  | String d r => Ascii.eqb c d || occurs c r
  end.

(** No character of [s] is a line terminator. *)
Fixpoint one_line (s : string) : bool :=
  match s with
  | EmptyString => true
  | String d r => negb (line_terminator d) && one_line r
  end.

(** * Properties *)

(** ** The operations and the run on examples *)

Example keys_order :
  Js.keys [("steam", 1); ("7", 2); ("buff163", 3); ("10", 4); ("2", 5); ("02", 6)]
  = ["2"; "7"; "10"; "steam"; "buff163"; "02"].
Proof. reflexivity. Qed.

Example toFixed2_rounds :
  Js.toFixed2 (2 # 3) = 67 /\ Js.toFixed2 (1 # 8) = 13 /\
  Js.toFixed2 (- (1 # 8)) = -13 /\ Js.toFixed2 (inject_Z 1 / inject_Z 3 * 100) = 3333.
Proof. repeat split. Qed.

(** The double nearest to one tenth, and two quotients the program may
    meet: [201 / 2 / 100] is the double below 1.005 and prints "1.00";
    [23 / 160 * 100] is the double below 14.375 and prints "14.37",
    while [21 / 146 * 100] prints "14.38". *)
Example double_rounds :
  Qred (Js.double (1 # 10)) = 3602879701896397 # 36028797018963968 /\
  Qred (Js.double 9007199254740993) = 9007199254740992%Q /\
  Js.toFixed2 (Js.fdiv (Js.fdiv 201 2) 100) = 100 /\
  Js.toFixed2 (Js.fmul (Js.fdiv 23 160) 100) = 1437 /\
  Js.toFixed2 (Js.fmul (Js.fdiv 21 146) 100) = 1438 /\
  Js.toFixed2 (Js.fmul (Js.fdiv 1 3) 100) = 3333.
Proof. vm_compute; repeat split. Qed.

(** A provider key that a plain object inherits gets no entry: the two
    prices are counted globally, the stale one is recorded, and
    [providerStats] stays empty. *)
Example inherited_key_run :
  let st :=
    aggregate (fun _ => t0)
      [mkItem "Widget" None None
         (Some [mkPrice (Some "constructor") (Some 1000) (Some (t0 - 2 * hour_ms));
                inherited_invalid])] in
  totalPriceCount st = 1 /\ skippedPriceCount st = 1 /\
  upToDateCount st = 0 /\ providerStats st = [] /\
  map Outdated.provider (outdatedPrices st) = [Some "constructor"] /\
  ticks st = 2%nat.
Proof. vm_compute; repeat split. Qed.

(** One item "Widget" with a steam price 30 minutes old, a buff163 price
    90 minutes old and a youpin price without a price. *)
Example widget_run :
  let r := main (fun _ => t0) (widget t0) in
  totalPriceCount (agg r) = 2 /\ skippedPriceCount (agg r) = 1 /\
  upToDateCount (agg r) = 1 /\
  map (fun e => (fst e, total (snd e), upToDate (snd e), skippedCount (snd e)))
    (providerStats (agg r))
    = [("steam", 1, 1, 0); ("buff163", 1, 0, 0); ("youpin", 0, 0, 1)] /\
  outdatedPrices (agg r)
    = [Outdated.mk "Widget" (Some "buff163") (2000 # 100)
         (t0 - 90 * minute_ms) 90] /\
  option_map Ledger.total_outdated_prices (written r) = Some 1 /\
  bestProvider (ranking r) = "steam" /\ worstProvider (ranking r) = "buff163" /\
  percentage r = 5000 /\ quality r = Some 6667.
Proof. repeat split. Qed.

(** ** The association list *)

Lemma lookup_modify (k k' : string) (f : Stats -> Stats) o :
  lookup k' (modify k f o) =
  if (k' =? k)%string then option_map f (lookup k o) else lookup k' o.
Proof.
  induction o as [|[k0 s0] o IH]; simpl.
  - now destruct (k' =? k)%string.
  - destruct (k =? k0)%string eqn:E0; simpl.
    + apply String.eqb_eq in E0; subst k0.
      destruct (k' =? k)%string; reflexivity.
    + rewrite IH.
      destruct (k' =? k0)%string eqn:E1; try reflexivity.
      destruct (k' =? k)%string eqn:E2; try reflexivity.
      apply String.eqb_eq in E1, E2; subst.
      rewrite String.eqb_refl in E0; discriminate.
Qed.

Lemma lookup_app (k k' : string) (s : Stats) o :
  lookup k' (o ++ [(k, s)]) =
  match lookup k' o with
  | Some x => Some x
  | None => if (k' =? k)%string then Some s else None
  end.
Proof.
  induction o as [|[k0 s0] o IH]; simpl.
  - reflexivity.
  - destruct (k' =? k0)%string; [reflexivity | apply IH].
Qed.

Lemma modify_keys (k : string) (f : Stats -> Stats) o :
  map fst (modify k f o) = map fst o.
Proof.
  induction o as [|[k0 s0] o IH]; simpl; [reflexivity|].
  destruct (k =? k0)%string; simpl; [reflexivity | now rewrite IH].
Qed.

Lemma held_true k st : Js.inherited k = false -> held k st = true.
Proof. unfold held; intros ->; now destruct (lookup k (providerStats st)). Qed.

Lemma held_false k st :
  held k st = false ->
  lookup k (providerStats st) = None /\ Js.inherited k = true.
Proof.
  unfold held; destruct (lookup k (providerStats st)); [discriminate|].
  destruct (Js.inherited k); [auto | discriminate].
Qed.


Lemma ensure_lookup clock k st k' :
  lookup k' (providerStats (ensure clock k st)) =
  if (k' =? k)%string && held k st then Some (entry clock k st)
  else lookup k' (providerStats st).
Proof.
  unfold ensure, entry, held.
  destruct (lookup k (providerStats st)) eqn:E; simpl.
  - rewrite andb_true_r.
    destruct (k' =? k)%string eqn:E1; [|reflexivity].
    apply String.eqb_eq in E1; now subst.
  - destruct (Js.inherited k); simpl; [now rewrite andb_false_r|].
    rewrite andb_true_r, lookup_app.
    destruct (k' =? k)%string eqn:E1.
    + apply String.eqb_eq in E1; subst; now rewrite E.
    + now destruct (lookup k' (providerStats st)).
Qed.

Lemma ensure_frame clock k st :
  upToDateCount (ensure clock k st) = upToDateCount st /\
  totalPriceCount (ensure clock k st) = totalPriceCount st /\
  skippedPriceCount (ensure clock k st) = skippedPriceCount st /\
  outdatedPrices (ensure clock k st) = outdatedPrices st.
Proof.
  unfold ensure.
  destruct (lookup k (providerStats st)), (Js.inherited k); simpl; auto.
Qed.

(** The entry [k] after a step that updates [providerStats[k]] by [f]. *)
Lemma lookup_updated clock k f st k' :
  lookup k' (modify k f (providerStats (ensure clock k st))) =
  if (k' =? k)%string && held k st then Some (f (entry clock k st))
  else lookup k' (providerStats st).
Proof.
  rewrite lookup_modify, !ensure_lookup, String.eqb_refl.
  destruct (k' =? k)%string eqn:E; simpl; [|reflexivity].
  apply String.eqb_eq in E; subst k'.
  destruct (held k st) eqn:H; simpl; [reflexivity|].
  apply held_false in H as (-> & _); reflexivity.
Qed.

Lemma modify_modify k (f g : Stats -> Stats) o :
  modify k g (modify k f o) = modify k (fun s => g (f s)) o.
Proof.
  induction o as [|[k0 s0] o IH]; simpl; [reflexivity|].
  destruct (k =? k0)%string eqn:E; simpl; rewrite E; [reflexivity|].
  now rewrite IH.
Qed.

Lemma valid_step_stats clock cut name st v :
  providerStats (valid_step clock cut name st v) =
  modify (Js.to_key (v_provider_key v)) (touched cut v)
    (providerStats (ensure clock (Js.to_key (v_provider_key v)) st)).
Proof.
  unfold valid_step, touched.
  destruct (is_fresh cut (v_updated_at v)); simpl; [|reflexivity].
  apply modify_modify.
Qed.

Lemma valid_step_lookup clock cut name st v k' :
  lookup k' (providerStats (valid_step clock cut name st v)) =
  if (k' =? Js.to_key (v_provider_key v))%string
     && held (Js.to_key (v_provider_key v)) st
  then Some (touched cut v (entry clock (Js.to_key (v_provider_key v)) st))
  else lookup k' (providerStats st).
Proof. rewrite valid_step_stats; apply lookup_updated. Qed.

Lemma valid_step_outdated clock cut name st v :
  outdatedPrices (valid_step clock cut name st v) =
  outdatedPrices st ++
  (if is_fresh cut (v_updated_at v) then []
   else [stale_record name v
           (clock (ticks (ensure clock (Js.to_key (v_provider_key v)) st)))]).
Proof.
  unfold valid_step, stale_record.
  destruct (is_fresh cut (v_updated_at v)); simpl.
  - rewrite app_nil_r. apply ensure_frame.
  - f_equal. apply ensure_frame.
Qed.

Lemma valid_step_counts clock cut name st v :
  upToDateCount (valid_step clock cut name st v) =
    upToDateCount st + (if is_fresh cut (v_updated_at v) then 1 else 0) /\
  totalPriceCount (valid_step clock cut name st v) = totalPriceCount st /\
  skippedPriceCount (valid_step clock cut name st v) = skippedPriceCount st.
Proof.
  unfold valid_step.
  pose proof (ensure_frame clock (Js.to_key (v_provider_key v)) st)
    as (H1 & H2 & H3 & _).
  destruct (is_fresh cut (v_updated_at v)); simpl; rewrite H1, H2, H3;
    repeat split; lia.
Qed.

Lemma skip_step_lookup clock st p k' :
  lookup k' (providerStats (skip_step clock st p)) =
  if is_invalid p && Js.truthy (provider_key p)
     && ((k' =? Js.to_key (provider_key p))%string
         && held (Js.to_key (provider_key p)) st)
  then Some (inc_skipped (entry clock (Js.to_key (provider_key p)) st))
  else lookup k' (providerStats st).
Proof.
  unfold skip_step.
  destruct (is_invalid p && Js.truthy (provider_key p)); simpl; [|reflexivity].
  apply lookup_updated.
Qed.

Lemma skip_step_frame clock st p :
  upToDateCount (skip_step clock st p) = upToDateCount st /\
  totalPriceCount (skip_step clock st p) = totalPriceCount st /\
  skippedPriceCount (skip_step clock st p) = skippedPriceCount st /\
  outdatedPrices (skip_step clock st p) = outdatedPrices st.
Proof.
  unfold skip_step.
  destruct (is_invalid p && Js.truthy (provider_key p)); simpl; auto.
  apply ensure_frame.
Qed.

(** ** The loops *)

Lemma len_nil {A : Type} : len (@nil A) = 0.
Proof. reflexivity. Qed.

Lemma len_cons {A : Type} (x : A) l : len (x :: l) = len l + 1.
Proof. unfold len; simpl List.length; lia. Qed.

Lemma len_app {A : Type} (l l' : list A) : len (l ++ l') = len l + len l'.
Proof. unfold len; rewrite length_app; lia. Qed.

Lemma len_nonneg {A : Type} (l : list A) : 0 <= len l.
Proof. unfold len; lia. Qed.

Lemma len_map {A B : Type} (f : A -> B) l : len (map f l) = len l.
Proof. unfold len; now rewrite length_map. Qed.

Ltac len_simpl :=
  repeat (rewrite len_app || rewrite len_cons);
  repeat match goal with
         | |- context [@len ?A nil] => change (@len A nil) with 0
         end.

Lemma count_item_nil st : count_item [] st = st.
Proof.
  destruct st; unfold count_item; simpl.
  rewrite !len_nil; f_equal; lia.
Qed.

(** The guard of line 39 only skips items that would change nothing. *)
Lemma process_item_unfold clock cut st item :
  process_item clock cut st item =
  fold_left (skip_step clock) (quotes item)
    (fold_left (valid_step clock cut (market_hash_name item))
       (validPrices (quotes item)) (count_item (quotes item) st)).
Proof.
  unfold process_item, quotes.
  destruct (prices item) as [[|p ps]|].
  - simpl; now rewrite count_item_nil.
  - assert ((0 <? len (p :: ps)) = true) as ->; [|reflexivity].
    apply Z.ltb_lt; rewrite len_cons; pose proof (len_nonneg ps); lia.
  - simpl; now rewrite count_item_nil.
Qed.

Lemma fold_left_invariant {A B : Type} (P : A -> Prop) (Q : B -> Prop)
  (f : A -> B -> A) :
  (forall a b, Q b -> P a -> P (f a b)) ->
  forall l, Forall Q l -> forall a, P a -> P (fold_left f l a).
Proof.
  intros Hf l Hl; induction Hl as [|b l Hb _ IH]; simpl; auto.
Qed.

(** An invariant of the three kinds of update is an invariant of the
    whole pass. [Q] restricts the valid prices the response may hold. *)
Lemma pass_invariant (P : Agg -> Prop) (Q : ValidPrice -> Prop) clock cut :
  (forall st ps, P st -> P (count_item ps st)) ->
  (forall st name v, Q v -> P st -> P (valid_step clock cut name st v)) ->
  (forall st p, P st -> P (skip_step clock st p)) ->
  forall response,
    Forall (fun item => Forall Q (validPrices (quotes item))) response ->
    forall st, P st -> P (fold_left (process_item clock cut) response st).
Proof.
  intros Hc Hv Hs response HQ.
  apply fold_left_invariant with (Q := fun item => Forall Q (validPrices (quotes item)));
    [|exact HQ].
  intros st item Hitem Hst.
  rewrite process_item_unfold.
  apply fold_left_invariant with (Q := fun _ => True);
    [auto | apply Forall_forall; auto |].
  apply fold_left_invariant with (Q := Q); auto.
Qed.

Lemma all_true {A : Type} (l : list A) : Forall (fun _ => True) l.
Proof. apply Forall_forall; auto. Qed.

(** ** Counter conservation *)

Lemma stale_count_app k out out' :
  stale_count k (out ++ out') = stale_count k out + stale_count k out'.
Proof. unfold stale_count; now rewrite filter_app, len_app. Qed.

Lemma stale_count_nonneg k out : 0 <= stale_count k out.
Proof. apply len_nonneg. Qed.

Lemma valid_fold_counts clock cut name vs : forall st,
  let st' := fold_left (valid_step clock cut name) vs st in
  upToDateCount st' + len (outdatedPrices st') =
    upToDateCount st + len (outdatedPrices st) + len vs /\
  totalPriceCount st' = totalPriceCount st /\
  skippedPriceCount st' = skippedPriceCount st.
Proof.
  induction vs as [|v vs IH]; intros st; simpl.
  - rewrite len_nil; repeat split; lia.
  - destruct (IH (valid_step clock cut name st v)) as (H1 & H2 & H3).
    destruct (valid_step_counts clock cut name st v) as (G1 & G2 & G3).
    rewrite H1, H2, H3, G1, G2, G3, valid_step_outdated, len_app.
    destruct (is_fresh cut (v_updated_at v));
      unfold len in *; simpl List.length; repeat split; lia.
Qed.

Lemma skip_fold_frame clock ps : forall st,
  let st' := fold_left (skip_step clock) ps st in
  upToDateCount st' = upToDateCount st /\
  totalPriceCount st' = totalPriceCount st /\
  skippedPriceCount st' = skippedPriceCount st /\
  outdatedPrices st' = outdatedPrices st.
Proof.
  induction ps as [|p ps IH]; intros st; simpl; auto.
  destruct (IH (skip_step clock st p)) as (H1 & H2 & H3 & H4).
  destruct (skip_step_frame clock st p) as (G1 & G2 & G3 & G4).
  rewrite H1, H2, H3, H4; auto.
Qed.

Lemma process_item_counts clock cut st item :
  let st' := process_item clock cut st item in
  totalPriceCount st' + skippedPriceCount st' =
    totalPriceCount st + skippedPriceCount st + len (quotes item) /\
  upToDateCount st' + len (outdatedPrices st') - totalPriceCount st' =
    upToDateCount st + len (outdatedPrices st) - totalPriceCount st.
Proof.
  simpl; rewrite process_item_unfold.
  match goal with |- context [fold_left (skip_step clock) ?ps ?s] =>
    destruct (skip_fold_frame clock ps s) as (H1 & H2 & H3 & H4) end.
  rewrite H1, H2, H3, H4.
  match goal with |- context [fold_left (valid_step clock cut ?n) ?vs ?s] =>
    destruct (valid_fold_counts clock cut n vs s) as (G1 & G2 & G3) end.
  rewrite G1, G2, G3; simpl; split; lia.
Qed.

Lemma pass_counts clock cut response : forall st,
  let st' := fold_left (process_item clock cut) response st in
  totalPriceCount st' + skippedPriceCount st' =
    totalPriceCount st + skippedPriceCount st + len (flat_map quotes response) /\
  upToDateCount st' + len (outdatedPrices st') - totalPriceCount st' =
    upToDateCount st + len (outdatedPrices st) - totalPriceCount st.
Proof.
  induction response as [|item response IH]; intros st; simpl.
  - rewrite len_nil; split; lia.
  - destruct (IH (process_item clock cut st item)) as (H1 & H2).
    destruct (process_item_counts clock cut st item) as (G1 & G2).
    rewrite len_app; split; lia.
Qed.

Lemma balanced_entry clock k st :
  balanced st -> held k st = true ->
  upToDate (entry clock k st) + stale_count k (outdatedPrices st)
    = total (entry clock k st) /\
  0 <= upToDate (entry clock k st).
Proof.
  intros H; specialize (H k); unfold entry, held.
  destruct (lookup k (providerStats st)); simpl; [intros _; exact H|].
  intros Hk; apply negb_true_iff in Hk; rewrite (H Hk); lia.
Qed.

Lemma balanced_valid_step clock cut name st v :
  balanced st -> balanced (valid_step clock cut name st v).
Proof.
  intros H k.
  rewrite valid_step_lookup, valid_step_outdated, stale_count_app.
  destruct (k =? Js.to_key (v_provider_key v))%string eqn:E; cbn [andb].
  - apply String.eqb_eq in E; subst k.
    destruct (held (Js.to_key (v_provider_key v)) st) eqn:Hh.
    + destruct (balanced_entry clock (Js.to_key (v_provider_key v)) st H Hh)
        as (B1 & B2).
      unfold touched, stale_count at 2.
      destruct (is_fresh cut (v_updated_at v)); simpl;
        rewrite ?String.eqb_refl, ?len_cons, ?len_nil; lia.
    + apply held_false in Hh as (-> & Hi).
      intros Hn; congruence.
  - specialize (H k).
    assert (stale_count k
              (if is_fresh cut (v_updated_at v) then []
               else [stale_record name v
                       (clock (ticks (ensure clock (Js.to_key (v_provider_key v)) st)))])
            = 0) as Z0.
    { unfold stale_count.
      destruct (is_fresh cut (v_updated_at v)); simpl; [reflexivity|].
      rewrite String.eqb_sym, E; reflexivity. }
    rewrite Z0.
    destruct (lookup k (providerStats st)); [lia|].
    intros Hn; rewrite (H Hn); lia.
Qed.

Lemma balanced_skip_step clock st p :
  balanced st -> balanced (skip_step clock st p).
Proof.
  intros H k.
  rewrite skip_step_lookup.
  destruct (skip_step_frame clock st p) as (_ & _ & _ & ->).
  destruct (is_invalid p && Js.truthy (provider_key p)
            && ((k =? Js.to_key (provider_key p))%string
                && held (Js.to_key (provider_key p)) st)) eqn:E.
  - apply andb_true_iff in E as (_ & E).
    apply andb_true_iff in E as (E & Hh).
    apply String.eqb_eq in E; subst k.
    apply (balanced_entry clock _ st H Hh).
  - apply H.
Qed.

Lemma balanced_aggregate clock response : balanced (aggregate clock response).
Proof.
  unfold aggregate.
  apply pass_invariant with (Q := fun _ => True).
  - intros st ps H; exact H.
  - intros st name v _; apply balanced_valid_step.
  - intros st p; apply balanced_skip_step.
  - apply Forall_forall; intros; apply all_true.
  - intros k; simpl; split.
Qed.

(** ** What the pass computes *)

Lemma valid_fold_class clock cut name vs : forall st,
  let st' := fold_left (valid_step clock cut name) vs st in
  upToDateCount st' =
    upToDateCount st + len (filter (fresh_at cut) (map (pair name) vs)) /\
  map core (outdatedPrices st') =
    map core (outdatedPrices st) ++
    map core_of (filter (fun nv => negb (fresh_at cut nv)) (map (pair name) vs)).
Proof.
  induction vs as [|v vs IH]; intros st; simpl.
  - rewrite len_nil, app_nil_r; split; [lia | reflexivity].
  - destruct (IH (valid_step clock cut name st v)) as (H1 & H2).
    destruct (valid_step_counts clock cut name st v) as (G1 & _).
    rewrite H1, H2, G1, valid_step_outdated, map_app.
    simpl.
    change (fresh_at cut (name, v)) with (is_fresh cut (v_updated_at v)).
    destruct (is_fresh cut (v_updated_at v)); simpl.
    + rewrite len_cons, app_nil_r; split; [lia | reflexivity].
    + rewrite <- app_assoc; split; [lia | reflexivity].
Qed.

Lemma pass_class clock cut response : forall st,
  let st' := fold_left (process_item clock cut) response st in
  upToDateCount st' =
    upToDateCount st + len (filter (fresh_at cut) (all_valid response)) /\
  map core (outdatedPrices st') =
    map core (outdatedPrices st) ++
    map core_of (filter (fun nv => negb (fresh_at cut nv)) (all_valid response)).
Proof.
  induction response as [|item response IH]; intros st; simpl.
  - rewrite len_nil, app_nil_r; split; [lia | reflexivity].
  - destruct (IH (process_item clock cut st item)) as (H1 & H2).
    rewrite H1, H2, process_item_unfold.
    match goal with |- context [fold_left (skip_step clock) ?ps ?s] =>
      destruct (skip_fold_frame clock ps s) as (F1 & _ & _ & F4) end.
    rewrite F1, F4.
    match goal with |- context [fold_left (valid_step clock cut ?n) ?vs ?s] =>
      destruct (valid_fold_class clock cut n vs s) as (G1 & G2) end.
    rewrite G1, G2; simpl.
    rewrite !filter_app, len_app, map_app, <- app_assoc; split; [lia | reflexivity].
Qed.

(** ** The run as a whole *)

Lemma main_agg clock response : agg (main clock response) = aggregate clock response.
Proof.
  unfold main.
  destruct (derive_all _ _ _) as [ds t1], (save_outdated _ _ _) as [f t2].
  reflexivity.
Qed.

Lemma main_providers clock response :
  let st := aggregate clock response in
  providers (main clock response) =
  fst (derive_all clock (Js.entries (providerStats st)) (ticks st)).
Proof.
  unfold main.
  destruct (derive_all _ _ _) as [ds t1], (save_outdated _ _ _) as [f t2].
  reflexivity.
Qed.

Lemma main_ranking clock response :
  ranking (main clock response) = rank (providers (main clock response)).
Proof.
  unfold main.
  destruct (derive_all _ _ _) as [ds t1], (save_outdated _ _ _) as [f t2].
  reflexivity.
Qed.

Lemma main_written clock response :
  let st := aggregate clock response in
  written (main clock response) =
  fst (save_outdated clock
         (snd (derive_all clock (Js.entries (providerStats st)) (ticks st)))
         (outdatedPrices st)).
Proof.
  unfold main.
  destruct (derive_all _ _ _) as [ds t1], (save_outdated _ _ _) as [f t2].
  reflexivity.
Qed.

(** ** Minutes since update of an outdated record *)

Lemma stale_minutes (now0 now ts : Z) :
  now0 <= now -> is_fresh (now0 - hour_ms) ts = false ->
  60 <= Js.floor_div (now - ts) (60 * 1000).
Proof.
  unfold is_fresh, hour_ms, Js.floor_div; intros Hnow Hts.
  apply Z.leb_gt in Hts.
  apply Z.div_le_lower_bound; lia.
Qed.

Lemma minutes_ok_valid_step clock name st v :
  (forall n, clock 0%nat <= clock n) ->
  minutes_ok st ->
  minutes_ok (valid_step clock (clock 0%nat - hour_ms) name st v).
Proof.
  unfold minutes_ok; intros Hmono H.
  rewrite valid_step_outdated.
  apply Forall_app; split; [exact H|].
  destruct (is_fresh (clock 0%nat - hour_ms) (v_updated_at v)) eqn:E;
    [constructor|].
  constructor; [|constructor].
  apply stale_minutes with (now0 := clock 0%nat); auto.
Qed.

Lemma minutes_ok_skip_step clock st p :
  minutes_ok st -> minutes_ok (skip_step clock st p).
Proof.
  unfold minutes_ok.
  now destruct (skip_step_frame clock st p) as (_ & _ & _ & ->).
Qed.

(** ** Oldest and newest update of a provider *)

Lemma lookup_None k o : lookup k o = None <-> ~ In k (map fst o).
Proof.
  induction o as [|[k0 s0] o IH]; simpl.
  - tauto.
  - destruct (k =? k0)%string eqn:E.
    + apply String.eqb_eq in E; subst; split; [discriminate | tauto].
    + apply String.eqb_neq in E; rewrite IH; split; intros H; [|tauto].
      intros [G|G]; [congruence | tauto].
Qed.

Lemma lookup_In k s o :
  NoDup (map fst o) -> In (k, s) o -> lookup k o = Some s.
Proof.
  induction o as [|[k0 s0] o IH]; simpl; [tauto|].
  intros Hnd [H|H]; inversion Hnd; subst.
  - inversion H; subst; now rewrite String.eqb_refl.
  - destruct (k =? k0)%string eqn:E; [|auto].
    apply String.eqb_eq in E; subst.
    exfalso; apply H2; apply in_map with (f := fst) in H; exact H.
Qed.

Lemma In_lookup k s o : lookup k o = Some s -> In (k, s) o.
Proof.
  induction o as [|[k0 s0] o IH]; simpl; [discriminate|].
  destruct (k =? k0)%string eqn:E; [|auto].
  apply String.eqb_eq in E; subst; intros [= ->]; auto.
Qed.

Lemma distinct_ensure clock k st : distinct st -> distinct (ensure clock k st).
Proof.
  unfold distinct, ensure; intros H.
  destruct (lookup k (providerStats st)) eqn:E; simpl; [exact H|].
  destruct (Js.inherited k); simpl; [exact H|].
  rewrite map_app; simpl.
  apply lookup_None in E.
  apply NoDup_rev in H.
  rewrite <- (rev_involutive (map fst (providerStats st) ++ [k])).
  apply NoDup_rev; rewrite rev_app_distr; simpl.
  constructor; [|exact H].
  now rewrite <- in_rev.
Qed.

Lemma distinct_aggregate clock response : distinct (aggregate clock response).
Proof.
  unfold aggregate.
  apply pass_invariant with (Q := fun _ => True).
  - intros st ps H; exact H.
  - intros st name v _ H; unfold distinct, valid_step.
    apply (distinct_ensure clock (Js.to_key (v_provider_key v))) in H.
    unfold distinct in H.
    destruct (is_fresh _ _); simpl; now rewrite ?modify_keys.
  - intros st p H; unfold distinct, skip_step.
    destruct (is_invalid p && Js.truthy (provider_key p)); [|exact H].
    simpl; rewrite modify_keys.
    now apply distinct_ensure.
  - apply Forall_forall; intros; apply all_true.
  - constructor.
Qed.

Lemma touched_spec cut v s :
  let s' := touched cut v s in
  total s' = total s + 1 /\
  totalPrice s' = totalPrice s + v_price v /\
  upToDate s' = upToDate s + (if is_fresh cut (v_updated_at v) then 1 else 0) /\
  skippedCount s' = skippedCount s /\
  oldestUpdate s' = Z.min (v_updated_at v) (oldestUpdate s) /\
  newestUpdate s' = Z.max (v_updated_at v) (newestUpdate s).
Proof.
  unfold touched, track, add_price, inc_upToDate.
  destruct (is_fresh cut (v_updated_at v)); simpl;
    destruct (Z.ltb_spec (v_updated_at v) (oldestUpdate s));
    destruct (Z.ltb_spec (newestUpdate s) (v_updated_at v));
    repeat split; lia.
Qed.

Ltac step_entry k :=
  match goal with
  | |- context [(k =? ?key)%string && held ?key ?st] =>
      let E := fresh "E" in
      let Hh := fresh "Hh" in
      destruct ((k =? key)%string && held key st) eqn:E;
      [apply andb_true_iff in E as (E & Hh); apply String.eqb_eq in E|]
  end.

Lemma own_names_valid_step clock cut name st v :
  own_names st -> own_names (valid_step clock cut name st v).
Proof.
  intros H k s; rewrite valid_step_lookup.
  step_entry k; [|apply H].
  intros _; subst k; unfold held in Hh.
  destruct (lookup (Js.to_key (v_provider_key v)) (providerStats st)) eqn:L.
  - apply (H _ _ L).
  - now apply negb_true_iff.
Qed.

Lemma own_names_skip_step clock st p :
  own_names st -> own_names (skip_step clock st p).
Proof.
  intros H k s; rewrite skip_step_lookup.
  destruct (is_invalid p && Js.truthy (provider_key p)); cbn [andb]; [|apply H].
  step_entry k; [|apply H].
  intros _; subst k; unfold held in Hh.
  destruct (lookup (Js.to_key (provider_key p)) (providerStats st)) eqn:L.
  - apply (H _ _ L).
  - now apply negb_true_iff.
Qed.

Lemma own_names_aggregate clock response : own_names (aggregate clock response).
Proof.
  unfold aggregate.
  apply pass_invariant with (Q := fun _ => True).
  - intros st ps H; exact H.
  - intros st name v _; apply own_names_valid_step.
  - intros st p; apply own_names_skip_step.
  - apply Forall_forall; intros; apply all_true.
  - intros k s; discriminate.
Qed.

Lemma ordered_entry clock k st :
  ordered st -> 0 <= total (entry clock k st).
Proof.
  intros H; unfold entry.
  destruct (lookup k (providerStats st)) eqn:E; simpl; [apply (H k s E) | lia].
Qed.

Lemma ordered_valid_step clock cut name st v :
  ordered st -> ordered (valid_step clock cut name st v).
Proof.
  intros H k s; rewrite valid_step_lookup.
  step_entry k; [|apply H].
  intros [= <-].
  pose proof (ordered_entry clock (Js.to_key (v_provider_key v)) st H).
  destruct (touched_spec cut v (entry clock (Js.to_key (v_provider_key v)) st))
    as (T1 & _ & _ & _ & T5 & T6).
  rewrite T1, T5, T6; lia.
Qed.

Lemma ordered_skip_step clock st p :
  ordered st -> ordered (skip_step clock st p).
Proof.
  intros H k s; rewrite skip_step_lookup.
  destruct (_ && _); [|apply H].
  intros [= <-]; unfold entry.
  destruct (lookup (Js.to_key (provider_key p)) (providerStats st)) eqn:E; simpl.
  - apply (H _ _ E).
  - lia.
Qed.

Lemma bounded_valid_step now clock cut name st v :
  0 <= now -> v_updated_at v <= now ->
  bounded now st -> bounded now (valid_step clock cut name st v).
Proof.
  intros Hnow Hv H k s; rewrite valid_step_lookup.
  step_entry k; [|apply H].
  intros [= <-].
  destruct (touched_spec cut v (entry clock (Js.to_key (v_provider_key v)) st))
    as (_ & _ & _ & _ & _ & T6).
  rewrite T6; unfold entry.
  destruct (lookup (Js.to_key (v_provider_key v)) (providerStats st)) eqn:L; simpl.
  - specialize (H _ _ L); lia.
  - lia.
Qed.

Lemma bounded_skip_step now clock st p :
  0 <= now -> bounded now st -> bounded now (skip_step clock st p).
Proof.
  intros Hnow H k s; rewrite skip_step_lookup.
  destruct (_ && _); [|apply H].
  intros [= <-]; unfold entry.
  destruct (lookup (Js.to_key (provider_key p)) (providerStats st)) eqn:E; simpl.
  - apply (H _ _ E).
  - exact Hnow.
Qed.

Lemma covers_valid_step_here clock cut name st v :
  Js.inherited (Js.to_key (v_provider_key v)) = false ->
  covers (Js.to_key (v_provider_key v)) (v_updated_at v)
    (valid_step clock cut name st v).
Proof.
  intros Hk; unfold covers.
  rewrite valid_step_lookup, String.eqb_refl, (held_true _ st Hk).
  eexists; split; [reflexivity|].
  destruct (touched_spec cut v (entry clock (Js.to_key (v_provider_key v)) st))
    as (_ & _ & _ & _ & T5 & T6).
  rewrite T5, T6; lia.
Qed.

Lemma covers_valid_step k a clock cut name st v :
  covers k a st -> covers k a (valid_step clock cut name st v).
Proof.
  intros (s & Hs & Ha); unfold covers; rewrite valid_step_lookup.
  step_entry k; [|eauto].
  subst k.
  eexists; split; [reflexivity|].
  destruct (touched_spec cut v (entry clock (Js.to_key (v_provider_key v)) st))
    as (_ & _ & _ & _ & T5 & T6).
  rewrite T5, T6; unfold entry; rewrite Hs; lia.
Qed.

Lemma covers_skip_step k a clock st p :
  covers k a st -> covers k a (skip_step clock st p).
Proof.
  intros (s & Hs & Ha); unfold covers; rewrite skip_step_lookup.
  destruct (is_invalid p && Js.truthy (provider_key p)); cbn [andb]; [|eauto].
  step_entry k; [|eauto].
  subst k.
  eexists; split; [reflexivity|].
  unfold entry; rewrite Hs; exact Ha.
Qed.

Lemma fold_left_establish {A B : Type} (P : A -> Prop) (f : A -> B -> A) (x : B) :
  (forall a, P (f a x)) ->
  (forall a b, P a -> P (f a b)) ->
  forall l, In x l -> forall a, P (fold_left f l a).
Proof.
  intros Hx Hf l; induction l as [|b l IH]; simpl; [tauto|].
  intros [->|H] a; [|auto].
  apply fold_left_invariant with (Q := fun _ => True); auto using all_true.
Qed.

Lemma covers_process_item k a clock cut st item :
  covers k a st -> covers k a (process_item clock cut st item).
Proof.
  intros H; rewrite process_item_unfold.
  apply fold_left_invariant with (Q := fun _ => True);
    auto using all_true, covers_skip_step.
  apply fold_left_invariant with (Q := fun _ => True);
    auto using all_true, covers_valid_step.
Qed.

Lemma covers_aggregate clock response name v :
  Js.inherited (Js.to_key (v_provider_key v)) = false ->
  In (name, v) (all_valid response) ->
  covers (Js.to_key (v_provider_key v)) (v_updated_at v)
    (aggregate clock response).
Proof.
  intros Hown.
  unfold all_valid; rewrite in_flat_map; intros (item & Hitem & Hv).
  apply in_map_iff in Hv as (v' & [= _ ->] & Hv).
  unfold aggregate.
  apply fold_left_establish with (x := item);
    auto using covers_process_item.
  intros st; rewrite process_item_unfold.
  apply fold_left_invariant with (Q := fun _ => True);
    auto using all_true, covers_skip_step.
  apply fold_left_establish with (x := v);
    auto using covers_valid_step, covers_valid_step_here.
Qed.

Lemma valid_everywhere (Q : ValidPrice -> Prop) response :
  Forall (fun nv => Q (snd nv)) (all_valid response) ->
  Forall (fun item => Forall Q (validPrices (quotes item))) response.
Proof.
  rewrite !Forall_forall; intros H item Hitem.
  apply Forall_forall; intros v Hv.
  apply (H (market_hash_name item, v)).
  unfold all_valid; apply in_flat_map; exists item; split; [exact Hitem|].
  now apply in_map.
Qed.

Lemma ordered_aggregate clock response : ordered (aggregate clock response).
Proof.
  unfold aggregate.
  apply pass_invariant with (Q := fun _ => True).
  - intros st ps H; exact H.
  - intros st name v _; apply ordered_valid_step.
  - intros st p; apply ordered_skip_step.
  - apply Forall_forall; intros; apply all_true.
  - intros k s; discriminate.
Qed.

(** ** The counters of an entry as sums over the response *)

Lemma sum_cons x l : sum (x :: l) = x + sum l.
Proof. reflexivity. Qed.

Lemma sum_app l l' : sum (l ++ l') = sum l + sum l'.
Proof.
  induction l as [|x l IH]; [reflexivity|].
  simpl app; rewrite !sum_cons, IH; lia.
Qed.

Section Tally.

(** A field [m] of the entries to which a valid price [v] adds [w v] and
    a charged invalid price adds [ws], followed for an entry [k] whose
    name the object does not inherit. *)
Variables (m : Stats -> Z) (w : ValidPrice -> Z) (ws : Z) (cut : Z).
Hypothesis m_new : forall now, m (new_stats now) = 0.
Hypothesis m_touched : forall v s, m (touched cut v s) = m s + w v.
Hypothesis m_skipped : forall s, m (inc_skipped s) = m s + ws.
Variable k : string.
Hypothesis k_own : Js.inherited k = false.

Lemma tally_entry clock st : m (entry clock k st) = tally m k st.
Proof.
  unfold entry, tally.
  destruct (lookup k (providerStats st)); [reflexivity | apply m_new].
Qed.

Lemma tally_valid_step clock name st v :
  tally m k (valid_step clock cut name st v) =
  tally m k st + sum (map w (filter (for_key k) [v])).
Proof.
  unfold tally at 1; rewrite valid_step_lookup; simpl; unfold for_key.
  destruct (String.eqb_spec k (Js.to_key (v_provider_key v))) as [E|E].
  - rewrite <- E, String.eqb_refl, (held_true k st k_own); simpl.
    rewrite m_touched, tally_entry; lia.
  - apply not_eq_sym, String.eqb_neq in E; rewrite E; simpl.
    unfold tally; lia.
Qed.

Lemma tally_skip_step clock st p :
  tally m k (skip_step clock st p) =
  tally m k st + ws * len (filter (skipped_for k) [p]).
Proof.
  unfold tally at 1; rewrite skip_step_lookup; simpl; unfold skipped_for.
  destruct (is_invalid p && Js.truthy (provider_key p)); simpl;
    [|unfold tally; rewrite (@len_nil Price); lia].
  destruct (String.eqb_spec k (Js.to_key (provider_key p))) as [E|E].
  - rewrite <- E, String.eqb_refl, (held_true k st k_own); simpl.
    rewrite m_skipped, tally_entry, len_cons, (@len_nil Price); lia.
  - apply not_eq_sym, String.eqb_neq in E; rewrite E.
    unfold tally; cbn [andb]; rewrite (@len_nil Price); lia.
Qed.

Lemma tally_valid_fold clock name vs : forall st,
  tally m k (fold_left (valid_step clock cut name) vs st) =
  tally m k st + sum (map w (filter (for_key k) vs)).
Proof.
  induction vs as [|v vs IH]; intros st; simpl fold_left.
  - simpl; lia.
  - rewrite IH, tally_valid_step.
    change (v :: vs) with ([v] ++ vs).
    rewrite filter_app, map_app, sum_app; lia.
Qed.

Lemma tally_skip_fold clock ps : forall st,
  tally m k (fold_left (skip_step clock) ps st) =
  tally m k st + ws * len (filter (skipped_for k) ps).
Proof.
  induction ps as [|p ps IH]; intros st; simpl fold_left.
  - simpl; rewrite (@len_nil Price); lia.
  - rewrite IH, tally_skip_step.
    change (p :: ps) with ([p] ++ ps).
    rewrite (filter_app _ [p] ps), len_app; ring.
Qed.

Lemma tally_pass clock response : forall st,
  tally m k (fold_left (process_item clock cut) response st) =
  tally m k st
  + sum (map w (filter (for_key k) (map snd (all_valid response))))
  + ws * len (filter (skipped_for k) (flat_map quotes response)).
Proof.
  induction response as [|item response IH]; intros st; simpl fold_left.
  - simpl; rewrite (@len_nil Price); lia.
  - rewrite IH, process_item_unfold, tally_skip_fold, tally_valid_fold.
    simpl.
    rewrite !map_app, !filter_app, map_app, sum_app, len_app, map_map.
    simpl; rewrite map_id.
    unfold tally, count_item; simpl; ring.
Qed.

End Tally.

Lemma sum_ones {A : Type} (l : list A) : sum (map (fun _ => 1) l) = len l.
Proof.
  induction l as [|x l IH]; [reflexivity|].
  simpl map; rewrite sum_cons, IH, len_cons; lia.
Qed.

Lemma sum_indicator {A : Type} (f : A -> bool) (l : list A) :
  sum (map (fun x => if f x then 1 else 0) l) = len (filter f l).
Proof.
  induction l as [|x l IH]; [reflexivity|].
  simpl map; simpl filter; rewrite sum_cons, IH.
  destruct (f x); rewrite ?len_cons; lia.
Qed.

Lemma sum_zeros {A : Type} (l : list A) : sum (map (fun _ => 0) l) = 0.
Proof.
  induction l as [|x l IH]; [reflexivity|].
  simpl map; rewrite sum_cons, IH; lia.
Qed.

(** Every field of a provider's entry, except the two timestamps, as a
    function of the response and of the cutoff. *)
Lemma provider_tallies clock response k s :
  lookup k (providerStats (aggregate clock response)) = Some s ->
  total s = len (valid_for k response) /\
  upToDate s =
    len (filter (fun v => is_fresh (clock 0%nat - hour_ms) (v_updated_at v))
           (valid_for k response)) /\
  totalPrice s = sum (map v_price (valid_for k response)) /\
  skippedCount s = len (filter (skipped_for k) (flat_map quotes response)).
Proof.
  intros Hk; unfold valid_for.
  set (cut := clock 0%nat - hour_ms).
  assert (forall m w ws,
    (forall now, m (new_stats now) = 0) ->
    (forall v s, m (touched cut v s) = m s + w v) ->
    (forall s, m (inc_skipped s) = m s + ws) ->
    m s = sum (map w (filter (for_key k) (map snd (all_valid response))))
          + ws * len (filter (skipped_for k) (flat_map quotes response))) as T.
  { intros m w ws H1 H2 H3.
    pose proof (tally_pass m w ws cut H1 H2 H3 k
                  (own_names_aggregate clock response k s Hk)
                  clock response init_agg) as T.
    change (fold_left (process_item clock cut) response init_agg)
      with (aggregate clock response) in T.
    unfold tally in T; rewrite Hk in T; simpl in T; exact T. }
  repeat split.
  - rewrite (T total (fun _ => 1) 0), sum_ones; try reflexivity; [lia| |].
    + intros v s0; apply touched_spec.
    + intros s0; simpl; lia.
  - rewrite (T upToDate (fun v => if is_fresh cut (v_updated_at v) then 1 else 0) 0),
      sum_indicator; try reflexivity; [lia| |].
    + intros v s0; apply touched_spec.
    + intros s0; simpl; lia.
  - rewrite (T totalPrice v_price 0); try reflexivity; [lia| |].
    + intros v s0; apply touched_spec.
    + intros s0; simpl; lia.
  - rewrite (T skippedCount (fun _ => 0) 1), sum_zeros; try reflexivity; [lia|].
    intros v s0.
    destruct (touched_spec cut v s0) as (_ & _ & _ & -> & _); lia.
Qed.

(** ** [Object.keys] *)

Lemma insert_index_In {A : Type} (x y : Z * A) l :
  In x (Js.insert_index y l) <-> x = y \/ In x l.
Proof.
  induction l as [|h l IH]; simpl.
  - intuition congruence.
  - destruct (fst y <? fst h); simpl; rewrite ?IH; intuition congruence.
Qed.

Lemma sorted_In {A : Type} (x : Z * A) l :
  In x (fold_right Js.insert_index [] l) <-> In x l.
Proof.
  induction l as [|h l IH]; simpl; [tauto|].
  rewrite insert_index_In, IH; intuition congruence.
Qed.

Lemma index_entries_In {A : Type} (x : Z * (string * A)) o :
  In x (Js.index_entries o) <->
  In (snd x) o /\ Js.array_index (fst (snd x)) = Some (fst x).
Proof.
  unfold Js.index_entries; rewrite in_flat_map; split.
  - intros (e & He & Hx).
    destruct (Js.array_index (fst e)) eqn:E; simpl in Hx; [|tauto].
    destruct Hx as [<-|[]]; simpl; auto.
  - intros (He & Hx); exists (snd x); split; [exact He|].
    rewrite Hx; left; now destruct x.
Qed.

(** [Object.keys] enumerates every own property, and nothing else. *)
Lemma entries_In {A : Type} (e : string * A) o :
  In e (Js.entries o) <-> In e o.
Proof.
  unfold Js.entries; rewrite in_app_iff, in_map_iff, filter_In; split.
  - intros [((n, e') & <- & H)|[H _]]; [|exact H].
    apply sorted_In, index_entries_In in H; apply H.
  - intros H; unfold Js.is_name.
    destruct (Js.array_index (fst e)) as [n|] eqn:E; [left | right; auto].
    exists (n, e); split; [reflexivity|].
    apply sorted_In, index_entries_In; auto.
Qed.


(** ** The derived fields *)

Lemma derive_all_keys clock es : forall t,
  map (fun e => (fst (fst e), snd (fst e))) (fst (derive_all clock es t)) = es.
Proof.
  induction es as [|[k s] es IH]; intros t; simpl; [reflexivity|].
  destruct (derive_stats clock t s) as [d t1].
  specialize (IH t1); destruct (derive_all clock es t1) as [ds t2]; simpl in *.
  now rewrite IH.
Qed.

Lemma derive_all_In clock es k s d : forall t,
  In (k, s, d) (fst (derive_all clock es t)) ->
  In (k, s) es /\ exists t', d = fst (derive_stats clock t' s).
Proof.
  induction es as [|[k0 s0] es IH]; intros t; simpl; [tauto|].
  destruct (derive_stats clock t s0) as [d0 t1] eqn:E.
  specialize (IH t1); destruct (derive_all clock es t1) as [ds t2]; simpl in *.
  intros [[= -> -> ->]|H].
  - split; [auto|]; exists t; now rewrite E.
  - destruct (IH H) as (H1 & H2); auto.
Qed.

(** The entries [main] reports are the entries of [providerStats], each
    with the fields derived from it. *)
Lemma providers_In clock response k s d :
  In (k, s, d) (providers (main clock response)) ->
  lookup k (providerStats (aggregate clock response)) = Some s /\
  exists t, d = fst (derive_stats clock t s).
Proof.
  rewrite main_providers; intros H.
  apply derive_all_In in H as (H1 & H2); split; [|exact H2].
  apply lookup_In; [apply distinct_aggregate|].
  now apply entries_In.
Qed.


(** ** The ranking *)

Lemma first_max_bound ds e e' :
  first_max ds e -> In e' ds -> eligible e' -> pct e' <= pct e.
Proof.
  intros (l1 & l2 & -> & _ & H1 & H2) Hin He.
  apply in_app_iff in Hin as [H|[<-|H]]; [|lia|auto].
  specialize (H1 _ H He); lia.
Qed.

Lemma first_min_bound ds e e' :
  first_min ds e -> In e' ds -> eligible e' -> pct e <= pct e'.
Proof.
  intros (l1 & l2 & -> & _ & H1 & H2) Hin He.
  apply in_app_iff in Hin as [H|[<-|H]]; [|lia|auto].
  specialize (H1 _ H He); lia.
Qed.

Lemma first_max_keep ds e x :
  first_max ds e -> (eligible x -> pct x <= pct e) -> first_max (ds ++ [x]) e.
Proof.
  intros (l1 & l2 & -> & He & H1 & H2) Hx.
  exists l1, (l2 ++ [x]); repeat split; auto.
  - now rewrite <- app_assoc.
  - intros e' Hin; apply in_app_iff in Hin as [H|[<-|[]]]; auto.
Qed.

Lemma first_min_keep ds e x :
  first_min ds e -> (eligible x -> pct e <= pct x) -> first_min (ds ++ [x]) e.
Proof.
  intros (l1 & l2 & -> & He & H1 & H2) Hx.
  exists l1, (l2 ++ [x]); repeat split; auto.
  - now rewrite <- app_assoc.
  - intros e' Hin; apply in_app_iff in Hin as [H|[<-|[]]]; auto.
Qed.

Lemma first_max_new ds x :
  eligible x -> (forall e', In e' ds -> eligible e' -> pct e' < pct x) ->
  first_max (ds ++ [x]) x.
Proof.
  intros Hx H; exists ds, []; repeat split; auto.
  intros e' [].
Qed.

Lemma first_min_new ds x :
  eligible x -> (forall e', In e' ds -> eligible e' -> pct x < pct e') ->
  first_min (ds ++ [x]) x.
Proof.
  intros Hx H; exists ds, []; repeat split; auto.
  intros e' [].
Qed.

Lemma rank_step_skip r k s d :
  total s <= 0 -> rank_step r (k, s, d) = r.
Proof.
  intros H; unfold rank_step.
  destruct (Z.ltb_spec 0 (total s)); [lia | reflexivity].
Qed.

Lemma rank_step_ranked ds r x :
  in_range x -> ranked ds r -> ranked (ds ++ [x]) (rank_step r x).
Proof.
  destruct x as [[k s] d]; intros Hr H.
  destruct (Z_lt_le_dec 0 (total s)) as [Hs|Hs].
  - (* an entry with prices competes for both places *)
    assert (eligible (k, s, d)) as He by exact Hs.
    specialize (Hr He).
    right; unfold rank_step.
    destruct (Z.ltb_spec 0 (total s)) as [_|]; [|lia].
    destruct H as [(Hnone & ->)|(eb & ew & Hb & Hw & ->)]; simpl.
    + unfold pct in Hr; simpl in Hr.
      destruct (Z.ltb_spec (-100) (upToDatePercentage d)); [|lia]; simpl.
      destruct (Z.ltb_spec (upToDatePercentage d) 10100); [|lia].
      exists (k, s, d), (k, s, d); repeat split.
      * apply first_max_new; auto; intros e' H1 H2; now destruct (Hnone e' H1).
      * apply first_min_new; auto; intros e' H1 H2; now destruct (Hnone e' H1).
    + destruct (Z.ltb_spec (pct eb) (upToDatePercentage d)) as [Hgt|Hle]; simpl;
        destruct (Z.ltb_spec (upToDatePercentage d) (pct ew)) as [Hlt|Hge].
      * exists (k, s, d), (k, s, d); repeat split.
        -- apply first_max_new; auto; intros e' H1 H2.
           pose proof (first_max_bound _ _ _ Hb H1 H2); unfold pct at 2; simpl; lia.
        -- apply first_min_new; auto; intros e' H1 H2.
           pose proof (first_min_bound _ _ _ Hw H1 H2); unfold pct at 1; simpl; lia.
      * exists (k, s, d), ew; repeat split.
        -- apply first_max_new; auto; intros e' H1 H2.
           pose proof (first_max_bound _ _ _ Hb H1 H2); unfold pct at 2; simpl; lia.
        -- apply first_min_keep; auto.
      * exists eb, (k, s, d); repeat split.
        -- apply first_max_keep; auto.
        -- apply first_min_new; auto; intros e' H1 H2.
           pose proof (first_min_bound _ _ _ Hw H1 H2); unfold pct at 1; simpl; lia.
      * exists eb, ew; repeat split.
        -- apply first_max_keep; auto.
        -- apply first_min_keep; auto.
  - (* an entry without prices is passed over *)
    rewrite rank_step_skip by exact Hs.
    assert (~ eligible (k, s, d)) as Hn by (unfold eligible; simpl; lia).
    destruct H as [(Hnone & ->)|(eb & ew & Hb & Hw & ->)]; [left | right].
    + split; [|reflexivity].
      intros e' Hin; apply in_app_iff in Hin as [H|[<-|[]]]; auto.
    + exists eb, ew; repeat split.
      * apply first_max_keep; auto; intros H; now destruct Hn.
      * apply first_min_keep; auto; intros H; now destruct Hn.
Qed.

Lemma rank_ranked ds : Forall in_range ds -> ranked ds (rank ds).
Proof.
  unfold rank.
  induction ds as [|x ds IH] using rev_ind; intros H.
  - left; split; [intros e [] | reflexivity].
  - apply Forall_app in H as (H1 & H2).
    rewrite fold_left_app; simpl.
    apply rank_step_ranked; [now inversion H2 | auto].
Qed.


(** Entries without prices do not take part. *)
Lemma rank_filter ds :
  rank ds = rank (filter (fun e => 0 <? total (snd (fst e))) ds).
Proof.
  unfold rank; generalize rank_init.
  induction ds as [|[[k s] d] ds IH]; intros r; [reflexivity|].
  cbn [filter fst snd].
  destruct (Z.ltb_spec 0 (total s)) as [H|H]; cbn [fold_left].
  - apply IH.
  - rewrite rank_step_skip by exact H; apply IH.
Qed.

(** ** Two-decimal rounding *)

(** [toFixed(2)] returns a nearest hundredth. *)
Lemma toFixed2_nearest (x : Q) :
  2 * Z.abs (Js.toFixed2 x * Zpos (Qden x) - 100 * Qnum x) <= Zpos (Qden x).
Proof.
  unfold Js.toFixed2.
  set (d := Zpos (Qden x)); set (a := Z.abs (Qnum x)).
  assert (0 < d) as Hd by (unfold d; lia).
  assert (0 <= a) as Ha by (unfold a; lia).
  pose proof (Z.mul_div_le (2 * (100 * a) + d) (2 * d) ltac:(lia)) as H1.
  pose proof (Z.mul_succ_div_gt (2 * (100 * a) + d) (2 * d) ltac:(lia)) as H2.
  set (q := (2 * (100 * a) + d) / (2 * d)) in *.
  destruct (Z.sgn_spec (Qnum x)) as [(Hn & ->)|[(Hn & ->)|(Hn & ->)]].
  - replace (Qnum x) with a by (unfold a; lia); nia.
  - rewrite <- Hn in *; replace a with 0 in * by (unfold a; lia); nia.
  - replace (Qnum x) with (- a) by (unfold a; lia); nia.
Qed.

(** The same in [Q]. *)
Lemma toFixed2_near (x : Q) :
  (Qabs (inject_Z (Js.toFixed2 x) - 100 * x) <= 1 # 2)%Q.
Proof.
  pose proof (toFixed2_nearest x) as H.
  set (n := Js.toFixed2 x) in *.
  destruct x as [p d]; cbn [Qnum Qden] in H.
  apply Qabs_Qle_condition.
  unfold Qle, Qminus, Qplus, Qmult, Qopp, inject_Z; cbn [Qnum Qden].
  split; lia.
Qed.

(** ** Doubles *)

Lemma round_half_even_near (y : Q) :
  (Qabs (inject_Z (Js.round_half_even y) - y) <= 1 # 2)%Q.
Proof.
  unfold Js.round_half_even.
  pose proof (Qfloor_le y) as H1.
  pose proof (Qlt_floor y) as H2.
  rewrite inject_Z_plus in H2; change (inject_Z 1) with 1%Q in H2.
  apply Qabs_Qle_condition.
  destruct (Qcompare (y - inject_Z (Qfloor y)) (1 # 2)) eqn:E.
  - apply Qeq_alt in E.
    destruct (Z.even (Qfloor y)); rewrite ?inject_Z_plus;
      change (inject_Z 1) with 1%Q; lra.
  - apply Qlt_alt in E; lra.
  - apply Qgt_alt in E; rewrite inject_Z_plus; change (inject_Z 1) with 1%Q; lra.
Qed.

Lemma pow2_pos (e : Z) : (0 < 2 ^ e)%Q.
Proof. apply Qpower_0_lt; reflexivity. Qed.

Lemma pow2_inject (n : Z) : 0 <= n -> (inject_Z (2 ^ n) == 2 ^ n)%Q.
Proof. intros H; now rewrite Zpower_Qpower. Qed.

Lemma Z_Qle (a b : Z) : a <= b -> (inject_Z a <= inject_Z b)%Q.
Proof. unfold Qle, inject_Z; cbn [Qnum Qden]; lia. Qed.

Lemma Z_Qlt (a b : Z) : a < b -> (inject_Z a < inject_Z b)%Q.
Proof. unfold Qlt, inject_Z; cbn [Qnum Qden]; lia. Qed.

Lemma Qlt_Z (a b : Z) : (inject_Z a < inject_Z b)%Q -> a < b.
Proof. unfold Qlt, inject_Z; cbn [Qnum Qden]; lia. Qed.

Ltac push_inject :=
  unfold Z.sub;
  repeat (rewrite inject_Z_plus || rewrite inject_Z_mult || rewrite inject_Z_opp).

(** The exponent is not too large: [2 ^ exponent a <= a]. *)
Lemma exponent_le (a : Q) : (0 < a)%Q -> (2 ^ Js.exponent a <= a)%Q.
Proof.
  intros Ha; unfold Js.exponent.
  set (p := Qnum a); set (q := Zpos (Qden a)).
  destruct (Qle_bool (2 ^ (Z.log2 p - Z.log2 q)) a) eqn:E.
  - now apply Qle_bool_iff.
  - clear E.
    assert (0 < p) as Hp
      by (destruct a as [n d]; unfold Qlt in Ha; simpl in *; unfold p; simpl; lia).
    assert (0 < q) as Hq by (unfold q; lia).
    destruct (Z.log2_spec p Hp) as (P1 & _).
    destruct (Z.log2_spec q Hq) as (_ & Q2).
    pose proof (Z.log2_nonneg p) as Lp.
    pose proof (Z.log2_nonneg q) as Lq.
    pose proof (Z.pow_pos_nonneg 2 (Z.succ (Z.log2 q)) ltac:(lia) ltac:(lia)) as B0.
    pose proof (Z.pow_pos_nonneg 2 (Z.log2 p) ltac:(lia) ltac:(lia)) as A0.
    replace (Z.log2 p - Z.log2 q - 1) with (Z.log2 p - Z.succ (Z.log2 q)) by lia.
    rewrite Qpower_minus by discriminate.
    rewrite <- !pow2_inject by lia.
    assert (a == inject_Z p / inject_Z q)%Q as ->.
    { destruct a as [n d]; unfold p, q; simpl.
      rewrite (Qmake_Qdiv n d); reflexivity. }
    pose proof (Z_Qlt _ _ Hq) as Hq'.
    pose proof (Z_Qlt _ _ B0) as H2'.
    pose proof (Z_Qle _ _ P1) as HP.
    pose proof (Z_Qle _ _ (Z.lt_le_incl _ _ Q2)) as HQ.
    pose proof (Z_Qle _ _ (Z.lt_le_incl _ _ A0)) as HP0.
    change (inject_Z 0) with 0%Q in *.
    set (A := inject_Z (2 ^ Z.log2 p)) in *.
    set (B := inject_Z (2 ^ Z.succ (Z.log2 q))) in *.
    set (P := inject_Z p) in *. set (Qq := inject_Z q) in *.
    apply Qle_shift_div_l; [exact Hq'|].
    assert (0 <= A / B)%Q as C0 by (apply Qle_shift_div_l; [exact H2' | lra]).
    assert (A / B * B == A)%Q as C1 by (field; lra).
    set (c := (A / B)%Q) in *.
    nra.
Qed.

(** And it is not too small: [a < 2 ^ (exponent a + 1)]. *)
Lemma exponent_lt (a : Q) : (0 < a)%Q -> (a < 2 ^ (Js.exponent a + 1))%Q.
Proof.
  intros Ha; unfold Js.exponent.
  set (p := Qnum a); set (q := Zpos (Qden a)).
  destruct (Qle_bool (2 ^ (Z.log2 p - Z.log2 q)) a) eqn:E.
  - clear E.
    assert (0 < p) as Hp
      by (destruct a as [n d]; unfold Qlt in Ha; simpl in *; unfold p; simpl; lia).
    assert (0 < q) as Hq by (unfold q; lia).
    destruct (Z.log2_spec p Hp) as (_ & P2).
    destruct (Z.log2_spec q Hq) as (Q1 & _).
    pose proof (Z.log2_nonneg p) as Lp.
    pose proof (Z.log2_nonneg q) as Lq.
    pose proof (Z.pow_pos_nonneg 2 (Z.log2 q) ltac:(lia) ltac:(lia)) as B0.
    replace (Z.log2 p - Z.log2 q + 1) with (Z.succ (Z.log2 p) - Z.log2 q) by lia.
    rewrite Qpower_minus by discriminate.
    rewrite <- !pow2_inject by lia.
    assert (a == inject_Z p / inject_Z q)%Q as ->.
    { destruct a as [n d]; unfold p, q; simpl.
      rewrite (Qmake_Qdiv n d); reflexivity. }
    pose proof (Z_Qlt _ _ Hq) as Hq'.
    pose proof (Z_Qlt _ _ B0) as H2'.
    pose proof (Z_Qlt _ _ P2) as HP.
    pose proof (Z_Qle _ _ Q1) as HQ.
    pose proof (Z_Qlt _ _ Hp) as HP0.
    change (inject_Z 0) with 0%Q in *.
    set (A := inject_Z (2 ^ Z.succ (Z.log2 p))) in *.
    set (B := inject_Z (2 ^ Z.log2 q)) in *.
    set (P := inject_Z p) in *. set (Qq := inject_Z q) in *.
    apply Qlt_shift_div_r; [exact Hq'|].
    assert (0 < A / B)%Q as C0 by (apply Qlt_shift_div_l; [exact H2' | lra]).
    assert (A / B * B == A)%Q as C1 by (field; lra).
    set (c := (A / B)%Q) in *.
    nra.
  - replace (Z.log2 p - Z.log2 q - 1 + 1) with (Z.log2 p - Z.log2 q) by lia.
    apply Qnot_le_lt; intros H; apply Qle_bool_iff in H; congruence.
Qed.

Lemma round_half_even_floor (y : Q) :
  Qfloor y <= Js.round_half_even y <= Qfloor y + 1.
Proof.
  unfold Js.round_half_even.
  destruct (Qcompare _ _); [destruct (Z.even _)| |]; lia.
Qed.

(** The significand of a double has 53 bits. *)
Lemma double_significand (a : Q) :
  (0 < a)%Q ->
  2 ^ 52 <= Js.round_half_even (a / 2 ^ (Js.exponent a - 52)) <= 2 ^ 53.
Proof.
  intros Ha.
  pose proof (exponent_le a Ha) as H1.
  pose proof (exponent_lt a Ha) as H2.
  set (e := Js.exponent a - 52).
  replace (Js.exponent a) with (e + 52) in H1 by (unfold e; lia).
  replace (Js.exponent a + 1) with (e + 53) in H2 by (unfold e; lia).
  rewrite Qpower_plus in H1, H2 by discriminate.
  change (2 ^ 52)%Q with (inject_Z (2 ^ 52)) in H1.
  change (2 ^ 53)%Q with (inject_Z (2 ^ 53)) in H2.
  pose proof (pow2_pos e) as HP.
  set (P := (2 ^ e)%Q) in *.
  assert (inject_Z (2 ^ 52) <= a / P)%Q as L by (apply Qle_shift_div_l; lra).
  assert (a / P < inject_Z (2 ^ 53))%Q as U by (apply Qlt_shift_div_r; lra).
  pose proof (round_half_even_floor (a / P)) as (F1 & F2).
  apply Qfloor_resp_le in L; rewrite Qfloor_Z in L.
  assert (Qfloor (a / P) < 2 ^ 53) as U'.
  { apply Qlt_Z. eapply Qle_lt_trans; [apply Qfloor_le | exact U]. }
  lia.
Qed.

Lemma double_error_pos (a : Q) :
  (0 < a)%Q ->
  let e := Js.exponent a - 52 in
  (Qabs (inject_Z (Js.round_half_even (a / 2 ^ e)) * 2 ^ e - a)
   <= a * (1 # 9007199254740992))%Q.
Proof.
  intros Ha e.
  pose proof (pow2_pos e) as HP.
  pose proof (exponent_le a Ha) as HE.
  replace (Js.exponent a) with (e + 52) in HE by (unfold e; lia).
  rewrite Qpower_plus in HE by discriminate.
  change (2 ^ 52)%Q with 4503599627370496%Q in HE.
  pose proof (round_half_even_near (a / 2 ^ e)) as HR.
  apply Qabs_Qle_condition in HR.
  assert (a / 2 ^ e * 2 ^ e == a)%Q as HY by (field; lra).
  set (P := (2 ^ e)%Q) in *.
  set (y := (a / P)%Q) in *.
  set (M := inject_Z (Js.round_half_even y)) in *.
  apply Qabs_Qle_condition.
  split; nra.
Qed.

(** A double is within half a unit in the last place of the exact
    result: the relative error of an operation is at most [2^-53]. *)
Lemma double_error (x : Q) :
  (Qabs (Js.double x - x) <= Qabs x * (1 # 9007199254740992))%Q.
Proof.
  unfold Js.double.
  destruct x as [[|n|n] d].
  - unfold Qle; simpl; lia.
  - change (Qeq_bool (Z.pos n # d) 0) with false; cbv iota.
    change (Qabs (Z.pos n # d)) with (Z.pos n # d).
    change (Z.sgn (Qnum (Z.pos n # d))) with 1.
    rewrite Z.mul_1_l.
    apply double_error_pos; reflexivity.
  - change (Qeq_bool (Z.neg n # d) 0) with false; cbv iota.
    change (Qabs (Z.neg n # d)) with (Z.pos n # d).
    change (Z.sgn (Qnum (Z.neg n # d))) with (-1).
    pose proof (double_error_pos (Z.pos n # d) eq_refl) as H; cbv zeta in H.
    set (e := Js.exponent (Z.pos n # d) - 52) in *.
    set (m := Js.round_half_even ((Z.pos n # d) / 2 ^ e)) in *.
    replace (-1 * m) with (- m) by lia.
    rewrite inject_Z_opp.
    assert ((Z.neg n # d) == - (Z.pos n # d))%Q as E by reflexivity.
    apply Qabs_Qle_condition in H; apply Qabs_Qle_condition.
    rewrite E.
    set (a := Z.pos n # d) in *.
    set (P := (2 ^ e)%Q) in *. set (M := inject_Z m) in *.
    lra.
Qed.

Lemma double_bounds (x : Q) :
  (0 <= x)%Q ->
  (x - x * (1 # 9007199254740992) <= Js.double x
   <= x + x * (1 # 9007199254740992))%Q.
Proof.
  intros H; pose proof (double_error x) as E.
  rewrite (Qabs_pos x H) in E.
  apply Qabs_Qle_condition in E; lra.
Qed.

Lemma double_bounds_abs (x : Q) :
  (x - Qabs x * (1 # 9007199254740992) <= Js.double x
   <= x + Qabs x * (1 # 9007199254740992))%Q.
Proof.
  pose proof (double_error x) as E.
  apply Qabs_Qle_condition in E; lra.
Qed.

(** ** The two-decimal percentages and averages *)

(** [(u / t * 100).toFixed(2)] for counts [0 <= u <= t]: between 0.00 and
    100.00, and a nearest hundredth of the exact percentage when [t] is
    below [2^32]. *)
Lemma percentage_value (u t : Z) :
  0 <= u <= t -> 0 < t ->
  let n := Js.toFixed2 (Js.fmul (Js.fdiv (inject_Z u) (inject_Z t)) 100) in
  (0 <= n <= 10000) /\
  (t < 2 ^ 32 -> 2 * Z.abs (n * t - 10000 * u) <= t).
Proof.
  intros Hu Ht n.
  pose proof (Z_Qle _ _ (proj1 Hu)) as U0.
  pose proof (Z_Qle _ _ (proj2 Hu)) as UT.
  pose proof (Z_Qlt _ _ Ht) as T0.
  change (inject_Z 0) with 0%Q in U0, T0.
  set (U := inject_Z u) in *; set (T := inject_Z t) in *.
  assert (U / T * T == U)%Q as HX by (field; lra).
  assert (0 <= U / T)%Q as X0 by (apply Qle_shift_div_l; lra).
  assert (U / T <= 1)%Q as X1 by (apply Qle_shift_div_r; lra).
  unfold Js.fmul, Js.fdiv in n.
  set (x := (U / T)%Q) in *.
  pose proof (double_bounds x X0) as (Q1 & Q2).
  set (q := Js.double x) in *.
  assert (0 <= q * 100)%Q as Y0 by lra.
  pose proof (double_bounds (q * 100) Y0) as (D1 & D2).
  set (d := Js.double (q * 100)) in *.
  pose proof (toFixed2_near d) as HN; apply Qabs_Qle_condition in HN.
  fold n in HN; set (N := inject_Z n) in *.
  assert (-1 < N)%Q as N0 by lra.
  assert (N < 10001)%Q as N1 by lra.
  split.
  - split.
    + apply (Qlt_Z (-1) n) in N0; lia.
    + apply (Qlt_Z n 10001) in N1; lia.
  - intros Hsmall.
    pose proof (Z_Qlt _ _ Hsmall) as TS; fold T in TS.
    change (inject_Z (2 ^ 32)) with 4294967296%Q in TS.
    assert (2 * N * T - 20000 * U - T < 1)%Q as G1 by nra.
    assert (- (2 * N * T - 20000 * U) - T < 1)%Q as G2 by nra.
    assert (2 * n * t - 20000 * u - t < 1) as Z1.
    { apply Qlt_Z; push_inject; exact G1. }
    assert (- (2 * n * t - 20000 * u) - t < 1) as Z2.
    { apply Qlt_Z; push_inject; exact G2. }
    lia.
Qed.

(** [(c / t / 100).toFixed(2)] for a sum [c] of cents below [2^50] in
    magnitude: a nearest hundredth of the exact average in dollars. *)
Lemma average_value (c t : Z) :
  0 < t -> Z.abs c < 2 ^ 50 ->
  let n := Js.toFixed2 (Js.fdiv (Js.fdiv (inject_Z c) (inject_Z t)) 100) in
  2 * Z.abs (n * t - c) <= t.
Proof.
  intros Ht Hc n.
  pose proof (Z_Qlt _ _ Ht) as T0.
  change (inject_Z 0) with 0%Q in T0.
  assert (- 1125899906842624 < inject_Z c < 1125899906842624)%Q as (C1 & C2).
  { split; [apply (Z_Qlt (- 2 ^ 50) c) | apply (Z_Qlt c (2 ^ 50))]; lia. }
  set (C := inject_Z c) in *; set (T := inject_Z t) in *.
  assert (C / T * T == C)%Q as HX by (field; lra).
  unfold Js.fdiv in n.
  set (x := (C / T)%Q) in *.
  pose proof (double_bounds_abs x) as (Q1 & Q2).
  set (q := Js.double x) in *.
  pose proof (double_bounds_abs (q / 100)) as (D1 & D2).
  set (d := Js.double (q / 100)) in *.
  pose proof (toFixed2_near d) as HN; apply Qabs_Qle_condition in HN.
  fold n in HN; set (N := inject_Z n) in *.
  assert (Qabs x * T < 1125899906842624)%Q as AX.
  { apply Qabs_case; intros; nra. }
  assert (0 <= Qabs x)%Q as A0 by apply Qabs_nonneg.
  assert (Qabs (q / 100) <= Qabs x * (1 # 99))%Q as AQ.
  { apply Qabs_Qle_condition.
    assert (q / 100 == q * (1 # 100))%Q as -> by (field; lra).
    revert Q1 Q2; apply (Qabs_case x); intros; lra. }
  set (ax := Qabs x) in *. set (aq := Qabs (q / 100)) in *.
  assert (q / 100 == q * (1 # 100))%Q as EQ by (field; lra).
  assert (2 * N * T - 2 * C - T < 1)%Q as G1 by nra.
  assert (- (2 * N * T - 2 * C) - T < 1)%Q as G2 by nra.
  assert (2 * n * t - 2 * c - t < 1) as Z1.
  { apply Qlt_Z; push_inject; exact G1. }
  assert (- (2 * n * t - 2 * c) - t < 1) as Z2.
  { apply Qlt_Z; push_inject; exact G2. }
  lia.
Qed.

(** [(c / 100).toFixed(2)] is the amount [c] to the cent: the double
    nearest to [c / 100] is too close to it to format otherwise. *)
Lemma cents_as_double (c : Z) :
  Z.abs c < 2 ^ 52 -> Js.toFixed2 (Js.fdiv (inject_Z c) 100) = c.
Proof.
  intros Hc; set (n := Js.toFixed2 _).
  assert (- 4503599627370495 <= inject_Z c <= 4503599627370495)%Q as (C1 & C2).
  { split; [apply (Z_Qle (- (2 ^ 52 - 1)) c) | apply (Z_Qle c (2 ^ 52 - 1))]; lia. }
  unfold Js.fdiv in n.
  pose proof (double_bounds_abs (inject_Z c / 100)) as (D1 & D2).
  set (d := Js.double (inject_Z c / 100)) in *.
  pose proof (toFixed2_near d) as HN; apply Qabs_Qle_condition in HN.
  fold n in HN.
  assert (inject_Z c / 100 == inject_Z c * (1 # 100))%Q as EQ by (field; lra).
  assert (Qabs (inject_Z c / 100) <= 4503599627370495 # 100)%Q as AQ.
  { apply Qabs_Qle_condition; rewrite EQ; lra. }
  set (C := inject_Z c) in *; set (N := inject_Z n) in *.
  set (a := Qabs (C / 100)) in *.
  assert (N - C < 1)%Q as G1 by lra.
  assert (C - N < 1)%Q as G2 by lra.
  assert (n - c < 1) as Z1 by (apply Qlt_Z; push_inject; exact G1).
  assert (c - n < 1) as Z2 by (apply Qlt_Z; push_inject; exact G2).
  lia.
Qed.

Lemma percentage_range (u t : Z) :
  0 <= u <= t -> 0 < t ->
  0 <= Js.toFixed2 (Js.fmul (Js.fdiv (inject_Z u) (inject_Z t)) 100) <= 10000.
Proof. intros Hu Ht; apply (percentage_value u t Hu Ht). Qed.

Lemma percentage_rounded (u t : Z) :
  0 <= u <= t -> 0 < t < 2 ^ 32 ->
  2 * Z.abs (Js.toFixed2 (Js.fmul (Js.fdiv (inject_Z u) (inject_Z t)) 100) * t
             - 10000 * u) <= t.
Proof. intros Hu (Ht & Hs); apply (percentage_value u t Hu Ht), Hs. Qed.

Lemma derive_stats_pct clock t s :
  0 < total s ->
  upToDatePercentage (fst (derive_stats clock t s)) =
  Js.toFixed2 (Js.fmul (Js.fdiv (inject_Z (upToDate s)) (inject_Z (total s))) 100).
Proof.
  intros H; unfold derive_stats.
  destruct (Z.ltb_spec 0 (total s)); [reflexivity | lia].
Qed.

Lemma providers_in_range clock response :
  Forall in_range (providers (main clock response)).
Proof.
  apply Forall_forall; intros [[k s] d] Hin He.
  unfold eligible in He; simpl in He.
  apply providers_In in Hin as (Hk & t & ->).
  unfold pct; simpl; rewrite derive_stats_pct by exact He.
  pose proof (balanced_aggregate clock response k) as B; rewrite Hk in B.
  pose proof (stale_count_nonneg k (outdatedPrices (aggregate clock response))).
  pose proof (percentage_range (upToDate s) (total s)); lia.
Qed.

(** ** The run as a function of the clock readings *)

Lemma agree_le c1 c2 t t' : (t' <= t)%nat -> agree c1 c2 t -> agree c1 c2 t'.
Proof. intros Hle H n Hn; apply H; lia. Qed.

Lemma ensure_ticks c k st : (ticks st <= ticks (ensure c k st))%nat.
Proof.
  unfold ensure.
  destruct (lookup k (providerStats st)), (Js.inherited k); simpl; lia.
Qed.

Lemma ensure_agree c1 c2 k st :
  agree c1 c2 (ticks (ensure c1 k st)) -> ensure c1 k st = ensure c2 k st.
Proof.
  unfold ensure; destruct (lookup k (providerStats st)); simpl; [reflexivity|].
  destruct (Js.inherited k); simpl; [reflexivity|].
  intros H; rewrite (H (ticks st)) by lia; reflexivity.
Qed.

Lemma valid_step_ticks c cut name st v :
  (ticks st <= ticks (valid_step c cut name st v))%nat.
Proof.
  unfold valid_step.
  pose proof (ensure_ticks c (Js.to_key (v_provider_key v)) st).
  destruct (is_fresh cut (v_updated_at v)); simpl; lia.
Qed.

Lemma valid_step_agree cut name c1 c2 st v :
  agree c1 c2 (ticks (valid_step c1 cut name st v)) ->
  valid_step c1 cut name st v = valid_step c2 cut name st v.
Proof.
  unfold valid_step.
  pose proof (ensure_ticks c1 (Js.to_key (v_provider_key v)) st) as Ht.
  destruct (is_fresh cut (v_updated_at v)); simpl; intros H.
  - rewrite (ensure_agree c1 c2) by exact H; reflexivity.
  - rewrite (H (ticks (ensure c1 (Js.to_key (v_provider_key v)) st))) by lia.
    rewrite (ensure_agree c1 c2)
      by (apply (agree_le _ _ _ _ (Nat.le_succ_diag_r _) H)).
    reflexivity.
Qed.

Lemma skip_step_ticks c st p : (ticks st <= ticks (skip_step c st p))%nat.
Proof.
  unfold skip_step.
  destruct (is_invalid p && Js.truthy (provider_key p)); simpl; [|lia].
  apply ensure_ticks.
Qed.

Lemma skip_step_agree c1 c2 st p :
  agree c1 c2 (ticks (skip_step c1 st p)) -> skip_step c1 st p = skip_step c2 st p.
Proof.
  unfold skip_step.
  destruct (is_invalid p && Js.truthy (provider_key p)); simpl; [|reflexivity].
  intros H; rewrite (ensure_agree c1 c2) by exact H; reflexivity.
Qed.

Section FoldClock.

Context {B : Type} (f : Clock -> Agg -> B -> Agg).
Hypothesis f_ticks : forall c st b, (ticks st <= ticks (f c st b))%nat.
Hypothesis f_agree : forall c1 c2 st b,
  agree c1 c2 (ticks (f c1 st b)) -> f c1 st b = f c2 st b.

Lemma fold_ticks c l : forall st, (ticks st <= ticks (fold_left (f c) l st))%nat.
Proof.
  induction l as [|b l IH]; intros st; simpl; [lia|].
  specialize (IH (f c st b)); specialize (f_ticks c st b); lia.
Qed.

Lemma fold_agree c1 c2 l : forall st,
  agree c1 c2 (ticks (fold_left (f c1) l st)) ->
  fold_left (f c1) l st = fold_left (f c2) l st.
Proof.
  induction l as [|b l IH]; intros st H; simpl in *; [reflexivity|].
  rewrite <- (f_agree c1 c2 st b).
  - apply IH, H.
  - apply (agree_le _ _ _ _ (fold_ticks c1 l (f c1 st b)) H).
Qed.

End FoldClock.

Lemma process_item_ticks cut c st item :
  (ticks st <= ticks (process_item c cut st item))%nat.
Proof.
  rewrite process_item_unfold.
  etransitivity; [|apply (fold_ticks skip_step skip_step_ticks)].
  etransitivity;
    [|apply (fold_ticks (fun c => valid_step c cut (market_hash_name item))
               (fun c => valid_step_ticks c cut (market_hash_name item)))].
  unfold count_item; simpl; lia.
Qed.

Lemma process_item_agree cut c1 c2 st item :
  agree c1 c2 (ticks (process_item c1 cut st item)) ->
  process_item c1 cut st item = process_item c2 cut st item.
Proof.
  rewrite !process_item_unfold; intros H.
  rewrite <- (fold_agree (fun c => valid_step c cut (market_hash_name item))
                (fun c => valid_step_ticks c cut (market_hash_name item))
                (valid_step_agree cut (market_hash_name item)) c1 c2).
  - apply (fold_agree skip_step skip_step_ticks skip_step_agree), H.
  - eapply agree_le; [|exact H].
    apply (fold_ticks skip_step skip_step_ticks).
Qed.

Lemma aggregate_ticks c response : (1 <= ticks (aggregate c response))%nat.
Proof.
  unfold aggregate.
  apply (fold_ticks (fun c => process_item c (c 0%nat - hour_ms))
           (fun c => process_item_ticks (c 0%nat - hour_ms) c) c response init_agg).
Qed.

Lemma aggregate_agree c1 c2 response :
  agree c1 c2 (ticks (aggregate c1 response)) ->
  aggregate c1 response = aggregate c2 response.
Proof.
  intros H; unfold aggregate.
  pose proof (aggregate_ticks c1 response) as Ht.
  rewrite <- (H 0%nat) by lia.
  apply (fold_agree (fun c => process_item c (c1 0%nat - hour_ms))
           (fun c => process_item_ticks (c1 0%nat - hour_ms) c)
           (process_item_agree (c1 0%nat - hour_ms))), H.
Qed.

Lemma derive_stats_ticks c t s : (t <= snd (derive_stats c t s))%nat.
Proof. unfold derive_stats; destruct (0 <? total s); simpl; lia. Qed.

Lemma derive_stats_agree c1 c2 t s :
  agree c1 c2 (snd (derive_stats c1 t s)) ->
  derive_stats c1 t s = derive_stats c2 t s.
Proof.
  unfold derive_stats; destruct (0 <? total s); simpl; [|reflexivity].
  intros H; rewrite (H t), (H (S t)) by lia; reflexivity.
Qed.

Lemma derive_all_ticks c es : forall t, (t <= snd (derive_all c es t))%nat.
Proof.
  induction es as [|[k s] es IH]; intros t; simpl; [lia|].
  pose proof (derive_stats_ticks c t s) as H.
  destruct (derive_stats c t s) as [d t1]; simpl in H.
  specialize (IH t1); destruct (derive_all c es t1) as [ds t2]; simpl in *; lia.
Qed.

Lemma derive_all_agree c1 c2 es : forall t,
  agree c1 c2 (snd (derive_all c1 es t)) ->
  derive_all c1 es t = derive_all c2 es t.
Proof.
  induction es as [|[k s] es IH]; intros t; simpl; [reflexivity|].
  pose proof (derive_stats_agree c1 c2 t s) as Hs.
  destruct (derive_stats c1 t s) as [d t1]; simpl in Hs.
  pose proof (derive_all_ticks c1 es t1) as Ht.
  specialize (IH t1); destruct (derive_all c1 es t1) as [ds t2]; simpl in *.
  intros H.
  rewrite <- Hs by (eapply agree_le; [exact Ht | exact H]).
  rewrite <- IH by exact H; reflexivity.
Qed.

Lemma save_outdated_ticks c t out : (t <= snd (save_outdated c t out))%nat.
Proof. unfold save_outdated; destruct (0 <? len out); simpl; lia. Qed.

Lemma save_outdated_agree c1 c2 t out :
  agree c1 c2 (snd (save_outdated c1 t out)) ->
  save_outdated c1 t out = save_outdated c2 t out.
Proof.
  unfold save_outdated; destruct (0 <? len out); simpl; [|reflexivity].
  intros H; rewrite (H t), (H (S t)) by lia; reflexivity.
Qed.

Lemma main_agree c1 c2 response :
  agree c1 c2 (readings (main c1 response)) ->
  main c1 response = main c2 response.
Proof.
  unfold main.
  pose proof (aggregate_agree c1 c2 response) as Ha.
  set (st := aggregate c1 response) in *.
  pose proof (derive_all_agree c1 c2 (Js.entries (providerStats st)) (ticks st)) as Hd.
  pose proof (derive_all_ticks c1 (Js.entries (providerStats st)) (ticks st)) as Td.
  destruct (derive_all c1 (Js.entries (providerStats st)) (ticks st)) as [ds t1].
  pose proof (save_outdated_agree c1 c2 t1 (outdatedPrices st)) as Hf.
  pose proof (save_outdated_ticks c1 t1 (outdatedPrices st)) as Tf.
  destruct (save_outdated c1 t1 (outdatedPrices st)) as [f t2].
  simpl in *; intros H.
  rewrite <- Ha by (eapply agree_le; [|exact H]; lia).
  rewrite <- Hd by (eapply agree_le; [|exact H]; lia).
  rewrite <- Hf by exact H.
  reflexivity.
Qed.

(** ** Invalid prices *)

Lemma valid_of_invalid p : is_invalid p = true -> valid_of p = [].
Proof.
  unfold is_invalid, valid_of.
  destruct (updated_at p), (price p); simpl; congruence.
Qed.

Lemma valid_of_valid p : is_invalid p = false -> exists v, valid_of p = [v].
Proof.
  unfold is_invalid, valid_of.
  destruct (updated_at p), (price p); simpl; try congruence; eauto.
Qed.

Lemma validPrices_app l1 l2 :
  validPrices (l1 ++ l2) = validPrices l1 ++ validPrices l2.
Proof. apply flat_map_app. Qed.

Lemma validPrices_skip p l1 l2 :
  is_invalid p = true -> validPrices (l1 ++ p :: l2) = validPrices (l1 ++ l2).
Proof.
  intros H; rewrite !validPrices_app; f_equal.
  unfold validPrices; simpl; now rewrite valid_of_invalid.
Qed.

Lemma valid_invalid_len ps :
  len (validPrices ps) + len (filter is_invalid ps) = len ps.
Proof.
  induction ps as [|p ps IH]; [reflexivity|].
  change (validPrices (p :: ps)) with (valid_of p ++ validPrices ps).
  simpl filter.
  destruct (is_invalid p) eqn:E.
  - rewrite valid_of_invalid by exact E; len_simpl; lia.
  - destruct (valid_of_valid p E) as (v & ->); len_simpl; lia.
Qed.

Lemma all_valid_len response :
  len (all_valid response) = len (validPrices (flat_map quotes response)).
Proof.
  induction response as [|item response IH]; [reflexivity|].
  simpl; rewrite validPrices_app, !len_app, IH.
  unfold len; now rewrite length_map.
Qed.

(** The two global counters of lines 46 and 49 as functions of the
    response. *)
Lemma global_tallies clock response :
  totalPriceCount (aggregate clock response) = len (all_valid response) /\
  skippedPriceCount (aggregate clock response) =
    len (filter is_invalid (flat_map quotes response)).
Proof.
  assert (totalPriceCount (aggregate clock response) = len (all_valid response)) as H.
  { unfold aggregate.
    change (len (all_valid response))
      with (totalPriceCount init_agg + len (all_valid response)).
    generalize init_agg.
    induction response as [|item response IH]; intros st.
    - simpl; rewrite (@len_nil (string * ValidPrice)); lia.
    - simpl fold_left; rewrite IH, process_item_unfold.
      match goal with |- context [fold_left (skip_step clock) ?ps ?s] =>
        destruct (skip_fold_frame clock ps s) as (_ & -> & _) end.
      match goal with |- context [fold_left (valid_step clock ?c ?n) ?vs ?s] =>
        destruct (valid_fold_counts clock c n vs s) as (_ & -> & _) end.
      unfold all_valid, count_item; cbn [flat_map totalPriceCount].
      rewrite len_app, len_map; lia. }
  split; [exact H|].
  destruct (pass_counts clock (clock 0%nat - hour_ms) response init_agg) as (C & _).
  fold (aggregate clock response) in C; simpl in C.
  pose proof (valid_invalid_len (flat_map quotes response)).
  pose proof (all_valid_len response).
  lia.
Qed.

Lemma invalid_isolated clock p : is_invalid p = true -> isolated clock p.
Proof.
  intros Hp; split; [|split].
  - intros l1 l2; now apply validPrices_skip.
  - intros l1 l2 st; unfold count_item; simpl.
    rewrite (validPrices_skip p l1 l2 Hp), !len_app, len_cons; split; lia.
  - intros st; simpl.
    destruct (skip_step_frame clock st p) as (F1 & F2 & F3 & F4).
    repeat split; auto.
    + intros k s Hk; rewrite skip_step_lookup, Hp; cbn [andb].
      unfold charged.
      destruct (Js.truthy (provider_key p)); cbn [andb];
        [|exists s; unfold same_tallies; repeat split; auto; lia].
      destruct (String.eqb_spec k (Js.to_key (provider_key p))) as [E|E];
        cbn [andb]; [|exists s; unfold same_tallies; repeat split; auto; lia].
      subst k; unfold held, entry; rewrite Hk.
      eexists; split; [reflexivity|].
      unfold same_tallies; simpl; repeat split; lia.
    + intros k Hk; rewrite skip_step_lookup, Hp; cbn [andb].
      unfold charged.
      destruct (Js.truthy (provider_key p)); cbn [andb]; [|exact Hk].
      destruct (String.eqb_spec k (Js.to_key (provider_key p))) as [E|E];
        cbn [andb]; [|exact Hk].
      subst k; unfold held, entry; rewrite Hk.
      destruct (Js.inherited (Js.to_key (provider_key p))); reflexivity.
    + intros Ht; unfold skip_step; rewrite Ht, andb_false_r; reflexivity.
Qed.

(** ** The document of outdated prices *)

Lemma save_outdated_none clock t out :
  fst (save_outdated clock t out) = None <-> out = [].
Proof.
  unfold save_outdated; destruct out as [|r out].
  - simpl; tauto.
  - assert ((0 <? len (r :: out)) = true) as ->.
    { apply Z.ltb_lt; rewrite len_cons; pose proof (len_nonneg out); lia. }
    simpl; split; discriminate.
Qed.


(** ** Responses without a valid price *)

Lemma derive_stats_empty clock t s :
  total s <= 0 ->
  fst (derive_stats clock t s) =
  {| upToDatePercentage := 0; avgPrice := 0;
     oldestUpdateTime := None; newestUpdateTime := None;
     oldestUpdateMinutesAgo := None; newestUpdateMinutesAgo := None |}.
Proof.
  intros H; unfold derive_stats.
  destruct (Z.ltb_spec 0 (total s)); [lia | reflexivity].
Qed.

Lemma rank_none ds :
  (forall e, In e ds -> total (snd (fst e)) <= 0) -> rank ds = rank_init.
Proof.
  intros H; rewrite rank_filter.
  replace (filter _ ds) with (@nil (string * Stats * Derived)); [reflexivity|].
  symmetry; induction ds as [|e ds IH]; [reflexivity|]; simpl.
  destruct (Z.ltb_spec 0 (total (snd (fst e)))) as [G|G].
  - specialize (H e (or_introl eq_refl)); lia.
  - apply IH; intros e' He'; apply H; now right.
Qed.

Lemma aggregate_counts clock response :
  let st := aggregate clock response in
  totalPriceCount st + skippedPriceCount st = len (flat_map quotes response) /\
  upToDateCount st + len (outdatedPrices st) = totalPriceCount st.
Proof.
  simpl.
  destruct (pass_counts clock (clock 0%nat - hour_ms) response init_agg)
    as (H1 & H2); simpl in H1, H2.
  fold (aggregate clock response) in H1, H2.
  split; lia.
Qed.

Lemma aggregate_class clock response :
  let cut := clock 0%nat - hour_ms in
  let st := aggregate clock response in
  upToDateCount st = len (filter (fresh_at cut) (all_valid response)) /\
  map core (outdatedPrices st) =
    map core_of (filter (fun nv => negb (fresh_at cut nv)) (all_valid response)).
Proof.
  simpl.
  destruct (pass_class clock (clock 0%nat - hour_ms) response init_agg)
    as (H1 & H2).
  fold (aggregate clock response) in H1, H2.
  rewrite H1, H2; split; reflexivity.
Qed.

(** * The claims *)

(** C1. Counter conservation: valid plus skipped prices are all the raw
    prices of the response; globally the up-to-date count plus the number
    of outdated records is the number of valid prices; and for every
    provider entry its up-to-date count plus the number of its outdated
    records is its total, the number of valid prices of that provider. *)
Theorem counter_conservation (clock : Clock) (response : list Item) :
  let st := aggregate clock response in
  totalPriceCount st + skippedPriceCount st = len (flat_map quotes response) /\
  upToDateCount st + len (outdatedPrices st) = totalPriceCount st /\
  forall k s, lookup k (providerStats st) = Some s ->
    upToDate s + stale_count k (outdatedPrices st) = total s /\
    total s = len (valid_for k response).
Proof.
  simpl.
  destruct (aggregate_counts clock response) as (H1 & H2).
  split; [exact H1 | split; [exact H2 |]].
  intros k s Hk; split.
  - pose proof (balanced_aggregate clock response k) as B.
    rewrite Hk in B; apply B.
  - apply (provider_tallies clock response k s Hk).
Qed.

(** C2. The comparison of line 83 is inclusive: with [now] the reading of
    line 25, a valid price is counted up to date exactly when its
    timestamp is at least [now - 60*60*1000], the others are exactly the
    outdated records, and a price updated at [now - 60*60*1000] itself is
    up to date. *)
Theorem freshness_boundary_inclusive (clock : Clock) (response : list Item) :
  let now := clock 0%nat in
  let st := aggregate clock response in
  (forall ts, is_fresh (now - hour_ms) ts = true <-> ts >= now - hour_ms) /\
  upToDateCount st =
    len (filter (fresh_at (now - hour_ms)) (all_valid response)) /\
  map core (outdatedPrices st) =
    map core_of (filter (fun nv => negb (fresh_at (now - hour_ms) nv))
                   (all_valid response)) /\
  (forall name pk cents,
     let boundary :=
       [mkItem name None None
          (Some [mkPrice pk (Some cents) (Some (now - hour_ms))])] in
     upToDateCount (aggregate clock boundary) = 1 /\
     outdatedPrices (aggregate clock boundary) = []).
Proof.
  simpl.
  destruct (aggregate_class clock response) as (H1 & H2).
  split; [|split; [|split]].
  - intros ts; unfold is_fresh; rewrite Z.leb_le; lia.
  - exact H1.
  - exact H2.
  - intros name pk cents.
    destruct (pass_class clock (clock 0%nat - hour_ms)
                [mkItem name None None
                   (Some [mkPrice pk (Some cents) (Some (clock 0%nat - hour_ms))])]
                init_agg) as (B1 & B2).
    unfold aggregate.
    split.
    + rewrite B1; simpl.
      unfold fresh_at, is_fresh; simpl; rewrite Z.leb_refl; reflexivity.
    + apply map_eq_nil with (f := core).
      rewrite B2; simpl.
      unfold fresh_at, is_fresh; simpl; rewrite Z.leb_refl; reflexivity.
Qed.

(** C3, as the program has it. A price whose [price] or [updated_at] is
    null is isolated in the sense of [isolated]: it is counted in
    [skippedPriceCount] only, changes no tally of any provider, and adds
    one to the [skippedCount] of the entry of its provider exactly when
    its provider key is truthy (neither null nor the empty string) and
    that entry exists or can be created, which it cannot for a name a
    plain object inherits. Over a whole response the counters are
    [tallied]: totals, up-to-date counts and price sums come from the
    valid prices alone. *)
Theorem invalid_price_isolated (clock : Clock) (p : Price) :
  price p = None \/ updated_at p = None ->
  isolated clock p /\ forall response, tallied clock response.
Proof.
  intros H; split.
  - apply invalid_isolated.
    unfold is_invalid; destruct H as [-> | ->]; [|reflexivity].
    now destruct (updated_at p).
  - intros response; unfold tallied.
    destruct (global_tallies clock response) as (G1 & G2).
    split; [exact G1 | split; [exact G2 |]].
    intros k s Hk; apply (provider_tallies clock response k s Hk).
Qed.

Lemma invalid_price_isolated_witness :
  (price youpin_invalid = None \/ updated_at youpin_invalid = None) /\
  isolated (fun _ => t0) youpin_invalid /\
  tallied (fun _ => t0) (widget t0).
Proof.
  split.
  - left; reflexivity.
  - split.
    + apply (invalid_price_isolated (fun _ => t0) youpin_invalid).
      left; reflexivity.
    + apply (invalid_price_isolated (fun _ => t0) youpin_invalid).
      left; reflexivity.
Defined.

(** C3 as stated fails: the provider key is not null, yet no provider's
    [skippedCount] is incremented (there is no entry at all); only the
    global counter is. *)
Lemma empty_key_is_not_charged :
  price unnamed_invalid = None /\
  provider_key unnamed_invalid <> None /\
  skippedPriceCount
    (aggregate (fun _ => t0) [mkItem "Widget" None None (Some [unnamed_invalid])]) = 1 /\
  providerStats
    (aggregate (fun _ => t0) [mkItem "Widget" None None (Some [unnamed_invalid])]) = [].
Proof.
  repeat split; discriminate.
Qed.

(** C4, as the program has it. The clock is read again at every use, so
    a run is a function of the response and of the readings it makes: two
    runs on the same response whose clocks agree on the readings made
    produce the same result. *)
Theorem run_determined_by_readings (c1 c2 : Clock) (response : list Item) :
  (forall n, (n < readings (main c1 response))%nat -> c1 n = c2 n) ->
  main c1 response = main c2 response.
Proof. apply main_agree. Qed.

Lemma run_determined_by_readings_witness :
  (forall n, (n < readings (main (ticking t0) (widget t0)))%nat ->
     ticking t0 n = stopping t0 n) /\
  main (ticking t0) (widget t0) = main (stopping t0) (widget t0).
Proof.
  assert (forall n, (n < readings (main (ticking t0) (widget t0)))%nat ->
            ticking t0 n = stopping t0 n) as H.
  { intros n Hn; unfold ticking, stopping.
    change (readings (main (ticking t0) (widget t0))) with 11%nat in Hn.
    apply Nat.ltb_lt in Hn; rewrite Hn; reflexivity. }
  split; [exact H|].
  apply (run_determined_by_readings (ticking t0) (stopping t0) (widget t0) H).
Defined.

(** C4 as stated fails: the response and the reading of line 25 are the
    same in both runs, the outdated records are not, because line 94 reads
    the clock again. *)
Lemma same_now_different_records :
  late t0 0%nat = t0 /\
  map Outdated.minutes_since_update
    (outdatedPrices (agg (main (fun _ => t0) (widget t0)))) = [90] /\
  map Outdated.minutes_since_update
    (outdatedPrices (agg (main (late t0) (widget t0)))) = [92] /\
  main (fun _ => t0) (widget t0) <> main (late t0) (widget t0).
Proof.
  repeat split; try reflexivity.
  intros H; apply (f_equal (fun r =>
    map Outdated.minutes_since_update (outdatedPrices (agg r)))) in H.
  vm_compute in H; discriminate.
Qed.





Lemma derive_stats_derived clock t s :
  derived_from clock t s (fst (derive_stats clock t s)).
Proof.
  split; intros H.
  - unfold derive_stats.
    destruct (Z.ltb_spec 0 (total s)); [simpl | lia].
    repeat split.
    + intros Hu Hs; apply percentage_rounded; [exact Hu | lia].
    + intros Hc; now apply average_value.
  - now apply derive_stats_empty.
Qed.

(** The entry that follows [l1] in the report is derived after the
    readings of the earlier entries. *)
Lemma derive_all_split clock es : forall t l1 k s d l2,
  fst (derive_all clock es t) = l1 ++ (k, s, d) :: l2 ->
  d = fst (derive_stats clock
             (t + 2 * List.length
                        (filter (fun e => (0 <? total (snd (fst e)))%Z) l1))%nat
             s).
Proof.
  induction es as [|[k0 s0] es IH]; intros t l1 k s d l2; cbn [derive_all].
  - intros H; destruct l1; discriminate.
  - destruct (derive_stats clock t s0) as [d0 t1] eqn:E0.
    specialize (IH t1).
    destruct (derive_all clock es t1) as [ds t2]; cbn [fst] in *.
    destruct l1 as [|e l1]; cbn [app filter List.length].
    + intros [= -> -> -> _]; rewrite Nat.add_0_r, E0; reflexivity.
    + intros [= <- H]; apply IH in H; rewrite H; cbn [fst snd].
      unfold derive_stats in E0.
      destruct (0 <? total s0); injection E0 as _ <-; cbn [List.length];
        f_equal; f_equal; lia.
Qed.

(** C7, as the program has it. Every entry of [providerStats] is
    reported, in the order of [Object.keys], with the fields
    [derived_from] describes: the percentage and the average are what
    [toFixed(2)] makes of the doubles computed, a nearest hundredth of
    the exact quotient for counts below [2^32] and sums below [2^50];
    the minutes are counted back from the two clock readings made for
    that entry, after those of the pass and of the earlier entries, not
    from the reading of line 25. The entries with [total = 0] take no
    part in the ranking. *)
Theorem provider_statistics (clock : Clock) (response : list Item) :
  let r := main clock response in
  map (fun e => (name_of e, snd (fst e))) (providers r) =
    Js.entries (providerStats (agg r)) /\
  (forall l1 e l2, providers r = l1 ++ e :: l2 ->
     derived_from clock (readings_before (agg r) l1) (snd (fst e)) (snd e) /\
     0 <= upToDate (snd (fst e)) <= total (snd (fst e))) /\
  (1 <= ticks (agg r))%nat /\
  ranking r = rank (filter (fun e => 0 <? total (snd (fst e))) (providers r)).
Proof.
  simpl; rewrite main_agg, main_ranking.
  split; [|split; [|split]].
  - rewrite main_providers; apply derive_all_keys.
  - intros l1 [[k s] d] l2 Hsplit; cbn [fst snd].
    assert (In (k, s, d) (providers (main clock response))) as Hin
      by (rewrite Hsplit; apply in_elt).
    apply providers_In in Hin as (Hk & _).
    rewrite main_providers in Hsplit.
    apply derive_all_split in Hsplit; subst d; split.
    + apply derive_stats_derived.
    + pose proof (balanced_aggregate clock response k) as B; rewrite Hk in B.
      pose proof (stale_count_nonneg k (outdatedPrices (aggregate clock response))).
      lia.
  - apply aggregate_ticks.
  - apply rank_filter.
Qed.

(** C7 as stated fails: the minutes are not counted back from [now]. The
    reading of line 25 is [t0] and the steam price is 30 minutes older,
    yet it is reported 32 minutes old, because line 140 reads the clock
    again. And the two-decimal average is the one of the double
    computed: 1.00 and 1.01 dollars average to "1.00", where the exact
    quotient 1.005 formats to "1.01". *)
Lemma minutes_ago_read_the_clock_again :
  late t0 0%nat = t0 /\
  map (fun e => (name_of e, oldestUpdateMinutesAgo (snd e)))
    (providers (main (late t0) (widget t0))) =
    [("steam", Some 32); ("buff163", Some 92); ("youpin", None)] /\
  map (fun e => (name_of e,
                 Js.floor_div (late t0 0%nat - oldestUpdate (snd (fst e)))
                   (60 * 1000)))
    (firstn 2 (providers (main (late t0) (widget t0)))) =
    [("steam", 30); ("buff163", 90)] /\
  map (fun e => avgPrice (snd e)) (providers (main (fun _ => t0) odd_cents))
    = [100] /\
  Js.toFixed2 (inject_Z 201 / inject_Z 2 / 100) = 101.
Proof.
  vm_compute; repeat split.
Qed.

(** C8, as the program has it. An entry that has counted a price has
    [oldestUpdate <= newestUpdate], and the two of every entry bracket the
    timestamp of every valid price counted in it; [newestUpdate <= now]
    holds for a non-negative [now] that no valid price of the response is
    dated after. *)
Theorem update_order_and_bound (clock : Clock) (response : list Item) :
  let st := aggregate clock response in
  (forall k s, lookup k (providerStats st) = Some s -> 0 < total s ->
     oldestUpdate s <= newestUpdate s) /\
  (forall k s, lookup k (providerStats st) = Some s ->
     forall v, In v (valid_for k response) ->
       oldestUpdate s <= v_updated_at v <= newestUpdate s) /\
  (forall now, 0 <= now ->
     Forall (fun nv => v_updated_at (snd nv) <= now) (all_valid response) ->
     forall k s, lookup k (providerStats st) = Some s -> newestUpdate s <= now).
Proof.
  simpl; split; [|split].
  - intros k s Hk; apply (ordered_aggregate clock response k s Hk).
  - intros k s Hk v Hv.
    apply filter_In in Hv as (Hv & Hkey).
    apply in_map_iff in Hv as ((name & v') & Hsnd & Hin); cbn [snd] in Hsnd; subst v'.
    apply String.eqb_eq in Hkey; subst k.
    pose proof (own_names_aggregate clock response _ _ Hk) as Hown.
    destruct (covers_aggregate clock response name v Hown Hin) as (s' & Hs' & Hb).
    congruence.
  - intros now Hnow Hall.
    unfold aggregate.
    apply pass_invariant with (Q := fun v => v_updated_at v <= now).
    + intros st ps H; exact H.
    + intros st name v Hv; now apply bounded_valid_step.
    + intros st p; now apply bounded_skip_step.
    + now apply valid_everywhere with (Q := fun v => v_updated_at v <= now).
    + intros k s; discriminate.
Qed.

(** C8 as stated fails: the entry has [total = 1] and a [newestUpdate]
    after [now], whichever reading of the constant clock [now] is. *)
Lemma newest_update_after_now :
  exists s,
    lookup "steam" (providerStats (aggregate (fun _ => t0) from_the_future))
      = Some s /\
    0 < total s /\ oldestUpdate s = t0 /\ newestUpdate s = t0 + hour_ms /\
    t0 < newestUpdate s.
Proof.
  eexists; split; [reflexivity|].
  vm_compute; repeat split; reflexivity.
Qed.

(** C9. The run is a total function of the clock and the response. On
    the empty response every counter is 0, there is no provider, no
    ranking and no document. An item without prices changes nothing. A
    response without any valid price yields zero valid, up-to-date and
    outdated counts, providers with the no-data fields only, no ranking
    and no document. *)
Theorem degenerate_inputs (clock : Clock) :
  main clock [] =
    {| agg := {| upToDateCount := 0; totalPriceCount := 0;
                 skippedPriceCount := 0; providerStats := [];
                 outdatedPrices := []; ticks := 1 |};
       providers := []; ranking := rank_init; percentage := 0;
       quality := None; written := None; readings := 1 |} /\
  (forall cut st item, quotes item = [] -> process_item clock cut st item = st) /\
  (forall response, all_valid response = [] ->
     let r := main clock response in
     totalPriceCount (agg r) = 0 /\ upToDateCount (agg r) = 0 /\
     outdatedPrices (agg r) = [] /\
     skippedPriceCount (agg r) = len (flat_map quotes response) /\
     Forall (fun e =>
               total (snd (fst e)) = 0 /\
               snd e = {| upToDatePercentage := 0; avgPrice := 0;
                          oldestUpdateTime := None; newestUpdateTime := None;
                          oldestUpdateMinutesAgo := None;
                          newestUpdateMinutesAgo := None |})
       (providers r) /\
     ranking r = rank_init /\ written r = None).
Proof.
  split; [reflexivity|]; split.
  - intros cut st item H.
    rewrite process_item_unfold, H; simpl; apply count_item_nil.
  - intros response Hnone; simpl.
    destruct (aggregate_counts clock response) as (C1 & C2).
    destruct (global_tallies clock response) as (G1 & _).
    destruct (aggregate_class clock response) as (F1 & F2).
    rewrite Hnone in *; simpl in F1, F2, G1.
    apply map_eq_nil in F2.
    assert (forall e, In e (providers (main clock response)) ->
              total (snd (fst e)) = 0 /\
              snd e = {| upToDatePercentage := 0; avgPrice := 0;
                         oldestUpdateTime := None; newestUpdateTime := None;
                         oldestUpdateMinutesAgo := None;
                         newestUpdateMinutesAgo := None |}) as HP.
    { intros [[k s] d] Hin.
      apply providers_In in Hin as (Hk & t & ->); simpl.
      destruct (provider_tallies clock response k s Hk) as (T & _).
      unfold valid_for in T; rewrite Hnone in T; simpl in T.
      split; [exact T|].
      apply derive_stats_empty; rewrite T; reflexivity. }
    rewrite main_agg, main_ranking, main_written.
    repeat split.
    + exact G1.
    + exact F1.
    + exact F2.
    + change (@len (string * ValidPrice) []) with 0 in G1; lia.
    + apply Forall_forall; exact HP.
    + apply rank_none; intros e He; destruct (HP e He) as (-> & _); lia.
    + apply save_outdated_none; exact F2.
Qed.

(** C10. When no later clock reading is earlier than the reading of
    line 25, every outdated record, and so every record of the written
    document, has [minutes_since_update >= 60]. *)
Theorem stale_minutes_at_least_window (clock : Clock) (response : list Item) :
  (forall n, clock 0%nat <= clock n) ->
  Forall (fun r => 60 <= Outdated.minutes_since_update r)
    (outdatedPrices (agg (main clock response))) /\
  forall l, written (main clock response) = Some l ->
    Forall (fun r => 60 <= Outdated.minutes_since_update r) (Ledger.prices l).
Proof.
  intros Hmono.
  assert (minutes_ok (aggregate clock response)) as H.
  { unfold aggregate.
    apply pass_invariant with (Q := fun _ => True).
    - intros st ps Hst; exact Hst.
    - intros st name v _; now apply minutes_ok_valid_step.
    - intros st p; apply minutes_ok_skip_step.
    - apply Forall_forall; intros; apply all_true.
    - constructor. }
  rewrite main_agg; split; [exact H|].
  intros l; rewrite main_written; unfold save_outdated.
  destruct (0 <? len (outdatedPrices (aggregate clock response)));
    simpl; intros [= <-]; exact H.
Qed.

Lemma stale_minutes_at_least_window_witness :
  (forall n, ticking t0 0%nat <= ticking t0 n) /\
  Forall (fun r => 60 <= Outdated.minutes_since_update r)
    (outdatedPrices (agg (main (ticking t0) (widget t0)))).
Proof.
  split.
  - intros n; unfold ticking; lia.
  - apply (stale_minutes_at_least_window (ticking t0) (widget t0)).
    intros n; unfold ticking; lia.
Defined.

(** * Further properties of the pass *)

(** ** Sums over the entries *)




Lemma all_valid_cons item response :
  map snd (all_valid (item :: response)) =
  validPrices (quotes item) ++ map snd (all_valid response).
Proof.
  unfold all_valid; cbn [flat_map].
  rewrite map_app, map_map; cbn [snd]; now rewrite map_id.
Qed.







Section SumOver.

(** A field [m] of the entries to which a valid price [v] adds [w v] and
    a charged invalid price adds [ws], summed over the entries. *)
Variables (m : Stats -> Z) (w : ValidPrice -> Z) (ws : Z) (cut : Z).
Hypothesis m_new : forall now, m (new_stats now) = 0.
Hypothesis m_touched : forall v s, m (touched cut v s) = m s + w v.
Hypothesis m_skipped : forall s, m (inc_skipped s) = m s + ws.








End SumOver.


(** ** The reasons for an entry *)

Lemma reasoned_entry clock k st :
  reasoned st ->
  0 <= total (entry clock k st) /\ 0 <= skippedCount (entry clock k st).
Proof.
  intros H; unfold entry.
  destruct (lookup k (providerStats st)) eqn:E; simpl; [|lia].
  destruct (H k s E) as (H1 & H2 & _); auto.
Qed.

Lemma reasoned_valid_step clock cut name st v :
  reasoned st -> reasoned (valid_step clock cut name st v).
Proof.
  intros H k s; rewrite valid_step_lookup.
  step_entry k; [|apply H].
  intros [= <-].
  destruct (reasoned_entry clock (Js.to_key (v_provider_key v)) st H) as (E1 & E2).
  destruct (touched_spec cut v (entry clock (Js.to_key (v_provider_key v)) st))
    as (-> & _ & _ & -> & _); lia.
Qed.

Lemma reasoned_skip_step clock st p :
  reasoned st -> reasoned (skip_step clock st p).
Proof.
  intros H k s; rewrite skip_step_lookup.
  destruct (_ && _); [|apply H].
  intros [= <-].
  destruct (reasoned_entry clock (Js.to_key (provider_key p)) st H) as (E1 & E2).
  simpl; lia.
Qed.

Lemma reasoned_aggregate clock response : reasoned (aggregate clock response).
Proof.
  unfold aggregate.
  apply pass_invariant with (Q := fun _ => True).
  - intros st ps H; exact H.
  - intros st name v _; apply reasoned_valid_step.
  - intros st p; apply reasoned_skip_step.
  - apply Forall_forall; intros; apply all_true.
  - intros k s; discriminate.
Qed.

Lemma present_valid_step k clock cut name st v :
  present k st -> present k (valid_step clock cut name st v).
Proof.
  unfold present; rewrite valid_step_lookup.
  destruct (_ && _); [discriminate | auto].
Qed.

Lemma present_skip_step k clock st p :
  present k st -> present k (skip_step clock st p).
Proof.
  unfold present; rewrite skip_step_lookup.
  destruct (_ && _); [discriminate | auto].
Qed.

Lemma present_skip_step_here k clock st p :
  Js.inherited k = false ->
  skipped_for k p = true -> present k (skip_step clock st p).
Proof.
  unfold present, skipped_for; intros Hown H; rewrite skip_step_lookup.
  apply andb_true_iff in H as (H1 & H2).
  apply String.eqb_eq in H2; subst k.
  rewrite H1, String.eqb_refl, (held_true _ st Hown); discriminate.
Qed.

Lemma present_process_item k clock cut st item :
  present k st -> present k (process_item clock cut st item).
Proof.
  intros H; rewrite process_item_unfold.
  apply fold_left_invariant with (Q := fun _ => True);
    auto using all_true, present_skip_step.
  apply fold_left_invariant with (Q := fun _ => True);
    auto using all_true, present_valid_step.
Qed.

Lemma present_charged k clock response p :
  Js.inherited k = false ->
  In p (flat_map quotes response) -> skipped_for k p = true ->
  present k (aggregate clock response).
Proof.
  intros Hown; rewrite in_flat_map; intros (item & Hitem & Hp) Hk.
  unfold aggregate.
  apply fold_left_establish with (x := item);
    auto using present_process_item.
  intros st; rewrite process_item_unfold.
  apply fold_left_establish with (x := p);
    auto using present_skip_step, present_skip_step_here.
Qed.

Lemma filter_inhabited {A : Type} (f : A -> bool) l :
  0 < len (filter f l) -> exists x, In x l /\ f x = true.
Proof.
  destruct (filter f l) as [|x r] eqn:E; [rewrite (@len_nil A); lia|].
  intros _; exists x; apply filter_In; rewrite E; now left.
Qed.

Lemma entry_reasons clock response k :
  (exists s, lookup k (providerStats (aggregate clock response)) = Some s) <->
  Js.inherited k = false /\
  ((exists nv, In nv (all_valid response) /\ for_key k (snd nv) = true) \/
   (exists p, In p (flat_map quotes response) /\ skipped_for k p = true)).
Proof.
  split.
  - intros (s & Hs).
    split; [apply (own_names_aggregate clock response k s Hs)|].
    destruct (reasoned_aggregate clock response k s Hs) as (_ & _ & R).
    destruct (provider_tallies clock response k s Hs) as (T1 & _ & _ & T4).
    destruct (Z_lt_le_dec 0 (total s)) as [Hpos|Hzero].
    + left; rewrite T1 in Hpos; unfold valid_for in Hpos.
      apply filter_inhabited in Hpos as (v & Hv & Hk).
      apply in_map_iff in Hv as (nv & <- & Hnv); eauto.
    + right; assert (0 < skippedCount s) as Hpos by lia.
      rewrite T4 in Hpos; apply filter_inhabited in Hpos; exact Hpos.
  - intros (Hown & [((name, v) & Hin & Hk)|(p & Hin & Hk)]).
    + unfold for_key in Hk; simpl in Hk; apply String.eqb_eq in Hk; subst k.
      destruct (covers_aggregate clock response name v Hown Hin) as (s & Hs & _).
      eauto.
    + pose proof (present_charged k clock response p Hown Hin Hk) as H.
      unfold present in H.
      destruct (lookup k (providerStats (aggregate clock response))); [eauto | tauto].
Qed.

(** X2. An entry of [providerStats] exists exactly for the names, other
    than those a plain object inherits, that some valid price carries as
    its key or that some invalid price with a truthy key carries; every
    entry has counted at least one price. For a name the object inherits
    there is never an entry. *)
Theorem entries_have_a_reason (clock : Clock) (response : list Item) :
  let st := aggregate clock response in
  (forall k,
     (exists s, lookup k (providerStats st) = Some s) <->
     Js.inherited k = false /\
     ((exists nv, In nv (all_valid response) /\ for_key k (snd nv) = true) \/
      (exists p, In p (flat_map quotes response) /\ skipped_for k p = true))) /\
  (forall k s, lookup k (providerStats st) = Some s ->
     1 <= total s + skippedCount s) /\
  (forall k, Js.inherited k = true -> lookup k (providerStats st) = None).
Proof.
  simpl; split; [|split].
  - intros k; apply entry_reasons.
  - intros k s Hs; apply (reasoned_aggregate clock response k s Hs).
  - intros k Hk.
    destruct (lookup k (providerStats (aggregate clock response))) as [s|] eqn:E;
      [|reflexivity].
    rewrite (own_names_aggregate clock response k s E) in Hk; discriminate.
Qed.

(** ** The oldest and newest update as folds *)

Lemma filter_snoc {A : Type} (f : A -> bool) l x :
  filter f (l ++ [x]) = filter f l ++ (if f x then [x] else []).
Proof. rewrite filter_app; simpl; now destruct (f x). Qed.

Lemma ensure_ticks_new clock k st :
  lookup k (providerStats st) = None -> Js.inherited k = false ->
  ticks (ensure clock k st) = S (ticks st).
Proof. unfold ensure; now intros -> ->. Qed.

Lemma extremes_valid_step clock cut name seen st v :
  extremes clock seen st ->
  extremes clock (seen ++ [v]) (valid_step clock cut name st v).
Proof.
  intros (Ht & H).
  pose proof (valid_step_ticks clock cut name st v) as Hmono.
  assert (lookup (Js.to_key (v_provider_key v)) (providerStats st) = None ->
          Js.inherited (Js.to_key (v_provider_key v)) = false ->
          (S (ticks st) <= ticks (valid_step clock cut name st v))%nat) as Hnew.
  { intros E Ei; unfold valid_step.
    pose proof (ensure_ticks_new clock _ st E Ei).
    destruct (is_fresh cut (v_updated_at v)); simpl; lia. }
  split; [lia|]; intros k.
  rewrite valid_step_lookup, filter_snoc.
  change (for_key k v) with (Js.to_key (v_provider_key v) =? k)%string.
  specialize (H k).
  destruct (String.eqb_spec k (Js.to_key (v_provider_key v))) as [->|Hne].
  - rewrite String.eqb_refl, !map_app, !fold_left_app; cbn [map fold_left andb].
    destruct (held (Js.to_key (v_provider_key v)) st) eqn:Hh.
    + destruct (touched_spec cut v (entry clock (Js.to_key (v_provider_key v)) st))
        as (_ & _ & _ & _ & -> & ->).
      unfold entry, held in *.
      destruct (lookup (Js.to_key (v_provider_key v)) (providerStats st)) eqn:E.
      * destruct H as (Hn & t & Hle & Ho); split; [rewrite Hn; lia|].
        exists t; split; [lia|].
        rewrite Ho, fold_left_app; cbn [fold_left]; lia.
      * apply negb_true_iff in Hh.
        rewrite (H Hh); cbn [map fold_left new_stats newestUpdate oldestUpdate].
        split; [lia|].
        exists (ticks st); split; [specialize (Hnew eq_refl Hh); lia|].
        cbn [map app fold_left]; lia.
    + apply held_false in Hh as (L & Hi); rewrite L.
      intros Hn; congruence.
  - assert ((Js.to_key (v_provider_key v) =? k)%string = false) as E2
      by now apply String.eqb_neq, not_eq_sym.
    rewrite E2, app_nil_r; cbn [andb].
    destruct (lookup k (providerStats st)); [|exact H].
    destruct H as (Hn & t & Hle & Ho); split; [exact Hn|].
    exists t; split; [lia | exact Ho].
Qed.

Lemma extremes_skip_step clock seen st p :
  extremes clock seen st -> extremes clock seen (skip_step clock st p).
Proof.
  intros (Ht & H).
  pose proof (skip_step_ticks clock st p) as Hmono.
  assert (is_invalid p && Js.truthy (provider_key p) = true ->
          lookup (Js.to_key (provider_key p)) (providerStats st) = None ->
          Js.inherited (Js.to_key (provider_key p)) = false ->
          (S (ticks st) <= ticks (skip_step clock st p))%nat) as Hnew.
  { intros E1 L Ei; unfold skip_step; rewrite E1; simpl.
    rewrite (ensure_ticks_new clock _ st L Ei); lia. }
  split; [lia|]; intros k.
  rewrite skip_step_lookup; specialize (H k).
  destruct (is_invalid p && Js.truthy (provider_key p)
            && ((k =? Js.to_key (provider_key p))%string
                && held (Js.to_key (provider_key p)) st)) eqn:E.
  - apply andb_true_iff in E as (E1 & E2).
    apply andb_true_iff in E2 as (E2 & Hh).
    apply String.eqb_eq in E2; subst k.
    unfold entry, held in *.
    destruct (lookup (Js.to_key (provider_key p)) (providerStats st)) eqn:L.
    + destruct H as (Hn & t & Hle & Ho); split; [exact Hn|].
      exists t; split; [lia | exact Ho].
    + apply negb_true_iff in Hh.
      rewrite (H Hh); split; [reflexivity|].
      exists (ticks st); split; [|reflexivity].
      specialize (Hnew E1 eq_refl Hh); lia.
  - destruct (lookup k (providerStats st)); [|exact H].
    destruct H as (Hn & t & Hle & Ho); split; [exact Hn|].
    exists t; split; [lia | exact Ho].
Qed.

Lemma extremes_valid_fold clock cut name vs : forall seen st,
  extremes clock seen st ->
  extremes clock (seen ++ vs) (fold_left (valid_step clock cut name) vs st).
Proof.
  induction vs as [|v vs IH]; intros seen st H; simpl.
  - now rewrite app_nil_r.
  - change (v :: vs) with ([v] ++ vs); rewrite app_assoc.
    apply IH, extremes_valid_step, H.
Qed.

Lemma extremes_pass clock cut response : forall seen st,
  extremes clock seen st ->
  extremes clock (seen ++ map snd (all_valid response))
    (fold_left (process_item clock cut) response st).
Proof.
  induction response as [|item response IH]; intros seen st H.
  - simpl; now rewrite app_nil_r.
  - simpl fold_left; rewrite all_valid_cons, app_assoc.
    apply IH; rewrite process_item_unfold.
    apply fold_left_invariant with (Q := fun _ => True);
      auto using all_true, extremes_skip_step.
    apply extremes_valid_fold; exact H.
Qed.

Lemma extremes_aggregate clock response :
  extremes clock (map snd (all_valid response)) (aggregate clock response).
Proof.
  apply (extremes_pass clock _ response [] init_agg).
  split; [simpl; lia | intros k _; reflexivity].
Qed.

Lemma update_newest clock response k s :
  lookup k (providerStats (aggregate clock response)) = Some s ->
  newestUpdate s = fold_left Z.max (timestamps k response) 0.
Proof.
  intros Hs.
  destruct (extremes_aggregate clock response) as (_ & H).
  specialize (H k); rewrite Hs in H; apply H.
Qed.

(** *** The pass as a sequence of steps *)

Lemma modify_length k f o : List.length (modify k f o) = List.length o.
Proof.
  rewrite <- (length_map fst (modify k f o)), modify_keys; apply length_map.
Qed.

Lemma valid_step_store clock cut name st st' v :
  same_store st st' ->
  same_store (valid_step clock cut name st v) (valid_step clock cut name st' v).
Proof.
  destruct st, st'; unfold same_store; cbn; intros (-> & -> & ->).
  unfold valid_step, ensure, with_stats; cbn.
  destruct (lookup (Js.to_key (v_provider_key v)) providerStats1);
    destruct (Js.inherited (Js.to_key (v_provider_key v)));
    destruct (is_fresh cut (v_updated_at v)); cbn; auto.
Qed.

Lemma skip_step_store clock st st' p :
  same_store st st' ->
  same_store (skip_step clock st p) (skip_step clock st' p).
Proof.
  destruct st, st'; unfold same_store; cbn; intros (-> & -> & ->).
  unfold skip_step, ensure, with_stats; cbn.
  destruct (is_invalid p && Js.truthy (provider_key p)); cbn; [|auto].
  destruct (lookup (Js.to_key (provider_key p)) providerStats1);
    destruct (Js.inherited (Js.to_key (provider_key p))); cbn; auto.
Qed.

Lemma steps_of_fold clock cut item : forall st,
  fold_left (step clock cut) (steps_of item) st =
  fold_left (skip_step clock) (quotes item)
    (fold_left (valid_step clock cut (market_hash_name item))
       (validPrices (quotes item)) st).
Proof.
  intros st; unfold steps_of; rewrite fold_left_app.
  assert (forall ps a, fold_left (step clock cut) (map SkipStep ps) a =
                       fold_left (skip_step clock) ps a) as ->.
  { induction ps as [|p ps IH]; intros a; cbn [map fold_left step]; auto. }
  f_equal; generalize st.
  induction (validPrices (quotes item)) as [|v vs IH]; intros a;
    cbn [map fold_left step]; auto.
Qed.

Lemma store_fold {B : Type} (f : Agg -> B -> Agg) :
  (forall st st' b, same_store st st' -> same_store (f st b) (f st' b)) ->
  forall l st st', same_store st st' ->
    same_store (fold_left f l st) (fold_left f l st').
Proof.
  intros Hf l; induction l as [|b l IH]; intros st st' H; cbn [fold_left]; auto.
Qed.

(** The entries, the records and the clock readings of the pass are
    those of its turns, one after the other. *)
Lemma aggregate_run clock response :
  same_store (aggregate clock response) (run clock (steps response)).
Proof.
  unfold aggregate, run; set (cut := clock 0%nat - hour_ms).
  assert (same_store init_agg init_agg) as H by (repeat split).
  revert H; generalize init_agg at 1 3; generalize init_agg.
  induction response as [|item response IH]; intros st' st H;
    cbn [fold_left steps flat_map]; [exact H|].
  rewrite fold_left_app; apply IH.
  rewrite process_item_unfold, steps_of_fold.
  apply store_fold; [intros; now apply skip_step_store|].
  apply store_fold; [intros; now apply valid_step_store|].
  destruct H as (H1 & H2 & H3); repeat split; assumption.
Qed.

Lemma ticked_step clock cut st x : ticked st -> ticked (step clock cut st x).
Proof.
  unfold ticked; intros H; destruct x as [name v|p]; cbn [step].
  - unfold valid_step, ensure, with_stats.
    destruct (lookup (Js.to_key (v_provider_key v)) (providerStats st));
      destruct (Js.inherited (Js.to_key (v_provider_key v)));
      destruct (is_fresh cut (v_updated_at v));
      cbn [providerStats outdatedPrices ticks];
      rewrite ?modify_length, ?length_app; cbn [List.length]; lia.
  - unfold skip_step, ensure, with_stats.
    destruct (is_invalid p && Js.truthy (provider_key p)); [|exact H].
    destruct (lookup (Js.to_key (provider_key p)) (providerStats st));
      destruct (Js.inherited (Js.to_key (provider_key p)));
      cbn [providerStats outdatedPrices ticks];
      rewrite ?modify_length, ?length_app; cbn [List.length]; lia.
Qed.

Lemma ticked_run clock l : ticked (run clock l).
Proof.
  unfold run.
  apply fold_left_invariant with (Q := fun _ => True);
    auto using all_true, ticked_step.
  reflexivity.
Qed.

Lemma run_snoc clock l x :
  run clock (l ++ [x]) = step clock (clock 0%nat - hour_ms) (run clock l) x.
Proof. unfold run; now rewrite fold_left_app. Qed.

Lemma stamps_app k l l' : stamps k (l ++ l') = stamps k l ++ stamps k l'.
Proof. apply flat_map_app. Qed.

Lemma stamps_untouched k l :
  Forall (fun y => touches k y = false) l -> stamps k l = [].
Proof.
  induction 1 as [|x l Hx _ IH]; [reflexivity|].
  change (x :: l) with ([x] ++ l); rewrite stamps_app, IH, app_nil_r.
  destruct x as [name v|p]; cbn in *; [now rewrite Hx | reflexivity].
Qed.

Lemma stamps_steps k response : stamps k (steps response) = timestamps k response.
Proof.
  unfold timestamps, valid_for.
  induction response as [|item response IH]; [reflexivity|].
  cbn [steps flat_map]; rewrite stamps_app, all_valid_cons, filter_app, map_app.
  fold (steps response); rewrite IH; f_equal.
  unfold steps_of; rewrite stamps_app.
  assert (stamps k (map SkipStep (quotes item)) = []) as ->.
  { induction (quotes item) as [|p ps IHp]; [reflexivity | exact IHp]. }
  rewrite app_nil_r.
  induction (validPrices (quotes item)) as [|v vs IHv]; [reflexivity|].
  cbn [map filter].
  change (ValidStep (market_hash_name item) v
          :: map (ValidStep (market_hash_name item)) vs)
    with ([ValidStep (market_hash_name item) v]
          ++ map (ValidStep (market_hash_name item)) vs).
  rewrite stamps_app, IHv; cbn [stamps flat_map].
  destruct (for_key k v); reflexivity.
Qed.

(** A turn that does not concern [k] leaves what holds of [k]. *)
Lemma created_keep clock l x k o :
  touches k x = false ->
  created_at clock l k o -> created_at clock (l ++ [x]) k o.
Proof.
  intros Hx; destruct o as [s|]; cbn [created_at].
  - intros (before & x0 & after & -> & H1 & H2 & H3 & H4).
    exists before, x0, (after ++ [x]); repeat split; auto.
    + now rewrite <- app_assoc.
    + rewrite (stamps_app k (before ++ x0 :: after) [x]).
      rewrite (stamps_untouched k [x]), app_nil_r; [exact H4|].
      constructor; [exact Hx | constructor].
  - intros [H|H]; [now left | right].
    apply Forall_app; split; [exact H | constructor; [exact Hx | constructor]].
Qed.

(** A turn for an entry that exists updates its oldest timestamp. *)
Lemma created_update clock l x k s s' :
  oldestUpdate s' = fold_left Z.min (stamps k [x]) (oldestUpdate s) ->
  created_at clock l k (Some s) -> created_at clock (l ++ [x]) k (Some s').
Proof.
  intros Hs (before & x0 & after & -> & H1 & H2 & H3 & H4).
  exists before, x0, (after ++ [x]); repeat split; auto.
  - now rewrite <- app_assoc.
  - rewrite (stamps_app k (before ++ x0 :: after) [x]), fold_left_app, <- H4.
    exact Hs.
Qed.

(** A turn that creates the entry reads the clock for it. *)
Lemma created_new clock l x k s' :
  touches k x = true -> Js.inherited k = false ->
  lookup k (providerStats (run clock l)) = None ->
  oldestUpdate s' =
    fold_left Z.min (stamps k [x]) (clock (ticks (run clock l))) ->
  created_at clock l k None -> created_at clock (l ++ [x]) k (Some s').
Proof.
  intros Hx Hown Hnone Hs [H|H]; [congruence|].
  exists l, x, []; repeat split; auto.
  now rewrite (stamps_app k l [x]), (stamps_untouched k l H).
Qed.

Lemma created_run clock l : created clock l.
Proof.
  induction l as [|x l IH] using rev_ind; intros k.
  - right; constructor.
  - specialize (IH k); rewrite run_snoc.
    set (st := run clock l) in *.
    destruct x as [name v|p]; cbn [step].
    + rewrite valid_step_lookup.
      destruct (String.eqb_spec k (Js.to_key (v_provider_key v))) as [E|E];
        cbn [andb].
      * assert (touches k (ValidStep name v) = true) as Hx
          by (cbn; unfold for_key; rewrite <- E; apply String.eqb_refl).
        assert (stamps k [ValidStep name v] = [v_updated_at v]) as Hst
          by (cbn in *; now rewrite Hx).
        rewrite <- E.
        destruct (touched_spec (clock 0%nat - hour_ms) v (entry clock k st))
          as (_ & _ & _ & _ & T5 & _).
        destruct (held k st) eqn:Hh; unfold held, entry in *.
        -- destruct (lookup k (providerStats st)) as [s0|] eqn:L.
           ++ apply (created_update clock l _ k s0); [|exact IH].
              rewrite T5, Hst; cbn [fold_left]; lia.
           ++ apply negb_true_iff in Hh.
              apply created_new; auto.
              rewrite T5, Hst; cbn [fold_left new_stats oldestUpdate].
              subst st; lia.
        -- destruct (lookup k (providerStats st)); [discriminate|].
           apply negb_false_iff in Hh; now left.
      * apply created_keep; [|exact IH].
        cbn; unfold for_key; now apply String.eqb_neq, not_eq_sym.
    + rewrite skip_step_lookup.
      destruct (is_invalid p && Js.truthy (provider_key p)) eqn:Hc; cbn [andb].
      * destruct (String.eqb_spec k (Js.to_key (provider_key p))) as [E|E];
          cbn [andb].
        -- assert (touches k (SkipStep p) = true) as Hx
             by (cbn; unfold skipped_for; rewrite Hc, <- E; apply String.eqb_refl).
           rewrite <- E.
           destruct (held k st) eqn:Hh; unfold held, entry in *.
           ++ destruct (lookup k (providerStats st)) as [s0|] eqn:L.
              ** apply (created_update clock l _ k s0); [reflexivity | exact IH].
              ** apply negb_true_iff in Hh.
                 apply created_new; auto.
           ++ destruct (lookup k (providerStats st)); [discriminate|].
              apply negb_false_iff in Hh; now left.
        -- apply created_keep; [|exact IH].
           cbn; unfold skipped_for; rewrite Hc.
           now apply String.eqb_neq, not_eq_sym.
      * apply created_keep; [|exact IH].
        cbn; unfold skipped_for; now rewrite Hc.
Qed.

(** X3. The entries, records and clock readings of the pass are those of
    its turns taken one after the other, and the clock has then been read
    once at line 25, once per entry and once per outdated record. At the
    end [newestUpdate] of an entry is the greatest of 0 and the
    timestamps of its valid prices. The entry was created at the first
    turn that concerns its name, and [oldestUpdate] is the least of the
    clock reading made at that turn and of those timestamps. *)
Theorem update_extremes (clock : Clock) (response : list Item) :
  same_store (aggregate clock response) (run clock (steps response)) /\
  (forall l, ticked (run clock l)) /\
  (forall k s,
     lookup k (providerStats (aggregate clock response)) = Some s ->
     newestUpdate s = fold_left Z.max (timestamps k response) 0 /\
     exists before x after,
       steps response = before ++ x :: after /\
       touches k x = true /\
       Forall (fun y => touches k y = false) before /\
       lookup k (providerStats (run clock before)) = None /\
       oldestUpdate s =
         fold_left Z.min (timestamps k response)
           (clock (ticks (run clock before)))).
Proof.
  split; [apply aggregate_run | split; [apply ticked_run|]].
  intros k s Hs; split.
  - destruct (extremes_aggregate clock response) as (_ & H).
    specialize (H k); rewrite Hs in H; apply H.
  - pose proof (created_run clock (steps response) k) as H.
    destruct (aggregate_run clock response) as (E & _).
    rewrite <- E, Hs in H; cbn [created_at] in H.
    rewrite stamps_steps in H; exact H.
Qed.

Lemma fold_min_le l : forall b x,
  In x (b :: l) -> fold_left Z.min l b <= x.
Proof.
  induction l as [|y l IH]; intros b x; simpl.
  - intros [->|[]]; lia.
  - intros [->|[->|H]].
    + etransitivity; [apply (IH _ (Z.min x y)); now left | lia].
    + etransitivity; [apply (IH _ (Z.min b x)); now left | lia].
    + apply IH; now right.
Qed.

Lemma fold_max_ge l : forall b x,
  In x (b :: l) -> x <= fold_left Z.max l b.
Proof.
  induction l as [|y l IH]; intros b x; simpl.
  - intros [->|[]]; lia.
  - intros [->|[->|H]].
    + etransitivity; [|apply (IH _ (Z.max x y)); now left]; lia.
    + etransitivity; [|apply (IH _ (Z.max b x)); now left]; lia.
    + apply IH; now right.
Qed.

Lemma fold_min_In l : forall b, In (fold_left Z.min l b) (b :: l).
Proof.
  induction l as [|y l IH]; intros b; simpl; [now left|].
  destruct (IH (Z.min b y)) as [H|H]; [|now right; right].
  rewrite <- H.
  destruct (Z.min_spec b y) as [(_ & E)|(_ & E)]; rewrite E;
    [left | right; left]; reflexivity.
Qed.

Lemma fold_max_In l : forall b, In (fold_left Z.max l b) (b :: l).
Proof.
  induction l as [|y l IH]; intros b; simpl; [now left|].
  destruct (IH (Z.max b y)) as [H|H]; [|now right; right].
  rewrite <- H.
  destruct (Z.max_spec b y) as [(_ & E)|(_ & E)]; rewrite E;
    [right; left | left]; reflexivity.
Qed.

(** X4. When no valid price is dated after any clock reading nor before
    the epoch, the oldest and the newest update of an entry with
    [total > 0] are timestamps of its own valid prices, the least and
    the greatest. *)
Theorem update_extremes_of_past_prices (clock : Clock) (response : list Item) :
  (forall t nv, In nv (all_valid response) -> v_updated_at (snd nv) <= clock t) ->
  (forall nv, In nv (all_valid response) -> 0 <= v_updated_at (snd nv)) ->
  forall k s,
    lookup k (providerStats (aggregate clock response)) = Some s ->
    0 < total s ->
    In (oldestUpdate s) (timestamps k response) /\
    In (newestUpdate s) (timestamps k response) /\
    forall ts, In ts (timestamps k response) ->
      oldestUpdate s <= ts <= newestUpdate s.
Proof.
  intros Hpast Hepoch k s Hs Hpos.
  destruct (extremes_aggregate clock response) as (_ & H).
  specialize (H k); rewrite Hs in H.
  destruct H as (Hn & t & Ht & Ho).
  fold (valid_for k response) in Hn, Ho; fold (timestamps k response) in Hn, Ho.
  destruct (provider_tallies clock response k s Hs) as (T & _).
  assert (forall ts, In ts (timestamps k response) -> 0 <= ts /\ ts <= clock t) as Hin.
  { intros ts Hts; unfold timestamps, valid_for in Hts.
    apply in_map_iff in Hts as (v & <- & Hv).
    apply filter_In in Hv as (Hv & _).
    apply in_map_iff in Hv as (nv & <- & Hnv); auto. }
  destruct (timestamps k response) as [|ts0 l] eqn:E.
  { unfold timestamps in E; apply map_eq_nil in E; rewrite E in T.
    rewrite (@len_nil ValidPrice) in T; lia. }
  destruct (Hin ts0 (or_introl eq_refl)) as (H0 & H1).
  rewrite Hn, Ho; split; [|split].
  - destruct (fold_min_In (ts0 :: l) (clock t)) as [G|G]; [|exact G].
    pose proof (fold_min_le (ts0 :: l) (clock t) ts0 (or_intror (or_introl eq_refl))).
    replace (fold_left Z.min (ts0 :: l) (clock t)) with ts0 by lia; now left.
  - destruct (fold_max_In (ts0 :: l) 0) as [G|G]; [|exact G].
    pose proof (fold_max_ge (ts0 :: l) 0 ts0 (or_intror (or_introl eq_refl))).
    replace (fold_left Z.max (ts0 :: l) 0) with ts0 by lia; now left.
  - intros ts Hts; split.
    + apply fold_min_le; now right.
    + apply fold_max_ge; now right.
Qed.

Lemma update_extremes_of_past_prices_witness :
  (forall t nv, In nv (all_valid (widget t0)) ->
     v_updated_at (snd nv) <= (fun _ : nat => t0) t) /\
  (forall nv, In nv (all_valid (widget t0)) -> 0 <= v_updated_at (snd nv)) /\
  (exists s,
     lookup "steam" (providerStats (aggregate (fun _ => t0) (widget t0))) = Some s /\
     In (oldestUpdate s) (timestamps "steam" (widget t0)) /\
     In (newestUpdate s) (timestamps "steam" (widget t0))).
Proof.
  assert (forall t nv, In nv (all_valid (widget t0)) ->
            v_updated_at (snd nv) <= (fun _ : nat => t0) t) as H1.
  { intros t nv [<-|[<-|[]]]; vm_compute; discriminate. }
  assert (forall nv, In nv (all_valid (widget t0)) -> 0 <= v_updated_at (snd nv)) as H2.
  { intros nv [<-|[<-|[]]]; vm_compute; discriminate. }
  split; [exact H1 | split; [exact H2|]].
  eexists; split; [reflexivity|].
  split;
    apply (update_extremes_of_past_prices (fun _ => t0) (widget t0) H1 H2 "steam" _
             eq_refl);
    reflexivity.
Defined.

(** ** The outdated records in full *)

Lemma recorded_le clock lo lo' r nv :
  (lo <= lo')%nat -> recorded clock lo' r nv -> recorded clock lo r nv.
Proof. intros Hle (t & Ht & Hr); exists t; split; [lia | exact Hr]. Qed.

Lemma Forall2_recorded_le clock lo lo' rs nvs :
  (lo <= lo')%nat ->
  Forall2 (recorded clock lo') rs nvs -> Forall2 (recorded clock lo) rs nvs.
Proof.
  intros Hle H; induction H; constructor; eauto using recorded_le.
Qed.

Lemma valid_fold_records clock cut name vs : forall st,
  exists new,
    outdatedPrices (fold_left (valid_step clock cut name) vs st) =
      outdatedPrices st ++ new /\
    Forall2 (recorded clock (ticks st)) new
      (filter (fun nv => negb (fresh_at cut nv)) (map (pair name) vs)).
Proof.
  induction vs as [|v vs IH]; intros st; cbn [fold_left map filter].
  - exists []; split; [now rewrite app_nil_r | constructor].
  - destruct (IH (valid_step clock cut name st v)) as (new & Hout & Hrec).
    pose proof (valid_step_ticks clock cut name st v) as Hmono.
    apply (Forall2_recorded_le _ _ _ _ _ Hmono) in Hrec.
    rewrite Hout, valid_step_outdated.
    change (fresh_at cut (name, v)) with (is_fresh cut (v_updated_at v)).
    destruct (is_fresh cut (v_updated_at v)); cbn [negb].
    + exists new; split; [now rewrite app_nil_r | exact Hrec].
    + eexists (_ :: new); split; [now rewrite <- app_assoc|].
      constructor; [|exact Hrec].
      eexists; split; [apply ensure_ticks | reflexivity].
Qed.

Lemma pass_records clock cut response : forall st,
  exists new,
    outdatedPrices (fold_left (process_item clock cut) response st) =
      outdatedPrices st ++ new /\
    Forall2 (recorded clock (ticks st)) new (stale_prices cut response).
Proof.
  unfold stale_prices.
  induction response as [|item response IH]; intros st; cbn [fold_left].
  - exists []; split; [now rewrite app_nil_r | constructor].
  - destruct (IH (process_item clock cut st item)) as (new & Hout & Hrec).
    pose proof (process_item_ticks cut clock st item) as Hmono.
    apply (Forall2_recorded_le _ _ _ _ _ Hmono) in Hrec.
    rewrite Hout, process_item_unfold.
    match goal with |- context [fold_left (skip_step clock) ?ps ?s] =>
      destruct (skip_fold_frame clock ps s) as (_ & _ & _ & ->) end.
    destruct (valid_fold_records clock cut (market_hash_name item)
                (validPrices (quotes item)) (count_item (quotes item) st))
      as (new0 & Hout0 & Hrec0).
    rewrite Hout0; cbn [count_item outdatedPrices ticks] in *.
    exists (new0 ++ new); split; [now rewrite app_assoc|].
    unfold all_valid; cbn [flat_map]; rewrite filter_app.
    apply Forall2_app; assumption.
Qed.

Lemma Forall2_map_eq {A B : Type} (f : B -> A) l l' :
  Forall2 (fun r x => r = f x) l l' -> l = map f l'.
Proof. intros H; induction H; simpl; congruence. Qed.

(** X5. The outdated records are, in the order of the response, the
    records of the valid prices older than the cutoff, each stamped with a
    clock reading made after line 25; under a clock that stays at [now]
    they are those records with [minutes_since_update] the whole minutes
    from the timestamp to [now]. *)
Theorem outdated_records (clock : Clock) (response : list Item) :
  Forall2 (recorded clock 1)
    (outdatedPrices (aggregate clock response))
    (stale_prices (clock 0%nat - hour_ms) response) /\
  forall now,
    outdatedPrices (aggregate (fun _ => now) response) =
    map (fun nv => stale_record (fst nv) (snd nv) now)
      (stale_prices (now - hour_ms) response).
Proof.
  assert (forall c, Forall2 (recorded c 1)
            (outdatedPrices (aggregate c response))
            (stale_prices (c 0%nat - hour_ms) response)) as H.
  { intros c.
    destruct (pass_records c (c 0%nat - hour_ms) response init_agg)
      as (new & Hout & Hrec).
    unfold aggregate; rewrite Hout; exact Hrec. }
  split; [apply H|].
  intros now; apply Forall2_map_eq.
  specialize (H (fun _ => now)); cbn beta in H.
  induction H as [|r nv rs nvs (t & _ & Hr) _ IH]; constructor; assumption.
Qed.

(** ** Responses that differ in the order of their items *)

Lemma filter_perm {A : Type} (f : A -> bool) l l' :
  Permutation l l' -> Permutation (filter f l) (filter f l').
Proof.
  intros H; induction H as [|x l l' _ IH|x y l|l l' l'' _ IH1 _ IH2]; simpl.
  - constructor.
  - destruct (f x); [now constructor | exact IH].
  - destruct (f x), (f y); try reflexivity; apply perm_swap.
  - now transitivity (filter f l').
Qed.

Lemma len_perm {A : Type} (l l' : list A) : Permutation l l' -> len l = len l'.
Proof. intros H; unfold len; now rewrite (Permutation_length H). Qed.

Lemma sum_perm l l' : Permutation l l' -> sum l = sum l'.
Proof.
  intros H; induction H as [|x l l' _ IH|x y l|l l' l'' _ IH1 _ IH2];
    rewrite ?sum_cons; lia.
Qed.

Lemma fold_max_perm l l' :
  Permutation l l' -> forall b, fold_left Z.max l b = fold_left Z.max l' b.
Proof.
  intros H; induction H as [|x l l' _ IH|x y l|l l' l'' _ IH1 _ IH2];
    intros b; simpl.
  - reflexivity.
  - apply IH.
  - f_equal; lia.
  - now rewrite IH1.
Qed.

Lemma all_valid_perm response response' :
  Permutation response response' ->
  Permutation (all_valid response) (all_valid response').
Proof. apply Permutation_flat_map. Qed.

Lemma valid_for_perm k response response' :
  Permutation response response' ->
  Permutation (valid_for k response) (valid_for k response').
Proof.
  intros H; unfold valid_for.
  apply filter_perm, Permutation_map, all_valid_perm, H.
Qed.

(** X6. The counters do not depend on the order of the items: two
    responses with the same items in a different order give the same
    global counters, entries for the same names, and in each entry the
    same total, up-to-date count, price sum, skipped count and newest
    update. *)
Theorem counters_order_independent (clock : Clock) (response response' : list Item) :
  Permutation response response' ->
  let st := aggregate clock response in
  let st' := aggregate clock response' in
  totalPriceCount st' = totalPriceCount st /\
  skippedPriceCount st' = skippedPriceCount st /\
  upToDateCount st' = upToDateCount st /\
  len (outdatedPrices st') = len (outdatedPrices st) /\
  forall k s, lookup k (providerStats st) = Some s ->
    exists s', lookup k (providerStats st') = Some s' /\ same_counts s s'.
Proof.
  intros H; simpl.
  pose proof (all_valid_perm _ _ H) as Hv.
  pose proof (Permutation_flat_map quotes H) as Hq.
  destruct (global_tallies clock response) as (G1 & G2).
  destruct (global_tallies clock response') as (G1' & G2').
  destruct (aggregate_class clock response) as (F1 & _).
  destruct (aggregate_class clock response') as (F1' & _).
  destruct (aggregate_counts clock response) as (_ & C).
  destruct (aggregate_counts clock response') as (_ & C').
  assert (totalPriceCount (aggregate clock response') =
          totalPriceCount (aggregate clock response)) as E1
    by (rewrite G1, G1'; symmetry; apply len_perm, Hv).
  assert (upToDateCount (aggregate clock response') =
          upToDateCount (aggregate clock response)) as E3
    by (rewrite F1, F1'; symmetry; apply len_perm, filter_perm, Hv).
  split; [exact E1 | split; [|split; [exact E3 | split; [lia|]]]].
  - rewrite G2, G2'; symmetry; apply len_perm, filter_perm, Hq.
  - intros k s Hs.
    assert (exists s', lookup k (providerStats (aggregate clock response')) = Some s')
      as (s' & Hs').
    { apply entry_reasons.
      destruct (proj1 (entry_reasons clock response k) (ex_intro _ s Hs))
        as (Hown & [(nv & Hin & Hk)|(p & Hin & Hk)]);
        (split; [exact Hown|]); [left | right].
      - exists nv; split; [apply (Permutation_in _ Hv Hin) | exact Hk].
      - exists p; split; [apply (Permutation_in _ Hq Hin) | exact Hk]. }
    exists s'; split; [exact Hs'|].
    destruct (provider_tallies clock response k s Hs) as (T1 & T2 & T3 & T4).
    destruct (provider_tallies clock response' k s' Hs') as (T1' & T2' & T3' & T4').
    pose proof (update_newest clock response k s Hs) as N.
    pose proof (update_newest clock response' k s' Hs') as N'.
    pose proof (valid_for_perm k _ _ H) as Hk.
    unfold same_counts; rewrite T1, T1', T2, T2', T3, T3', T4, T4', N, N'.
    repeat split; symmetry.
    + apply len_perm, Hk.
    + apply len_perm, filter_perm, Hk.
    + apply sum_perm, Permutation_map, Hk.
    + apply len_perm, filter_perm, Hq.
    + apply fold_max_perm; unfold timestamps; apply Permutation_map, Hk.
Qed.

Lemma counters_order_independent_witness :
  Permutation two_items two_items_swapped /\
  totalPriceCount (aggregate (fun _ => t0) two_items_swapped) =
  totalPriceCount (aggregate (fun _ => t0) two_items).
Proof.
  assert (Permutation two_items two_items_swapped) as H by apply perm_swap.
  split; [exact H|].
  apply (counters_order_independent (fun _ => t0) two_items two_items_swapped H).
Defined.

(** ** The two global percentages *)

Lemma main_percentage clock response :
  percentage (main clock response) = percentage_upToDate (aggregate clock response).
Proof.
  unfold main.
  destruct (derive_all _ _ _) as [ds t1], (save_outdated _ _ _) as [f t2].
  reflexivity.
Qed.

Lemma main_quality clock response :
  quality (main clock response) = data_quality (aggregate clock response).
Proof.
  unfold main.
  destruct (derive_all _ _ _) as [ds t1], (save_outdated _ _ _) as [f t2].
  reflexivity.
Qed.

Lemma len_zero {A : Type} (l : list A) : len l = 0 <-> l = [].
Proof.
  destruct l; [rewrite (@len_nil A); tauto|].
  rewrite len_cons; pose proof (len_nonneg l); split; [lia | discriminate].
Qed.

(** X7. The summary percentage of lines 207-211 is 0 when there is no
    valid price; otherwise it is what [toFixed(2)] makes of the double
    [upToDateCount / totalPriceCount * 100]: a value between 0.00 and
    100.00, and a nearest hundredth of the exact percentage when there
    are fewer than [2^32] valid prices. The data quality of lines 276-281
    is not a number exactly when the response holds no price at all, and
    otherwise lies between 0.00 and 100.00 and is a nearest hundredth of
    the share of valid prices when there are fewer than [2^32] prices. *)
Theorem global_percentages (clock : Clock) (response : list Item) :
  let r := main clock response in
  let valid := totalPriceCount (agg r) in
  let skipped := skippedPriceCount (agg r) in
  (valid = 0 -> percentage r = 0) /\
  (0 < valid < 2 ^ 32 ->
     2 * Z.abs (percentage r * valid - 10000 * upToDateCount (agg r)) <= valid) /\
  0 <= percentage r <= 10000 /\
  (quality r = None <-> flat_map quotes response = []) /\
  (forall q, quality r = Some q ->
     0 <= q <= 10000 /\
     (valid + skipped < 2 ^ 32 ->
      2 * Z.abs (q * (valid + skipped) - 10000 * valid) <= valid + skipped)).
Proof.
  simpl; rewrite main_agg, main_percentage, main_quality.
  destruct (aggregate_counts clock response) as (C1 & C2).
  destruct (global_tallies clock response) as (G1 & G2).
  destruct (aggregate_class clock response) as (F1 & _).
  set (st := aggregate clock response) in *.
  assert (0 <= upToDateCount st) as U0 by (rewrite F1; apply len_nonneg).
  assert (0 <= len (outdatedPrices st)) as O0 by apply len_nonneg.
  assert (0 <= skippedPriceCount st) as S0 by (rewrite G2; apply len_nonneg).
  unfold percentage_upToDate, data_quality.
  split; [|split; [|split; [|split]]].
  - intros H; destruct (Z.ltb_spec 0 (totalPriceCount st)); [lia | reflexivity].
  - intros H; destruct (Z.ltb_spec 0 (totalPriceCount st)); [|lia].
    apply percentage_rounded; lia.
  - destruct (Z.ltb_spec 0 (totalPriceCount st)); [|lia].
    apply percentage_range; lia.
  - rewrite <- len_zero, <- C1.
    destruct (Z.eqb_spec (totalPriceCount st + skippedPriceCount st) 0);
      split; congruence.
  - intros q.
    destruct (Z.eqb_spec (totalPriceCount st + skippedPriceCount st) 0);
      [discriminate|].
    intros [= <-]; split.
    + apply percentage_range; lia.
    + intros Hsmall; apply percentage_rounded; lia.
Qed.

(** ** The two places of the ranking *)

Lemma split_compare {A : Type} (a b : A) l2 l2' : forall l1 l1',
  l1 ++ a :: l2 = l1' ++ b :: l2' ->
  (l1 = l1' /\ a = b) \/ In a l1' \/ In b l1.
Proof.
  induction l1 as [|x l1 IH]; intros [|y l1']; simpl; intros [= E1 E2].
  - now left.
  - right; left; now left.
  - right; right; now left.
  - destruct (IH _ E2) as [(-> & ->)|[H|H]]; subst; auto.
Qed.

(** X8. When the ranking names providers at all, both are entries with
    [total > 0], the worst percentage is at most the best, both lie
    between 0.00 and 100.00, and the two names are the same provider
    whenever the two percentages are equal. *)
Theorem ranking_places (clock : Clock) (response : list Item) :
  let r := main clock response in
  ranking r = rank_init \/
  (exists eb ew,
     In eb (providers r) /\ In ew (providers r) /\
     0 < total (snd (fst eb)) /\ 0 < total (snd (fst ew)) /\
     bestProvider (ranking r) = name_of eb /\
     worstProvider (ranking r) = name_of ew /\
     bestPercentage (ranking r) = pct eb /\
     worstPercentage (ranking r) = pct ew /\
     0 <= pct ew <= pct eb /\ pct eb <= 10000 /\
     (pct eb = pct ew -> eb = ew)).
Proof.
  simpl; rewrite main_ranking.
  pose proof (providers_in_range clock response) as Hr.
  destruct (rank_ranked _ Hr) as [(_ & ->)|(eb & ew & Hb & Hw & ->)];
    [now left | right].
  exists eb, ew.
  assert (In eb (providers (main clock response))) as Ib.
  { destruct Hb as (l1 & l2 & -> & _); apply in_elt. }
  assert (In ew (providers (main clock response))) as Iw.
  { destruct Hw as (l1 & l2 & -> & _); apply in_elt. }
  assert (eligible eb) as Eb by (destruct Hb as (? & ? & _ & H & _); exact H).
  assert (eligible ew) as Ew by (destruct Hw as (? & ? & _ & H & _); exact H).
  pose proof (first_max_bound _ _ _ Hb Iw Ew) as Hle.
  assert (0 <= pct ew /\ pct eb <= 10000) as (H0 & H1).
  { destruct eb as [[kb sb] db], ew as [[kw sw] dw].
    destruct (providers_In _ _ _ _ _ Ib) as (Lb & tb & ->).
    destruct (providers_In _ _ _ _ _ Iw) as (Lw & tw & ->).
    unfold eligible, pct in *; simpl in *.
    rewrite !derive_stats_pct by assumption.
    pose proof (balanced_aggregate clock response kb) as Bb; rewrite Lb in Bb.
    pose proof (balanced_aggregate clock response kw) as Bw; rewrite Lw in Bw.
    pose proof (stale_count_nonneg kb (outdatedPrices (aggregate clock response))).
    pose proof (stale_count_nonneg kw (outdatedPrices (aggregate clock response))).
    pose proof (percentage_range (upToDate sb) (total sb)).
    pose proof (percentage_range (upToDate sw) (total sw)).
    lia. }
  repeat split; try assumption; try reflexivity.
  intros Heq.
  destruct Hb as (l1 & l2 & E & _ & Hb1 & _).
  destruct Hw as (l1' & l2' & E' & _ & Hw1 & _).
  rewrite E in E'.
  destruct (split_compare _ _ _ _ _ _ E') as [(_ & ->)|[H|H]].
  - reflexivity.
  - specialize (Hw1 eb H Eb); lia.
  - specialize (Hb1 ew H Ew); lia.
Qed.

(** * The sample of items *)

Lemma random_item_in_range (r : Q) (l : list Item) :
  (0 <= r)%Q -> (r < 1)%Q -> l <> [] ->
  exists i item, random_item r l = Some (i, item) /\ nth_error l i = Some item.
Proof.
  intros H0 H1 Hl; unfold random_item.
  assert (0 < len l) as Hlen.
  { destruct l; [congruence|]; rewrite len_cons; pose proof (len_nonneg l); lia. }
  assert (0 <= Qfloor (r * inject_Z (len l)) < len l) as (Hlo & Hhi).
  { destruct r as [a d]; unfold Qle, Qlt in H0, H1; simpl in H0, H1.
    unfold Qfloor; simpl.
    rewrite Pos.mul_1_r.
    split.
    - apply Z.div_pos; nia.
    - apply Z.div_lt_upper_bound; nia. }
  set (idx := Qfloor (r * inject_Z (len l))) in *.
  destruct (Z.leb_spec 0 idx); [|lia].
  destruct (nth_error l (Z.to_nat idx)) as [item|] eqn:E.
  - eauto.
  - apply nth_error_None in E; unfold len in Hhi; lia.
Qed.

Lemma splice_one_perm {A : Type} (l : list A) : forall i x,
  nth_error l i = Some x -> Permutation (x :: splice_one i l) l.
Proof.
  unfold splice_one.
  induction l as [|y l IH]; intros [|i] x; simpl; try discriminate.
  - intros [= ->]; reflexivity.
  - intros H; rewrite perm_swap; constructor; apply (IH i x H).
Qed.

Lemma show_item_ticks clock cut t item :
  (t <= snd (show_item clock cut t item))%nat.
Proof.
  unfold show_item.
  destruct (prices item) as [ps|]; [|simpl; lia].
  destruct (0 <? len ps); [|simpl; lia].
  assert (forall ps acc,
            (snd acc <= snd (fold_left (price_line clock cut) ps acc))%nat) as H.
  { clear; induction ps as [|p ps IH]; intros acc; simpl; [lia|].
    etransitivity; [|apply IH].
    unfold price_line; destruct acc as [lines t].
    destruct (updated_at p), (price p); simpl; lia. }
  specialize (H ps ([], t)).
  destruct (fold_left (price_line clock cut) ps ([], t)); simpl in *; exact H.
Qed.

Lemma sample_step_sampling clock rand cut response start i st :
  in_unit rand ->
  sampling clock cut response start i st ->
  exists st', sample_step clock rand cut (Some st) i = Some st' /\
              sampling clock cut response start (S i) st'.
Proof.
  intros Hrand (Hperm & Hshow & Hdraws & Hticks & Hcount & Hleft).
  pose proof (Z.mul_div_le (len response + 1) 2 ltac:(lia)) as D1.
  pose proof (Z.mul_succ_div_gt (len response + 1) 2 ltac:(lia)) as D2.
  set (half := (len response + 1) / 2) in *.
  unfold sample_step.
  destruct (Z.ltb_spec (Z.of_nat i) (len (remaining st))) as [Hlt|Hge].
  - destruct (Hrand (draws st)) as (R0 & R1).
    destruct (random_item_in_range (rand (draws st)) (remaining st) R0 R1)
      as (j & item & -> & Hnth).
    { intros E; rewrite E, (@len_nil Item) in Hlt; lia. }
    pose proof (show_item_ticks clock cut (sample_ticks st) item) as Ht.
    destruct (show_item clock cut (sample_ticks st) item) as [shown t] eqn:E.
    eexists; split; [reflexivity|].
    pose proof (splice_one_perm _ _ _ Hnth) as Hsp.
    unfold sampling; cbn [remaining sampled sample_ticks draws].
    repeat split.
    + rewrite map_app, <- app_assoc; cbn [map fst app].
      rewrite <- Hperm.
      apply Permutation_app_head; exact Hsp.
    + apply Forall_app; split; [exact Hshow|].
      constructor; [|constructor].
      exists (sample_ticks st); cbn [fst snd]; now rewrite E.
    + rewrite length_app, Hdraws; simpl; lia.
    + simpl in Ht; lia.
    + rewrite len_app, len_cons, (@len_nil (Item * SampleItem)); lia.
    + apply len_perm in Hsp; rewrite len_cons in Hsp.
      rewrite len_app, len_cons, (@len_nil (Item * SampleItem)); lia.
  - exists st; split; [reflexivity|].
    unfold sampling; repeat split; auto; lia.
Qed.

Lemma sample_sampling clock rand cut response t :
  in_unit rand ->
  exists smp, sample clock rand cut response t = Some smp /\
              sampling clock cut response t 5 smp.
Proof.
  intros Hrand; unfold sample; cbn [seq fold_left].
  assert (sampling clock cut response t 0
            {| remaining := response; sampled := []; sample_ticks := t; draws := 0 |})
    as H0.
  { pose proof (len_nonneg response).
    pose proof (Z.div_pos (len response + 1) 2 ltac:(lia) ltac:(lia)).
    unfold sampling; cbn [remaining sampled sample_ticks draws map app].
    rewrite (@len_nil (Item * SampleItem)).
    repeat split; auto; lia. }
  destruct (sample_step_sampling _ _ _ _ _ _ _ Hrand H0) as (s1 & -> & H1).
  destruct (sample_step_sampling _ _ _ _ _ _ _ Hrand H1) as (s2 & -> & H2).
  destruct (sample_step_sampling _ _ _ _ _ _ _ Hrand H2) as (s3 & -> & H3).
  destruct (sample_step_sampling _ _ _ _ _ _ _ Hrand H3) as (s4 & -> & H4).
  destruct (sample_step_sampling _ _ _ _ _ _ _ Hrand H4) as (s5 & -> & H5).
  exists s5; split; [reflexivity | exact H5].
Qed.

(** X9. With random numbers in [0, 1) the loop of line 153 ends without an
    exception, and it shows [min 5 ((n + 1) / 2)] of the [n] items of the
    response, not [min 5 n]: the guard [i < response.length] is tested on
    the array that [splice] shortens. One random number is drawn per item
    shown. *)
Theorem sample_size (clock : Clock) (rand : Random) (oneHourAgo : Z)
  (response : list Item) (t : nat) :
  in_unit rand ->
  exists smp,
    sample clock rand oneHourAgo response t = Some smp /\
    len (sampled smp) = Z.min 5 ((len response + 1) / 2) /\
    len (remaining smp) = len response - len (sampled smp) /\
    draws smp = List.length (sampled smp).
Proof.
  intros Hrand.
  destruct (sample_sampling clock rand oneHourAgo response t Hrand)
    as (smp & Hs & _ & _ & Hd & _ & Hc & Hl).
  exists smp; repeat split; assumption.
Qed.

Lemma one_half_in_unit : in_unit one_half.
Proof. intros n; unfold one_half, Qle, Qlt; simpl; lia. Qed.

Lemma sample_size_witness :
  in_unit one_half /\
  exists smp,
    sample (fun _ => t0) one_half 0 nine_items 1 = Some smp /\
    len (sampled smp) = Z.min 5 ((len nine_items + 1) / 2).
Proof.
  split; [exact one_half_in_unit|].
  destruct (sample_size (fun _ => t0) one_half 0 nine_items 1 one_half_in_unit)
    as (smp & H1 & H2 & _).
  exists smp; split; assumption.
Defined.

(** X10. The loop samples without replacement: the items shown, in the
    order shown, together with the items left in [response] are the items
    of the response, each once; each item is shown as lines 158-189 print
    it. *)
Theorem sample_without_replacement (clock : Clock) (rand : Random)
  (oneHourAgo : Z) (response : list Item) (t : nat) :
  in_unit rand ->
  exists smp,
    sample clock rand oneHourAgo response t = Some smp /\
    Permutation (map fst (sampled smp) ++ remaining smp) response /\
    Forall (fun e => exists t',
                       snd e = fst (show_item clock oneHourAgo t' (fst e)))
      (sampled smp).
Proof.
  intros Hrand.
  destruct (sample_sampling clock rand oneHourAgo response t Hrand)
    as (smp & Hs & Hp & Hf & _).
  exists smp; repeat split; assumption.
Qed.

Lemma sample_without_replacement_witness :
  in_unit one_half /\
  exists smp,
    sample (fun _ => t0) one_half 0 nine_items 1 = Some smp /\
    Permutation (map fst (sampled smp) ++ remaining smp) nine_items.
Proof.
  split; [exact one_half_in_unit|].
  destruct (sample_without_replacement (fun _ => t0) one_half 0 nine_items 1
              one_half_in_unit) as (smp & H1 & H2 & _).
  exists smp; split; assumption.
Defined.

(** ** The run with the sample *)

Lemma skip_readings_agree clock from n : agree clock (skip_readings clock from n) from.
Proof.
  intros t Ht; unfold skip_readings.
  apply Nat.ltb_lt in Ht; now rewrite Ht.
Qed.

Lemma skip_readings_after clock from n t :
  (from <= t)%nat -> skip_readings clock from n t = clock (t + n)%nat.
Proof.
  intros Ht; unfold skip_readings.
  apply Nat.ltb_ge in Ht; now rewrite Ht.
Qed.

(** X11. With random numbers in [0, 1) the run with the sample reaches its
    end, and what it reports and writes is what [main] reports and writes
    under the clock that leaves out the readings the sample made: the
    sample changes no counter, no entry, no ranking and no record; it only
    delays the two readings of the written document. *)
Theorem session_report (clock : Clock) (rand : Random) (response : list Item) :
  in_unit rand ->
  exists r smp n,
    session clock rand response = Some (r, smp) /\
    (n + readings (main clock response) = readings r)%nat /\
    let m := main (skip_readings clock (sample_ticks smp - n) n) response in
    agg r = agg m /\ providers r = providers m /\ ranking r = ranking m /\
    percentage r = percentage m /\ quality r = quality m /\
    written r = written m.
Proof.
  intros Hrand; unfold session.
  set (st := aggregate clock response).
  pose proof (derive_all_ticks clock (Js.entries (providerStats st)) (ticks st)) as Td.
  destruct (derive_all clock (Js.entries (providerStats st)) (ticks st))
    as [ds t1] eqn:Ed; simpl in Td.
  destruct (sample_sampling clock rand (clock 0%nat - hour_ms) response t1 Hrand)
    as (smp & -> & _ & _ & _ & Hticks & _).
  set (n := (sample_ticks smp - t1)%nat).
  assert (sample_ticks smp = (t1 + n)%nat) as Es by (unfold n; lia).
  assert ((sample_ticks smp - n)%nat = t1) as Et by lia.
  set (c' := skip_readings clock t1 n).
  assert (agree clock c' t1) as Hag by apply skip_readings_agree.
  assert (aggregate c' response = st) as Ea.
  { symmetry; apply aggregate_agree.
    eapply agree_le; [|exact Hag]. exact Td. }
  assert (derive_all c' (Js.entries (providerStats st)) (ticks st) = (ds, t1)) as Ed'.
  { rewrite <- Ed; symmetry; apply derive_all_agree.
    rewrite Ed; exact Hag. }
  assert (main clock response =
          {| agg := st; providers := ds; ranking := rank ds;
             percentage := percentage_upToDate st; quality := data_quality st;
             written := fst (save_outdated clock t1 (outdatedPrices st));
             readings := snd (save_outdated clock t1 (outdatedPrices st)) |}) as Em.
  { unfold main; fold st; rewrite Ed.
    destruct (save_outdated clock t1 (outdatedPrices st)); reflexivity. }
  assert (main c' response =
          {| agg := st; providers := ds; ranking := rank ds;
             percentage := percentage_upToDate st; quality := data_quality st;
             written := fst (save_outdated c' t1 (outdatedPrices st));
             readings := snd (save_outdated c' t1 (outdatedPrices st)) |}) as Em'.
  { unfold main; rewrite Ea, Ed'.
    destruct (save_outdated c' t1 (outdatedPrices st)); reflexivity. }
  exists {| agg := st; providers := ds; ranking := rank ds;
            percentage := percentage_upToDate st; quality := data_quality st;
            written := fst (save_outdated clock (sample_ticks smp) (outdatedPrices st));
            readings := snd (save_outdated clock (sample_ticks smp) (outdatedPrices st)) |},
    smp, n.
  split; [now destruct (save_outdated clock (sample_ticks smp) (outdatedPrices st))|].
  rewrite Et; fold c'; rewrite Em, Em', Es.
  unfold save_outdated.
  assert (c' t1 = clock (t1 + n)%nat) as R1
    by (apply skip_readings_after; lia).
  assert (c' (S t1) = clock (S (t1 + n))) as R2
    by (apply (skip_readings_after clock t1 n (S t1)); lia).
  rewrite R1, R2.
  destruct (0 <? len (outdatedPrices st)); cbn; repeat split; lia.
Qed.

Lemma session_report_witness :
  in_unit one_half /\
  exists r smp,
    session (ticking t0) one_half (widget t0) = Some (r, smp) /\
    (readings (main (ticking t0) (widget t0)) <= readings r)%nat.
Proof.
  split; [exact one_half_in_unit|].
  destruct (session_report (ticking t0) one_half (widget t0) one_half_in_unit)
    as (r & smp & n & H1 & H2 & _).
  exists r, smp; split; [exact H1 | lia].
Defined.

(** ** The lines of a sampled item *)

(** [price.price / 100] printed with two decimals is the price to the
    cent. *)
Lemma toFixed2_cents (c : Z) : Js.toFixed2 (c # 100) = c.
Proof.
  unfold Js.toFixed2; simpl Qnum; simpl Qden.
  assert ((2 * (100 * Z.abs c) + 100) / (2 * 100) = Z.abs c) as ->.
  { symmetry; apply (Z.div_unique _ _ _ 100); lia. }
  destruct (Z.sgn_spec c) as [(H & ->)|[(H & ->)|(H & ->)]]; lia.
Qed.

Lemma price_lines_fold clock cut ps : forall lines t,
  exists new,
    fold_left (price_line clock cut) ps (lines, t) =
      (lines ++ new, (t + List.length (validPrices ps))%nat) /\
    Forall2 (line_of cut) ps new /\
    len (filter up_to_date_line new) =
      len (filter (fun v => is_fresh cut (v_updated_at v)) (validPrices ps)) /\
    len (filter invalid_line new) = len (filter is_invalid ps).
Proof.
  induction ps as [|p ps IH]; intros lines t; cbn [fold_left].
  - exists []; rewrite app_nil_r, Nat.add_0_r; repeat split; constructor.
  - change (validPrices (p :: ps)) with (valid_of p ++ validPrices ps).
    cbn [filter]; unfold price_line at 2, valid_of; unfold is_invalid at 1.
    destruct (updated_at p) as [ts|] eqn:Eu; [destruct (price p) as [c|] eqn:Ep|];
      match goal with
      | |- context [fold_left _ ps (lines ++ [?l], ?t')] =>
          destruct (IH (lines ++ [l]) t') as (new & -> & Hf & Hu & Hi);
          exists (l :: new)
      end;
      rewrite <- app_assoc; cbn [app List.length filter up_to_date_line invalid_line].
    + rewrite toFixed2_cents.
      repeat split.
      * f_equal; lia.
      * constructor; [|exact Hf].
        unfold line_of; rewrite Eu, Ep; eauto.
      * cbn [v_updated_at].
        destruct (is_fresh cut ts); rewrite ?len_cons, Hu; reflexivity.
      * exact Hi.
    + repeat split.
      * constructor; [|exact Hf].
        unfold line_of; rewrite Eu, Ep; reflexivity.
      * exact Hu.
      * rewrite !len_cons, Hi; reflexivity.
    + repeat split.
      * constructor; [|exact Hf].
        unfold line_of; rewrite Eu; reflexivity.
      * exact Hu.
      * rewrite !len_cons, Hi; reflexivity.
Qed.

(** X12. A sampled item with prices is shown with one line per price, in
    order: an invalid price as missing its timestamp when that is null and
    as missing its price otherwise, a valid price with its price to the
    cent and the mark of the comparison the counters use. So the lines
    marked up to date and the lines of invalid prices are as many as the
    item adds to [upToDateCount] and to [skippedPriceCount], and the clock
    is read once per valid price. *)
Theorem sample_lines (clock : Clock) (oneHourAgo : Z) (t : nat) (item : Item)
  (ps : list Price) :
  prices item = Some ps -> ps <> [] ->
  exists lines,
    show_item clock oneHourAgo t item =
      (mkSample (market_hash_name item) (or_na (liquidity item))
         (or_na (trades_7d item)) (Some lines),
       (t + List.length (validPrices ps))%nat) /\
    Forall2 (line_of oneHourAgo) ps lines /\
    len (filter up_to_date_line lines) =
      len (filter (fresh_at oneHourAgo)
             (map (pair (market_hash_name item)) (validPrices ps))) /\
    len (filter invalid_line lines) = len ps - len (validPrices ps).
Proof.
  intros Hps Hne; unfold show_item; rewrite Hps.
  assert ((0 <? len ps) = true) as ->.
  { apply Z.ltb_lt; destruct ps; [congruence|].
    rewrite len_cons; pose proof (len_nonneg ps); lia. }
  destruct (price_lines_fold clock oneHourAgo ps [] t) as (lines & -> & Hf & Hu & Hi).
  exists lines; cbn [app]; repeat split; try assumption.
  - rewrite Hu; clear.
    induction (validPrices ps) as [|v vs IH]; [reflexivity|].
    cbn [map filter]; change (fresh_at oneHourAgo (market_hash_name item, v))
      with (is_fresh oneHourAgo (v_updated_at v)).
    destruct (is_fresh oneHourAgo (v_updated_at v)); rewrite ?len_cons, IH; reflexivity.
  - rewrite Hi; pose proof (valid_invalid_len ps); lia.
Qed.

Lemma sample_lines_witness :
  prices (mkItem "Widget" None (Some 0) (Some [youpin_invalid]))
    = Some [youpin_invalid] /\
  [youpin_invalid] <> [] /\
  exists lines,
    show_item (fun _ => t0) 0 1 (mkItem "Widget" None (Some 0) (Some [youpin_invalid]))
      = (mkSample "Widget" None None (Some lines), 1%nat) /\
    Forall2 (line_of 0) [youpin_invalid] lines.
Proof.
  split; [reflexivity | split; [discriminate|]].
  destruct (sample_lines (fun _ => t0) 0 1
              (mkItem "Widget" None (Some 0) (Some [youpin_invalid]))
              [youpin_invalid] eq_refl ltac:(discriminate))
    as (lines & H1 & H2 & _).
  exists lines; split; [exact H1 | exact H2].
Defined.

(** ** The name of the written file *)

Lemma colons_to_dashes_app s s' :
  colons_to_dashes (s ++ s') =
  (colons_to_dashes s ++ colons_to_dashes s')%string.
Proof.
  induction s as [|c s IH]; cbn [colons_to_dashes String.append];
    [reflexivity | now rewrite IH].
Qed.

Lemma no_colon_left s : occurs ":" (colons_to_dashes s) = false.
Proof.
  induction s as [|c s IH]; cbn [colons_to_dashes occurs]; [reflexivity|].
  rewrite IH, orb_false_r.
  destruct (Ascii.eqb_spec c ":") as [->|H]; [reflexivity|].
  now apply Ascii.eqb_neq, not_eq_sym.
Qed.

Lemma occurs_rest_of_line c s :
  occurs c (rest_of_line s) = true -> occurs c s = true.
Proof.
  induction s as [|d s IH]; cbn [rest_of_line occurs]; [auto|].
  destruct (line_terminator d); cbn [occurs]; [auto|].
  intros H; rewrite (IH H); apply orb_true_r.
Qed.

Lemma occurs_cut_fraction c s :
  occurs c (cut_fraction s) = true -> occurs c s = true.
Proof.
  induction s as [|d s IH]; cbn [cut_fraction occurs]; [auto|].
  match goal with |- context [if ?b then _ else _] => destruct b end.
  - intros H; rewrite (occurs_rest_of_line _ _ H); apply orb_true_r.
  - cbn [occurs]; destruct (Ascii.eqb c d); cbn [orb]; auto.
Qed.

Lemma colons_to_dashes_dots s :
  occurs "." (colons_to_dashes s) = occurs "." s.
Proof.
  induction s as [|c s IH]; cbn [colons_to_dashes occurs]; [reflexivity|].
  rewrite IH; f_equal.
  destruct (Ascii.eqb_spec c ":") as [->|H]; reflexivity.
Qed.

Lemma colons_to_dashes_one_line s :
  one_line (colons_to_dashes s) = one_line s.
Proof.
  induction s as [|c s IH]; cbn [colons_to_dashes one_line]; [reflexivity|].
  rewrite IH; f_equal.
  destruct (Ascii.eqb_spec c ":") as [->|H]; reflexivity.
Qed.

Lemma rest_of_one_line s : one_line s = true -> rest_of_line s = EmptyString.
Proof.
  induction s as [|c s IH]; cbn [one_line rest_of_line]; [reflexivity|].
  destruct (line_terminator c); cbn [negb andb]; [discriminate | exact IH].
Qed.

Lemma cut_fraction_at_dot pre post :
  occurs "." pre = false -> post <> EmptyString -> one_line post = true ->
  cut_fraction (pre ++ String "." post) = pre.
Proof.
  intros Hpre Hne Hline.
  induction pre as [|c pre IH]; cbn [String.append cut_fraction occurs] in *.
  - destruct post as [|d post]; [congruence|].
    cbn [one_line] in Hline; apply andb_true_iff in Hline as (Hd & Hline).
    rewrite Hd, Ascii.eqb_refl; cbn [andb rest_of_line].
    apply negb_true_iff in Hd; rewrite Hd.
    now apply rest_of_one_line.
  - apply orb_false_iff in Hpre as (Hc & Hpre).
    rewrite Ascii.eqb_sym, Hc; cbn [andb].
    now rewrite IH.
Qed.

Lemma occurs_app c s s' :
  occurs c (s ++ s') = occurs c s || occurs c s'.
Proof.
  induction s as [|d s IH]; cbn [String.append occurs]; [reflexivity|].
  now rewrite IH, orb_assoc.
Qed.

(** X13. When the ISO string of the instant has no dot before its fraction
    of a second and the fraction is not empty, the name of the written
    file is "outdated_prices_", the part before the dot with dashes for
    colons, and ".json": the fraction and what follows it are dropped, so
    the name depends on the instant up to the second only. *)
Theorem file_name_of_iso (pre post : string) :
  occurs "." pre = false -> post <> EmptyString -> one_line post = true ->
  file_name (pre ++ String "." post) =
    ("outdated_prices_" ++ colons_to_dashes pre ++ ".json")%string.
Proof.
  intros Hpre Hne Hline.
  unfold file_name; rewrite colons_to_dashes_app.
  change (colons_to_dashes (String "." post))
    with (String "." (colons_to_dashes post)).
  rewrite cut_fraction_at_dot; [reflexivity | | |].
  - now rewrite colons_to_dashes_dots.
  - destruct post; [congruence | discriminate].
  - now rewrite colons_to_dashes_one_line.
Qed.

Lemma file_name_of_iso_witness :
  occurs "." "2023-11-14T22:13:20" = false /\
  "000Z" <> EmptyString /\ one_line "000Z" = true /\
  file_name ("2023-11-14T22:13:20" ++ String "." "000Z") =
    "outdated_prices_2023-11-14T22-13-20.json".
Proof.
  split; [reflexivity|].
  split; [discriminate|].
  split; [reflexivity|].
  exact (file_name_of_iso "2023-11-14T22:13:20" "000Z" eq_refl
           ltac:(discriminate) eq_refl).
Defined.

(** X14. Whatever string stands for the instant, the name of the written
    file holds no colon, and the two replacements bring in no character
    but the dash: every other character of the name between its prefix and
    its extension is a character of that string. *)
Theorem file_name_characters (iso : string) :
  occurs ":" (file_name iso) = false /\
  forall c, c <> "-"%char ->
    occurs c (cut_fraction (colons_to_dashes iso)) = true ->
    occurs c iso = true.
Proof.
  split.
  - unfold file_name; rewrite !occurs_app.
    destruct (occurs ":" (cut_fraction _)) eqn:E.
    + apply occurs_cut_fraction in E; now rewrite no_colon_left in E.
    + reflexivity.
  - intros c Hc H; apply occurs_cut_fraction in H.
    revert H; induction iso as [|d iso IH]; cbn [colons_to_dashes occurs];
      [auto|].
    destruct (Ascii.eqb_spec d ":") as [->|Hd].
    + destruct (Ascii.eqb_spec c "-") as [->|_]; [congruence|]. cbn [orb].
      intros H; rewrite (IH H); apply orb_true_r.
    + destruct (Ascii.eqb c d); cbn [orb]; auto.
Qed.
